(** * pyss.statemachine: the statechart model and its hierarchy queries

    A shallow embedding of [pyss/statemachine.py].  Python objects become
    records and inductive types, dictionaries become [gmap]s, exceptions
    become the [Raise] outcome of [res], and the [while] loops that
    Python does not bound ([ancestors_for], [descendants_for], [to_dict])
    take a fuel argument; running out of it is the outcome [OutOfFuel]. *)

From stdpp Require Import gmap strings list fin_maps sorting.

Set Warnings "-register-all".

Open Scope string_scope.
Open Scope list_scope.
Open Scope nat_scope.

(** ** Outcomes of a call *)

Inductive exn : Type := ValueError | KeyError | AttributeError | TypeError.

Inductive res (A : Type) : Type :=
| Ok (a : A)
| Raise (e : exn)
| OutOfFuel.

Arguments Ok {A} a.
Arguments Raise {A} e.
Arguments OutOfFuel {A}.

Definition res_bind {A B : Type} (r : res A) (k : A → res B) : res B :=
  match r with
  | Ok a => k a
  | Raise e => Raise e
  | OutOfFuel => OutOfFuel
  end.

(** ** Event, Transition, State *)

(** [Event.data] is an opaque dictionary; it takes no part in equality. *)
Record Event : Type := mkEvent {
  event_name : string;
  event_data : option (list (string * string))
}.

(** [Event.__eq__]: two events are equal when their names are. *)
Definition Event_eq (e1 e2 : Event) : bool :=
  String.eqb (event_name e1) (event_name e2).

Record Transition : Type := mkTransition {
  from_state : string;
  to_state : option string;
  event : option Event;
  condition : option string;
  action : option string
}.

(** [Transition.__init__]: the only check is that a target or an event is
    given; every argument is stored as it comes. *)
Definition Transition_init (from : string) (to : option string)
    (ev : option Event) (cond act : option string) : res Transition :=
  match to, ev with
  | None, None => Raise ValueError
  | _, _ => Ok (mkTransition from to ev cond act)
  end.

Definition internal (t : Transition) : bool :=
  match to_state t with None => true | Some _ => false end.

Definition eventless (t : Transition) : bool :=
  match event t with None => true | Some _ => false end.

(** The five state classes.  Each constructor carries the attributes its
    [__init__] sets: [transitions] comes from [TransitionStateMixin],
    [on_entry]/[on_exit] from [ActionStateMixin], [children] from
    [CompositeStateMixin]. *)
Inductive State : Type :=
| BasicState (n : string) (on_entry on_exit : option string)
    (trs : list Transition)
| CompoundState (n : string) (init : string) (on_entry on_exit : option string)
    (trs : list Transition) (chs : list string)
| OrthogonalState (n : string) (on_entry on_exit : option string)
    (trs : list Transition) (chs : list string)
| HistoryState (n : string) (init : option string) (deep : bool)
    (memory : list (option string))
| FinalState (n : string) (on_entry on_exit : option string).

(** The constructors as Python calls them: fresh objects have no transition
    and no child, and a history state remembers its initial state. *)
Definition new_BasicState (n : string) (on_entry on_exit : option string) : State :=
  BasicState n on_entry on_exit [].
Definition new_CompoundState (n init : string) (on_entry on_exit : option string) : State :=
  CompoundState n init on_entry on_exit [] [].
Definition new_OrthogonalState (n : string) (on_entry on_exit : option string) : State :=
  OrthogonalState n on_entry on_exit [] [].
Definition new_HistoryState (n : string) (init : option string) (deep : bool) : State :=
  HistoryState n init deep [init].
Definition new_FinalState (n : string) (on_entry on_exit : option string) : State :=
  FinalState n on_entry on_exit.

Definition state_name (st : State) : string :=
  match st with
  | BasicState n _ _ _ | CompoundState n _ _ _ _ _ | OrthogonalState n _ _ _ _
  | HistoryState n _ _ _ | FinalState n _ _ => n
  end.

(** [getattr(state, 'children', [])] *)
Definition state_children (st : State) : list string :=
  match st with
  | CompoundState _ _ _ _ _ chs | OrthogonalState _ _ _ _ chs => chs
  | _ => []
  end.

(** [getattr(state, 'transitions', [])] *)
Definition state_transitions (st : State) : list Transition :=
  match st with
  | BasicState _ _ _ trs | CompoundState _ _ _ _ trs _
  | OrthogonalState _ _ _ trs _ => trs
  | _ => []
  end.

(** [CompositeStateMixin.add_child]; the other classes have no such method. *)
Definition add_child (st : State) (c : string) : res State :=
  match st with
  | CompoundState n i en ex trs chs => Ok (CompoundState n i en ex trs (chs ++ [c]))
  | OrthogonalState n en ex trs chs => Ok (OrthogonalState n en ex trs (chs ++ [c]))
  | _ => Raise AttributeError
  end.

(** [TransitionStateMixin.add_transition]; history and final states have no
    such method. *)
Definition add_transition (st : State) (t : Transition) : res State :=
  match st with
  | BasicState n en ex trs => Ok (BasicState n en ex (trs ++ [t]))
  | CompoundState n i en ex trs chs => Ok (CompoundState n i en ex (trs ++ [t]) chs)
  | OrthogonalState n en ex trs chs => Ok (OrthogonalState n en ex (trs ++ [t]) chs)
  | _ => Raise AttributeError
  end.

(** ** The state machine (the registry) *)

Record StateMachine : Type := mkStateMachine {
  name : string;
  initial : string;
  execute : option string;
  states : gmap string State;
  transitions : list Transition;
  parent : gmap string (option string);
  children : list string
}.

(** [StateMachine.__init__] *)
Definition StateMachine_init (n init : string) (exec : option string) : StateMachine :=
  mkStateMachine n init exec ∅ [] ∅ [].

(** The [parent] argument of [register_state]: a state object, a name or
    [None]. *)
Inductive parent_arg : Type :=
| PState (p : State)
| PName (p : string)
| PNone.

Definition parent_name (p : parent_arg) : option string :=
  match p with
  | PState st => Some (state_name st)
  | PName s => Some s
  | PNone => None
  end.

(** [register_state].  The two dictionaries are written first; the parent is
    then looked up in the updated [states] and gets the child, or the name
    goes to the top-level list.  The machine that is returned is the one
    left behind, also when [add_child] raises. *)
Definition register_state (sm : StateMachine) (st : State) (p : parent_arg)
    : StateMachine * res unit :=
  let n := state_name st in
  let states1 := <[n := st]> (states sm) in
  let parent1 := <[n := parent_name p]> (parent sm) in
  let sm1 := mkStateMachine (name sm) (initial sm) (execute sm) states1
               (transitions sm) parent1 (children sm) in
  match parent_name p with
  | Some pn =>
      match states1 !! pn with
      | Some pst =>
          match add_child pst n with
          | Ok pst' =>
              (mkStateMachine (name sm) (initial sm) (execute sm)
                 (<[pn := pst']> states1) (transitions sm) parent1 (children sm),
               Ok tt)
          | Raise e => (sm1, Raise e)
          | OutOfFuel => (sm1, OutOfFuel)
          end
      | None =>
          (mkStateMachine (name sm) (initial sm) (execute sm) states1
             (transitions sm) parent1 (children sm ++ [n]), Ok tt)
      end
  | None =>
      (mkStateMachine (name sm) (initial sm) (execute sm) states1
         (transitions sm) parent1 (children sm ++ [n]), Ok tt)
  end.

(** [register_transition].  The transition is appended to the machine's list
    before the source state is looked up. *)
Definition register_transition (sm : StateMachine) (t : Transition)
    : StateMachine * res unit :=
  let sm1 := mkStateMachine (name sm) (initial sm) (execute sm) (states sm)
               (transitions sm ++ [t]) (parent sm) (children sm) in
  match states sm !! from_state t with
  | None => (sm1, Raise KeyError)
  | Some st =>
      match add_transition st t with
      | Ok st' =>
          (mkStateMachine (name sm) (initial sm) (execute sm)
             (<[from_state t := st']> (states sm))
             (transitions sm ++ [t]) (parent sm) (children sm), Ok tt)
      | Raise e => (sm1, Raise e)
      | OutOfFuel => (sm1, OutOfFuel)
      end
  end.

(** ** Structural queries: the bodies

    [ancestors_for], [descendants_for], [depth_of] and
    [least_common_ancestor] are decorated with [functools.lru_cache], and
    [depth_of], [least_common_ancestor] and [leaf_for] call the decorated
    [ancestors_for] and [descendants_for].  The methods as a program calls
    them, with their caches, are [cached_ancestors_for],
    [cached_descendants_for], [cached_depth_of],
    [cached_least_common_ancestor] and [cached_leaf_for] further down.

    This section has the code under the decorators, run on one registry
    with every nested call answered by the body of the callee.  That is the
    value a call has when no cache holds a result older than the last
    registration; [coherent] states that condition, and under it the
    methods and these bodies agree. *)

(** Python's truth value of a parent entry: [None] and the empty string both
    end the walk in [while parent:]. *)
Definition truthy (p : option string) : option string :=
  match p with
  | Some (String a s) => Some (String a s)
  | _ => None
  end.

Fixpoint ancestors_loop (fuel : nat) (sm : StateMachine)
    (par : option string) (ancestors : list string) : res (list string) :=
  match truthy par with
  | None => Ok ancestors
  | Some p =>
      match fuel with
      | O => OutOfFuel
      | S fuel' =>
          match parent sm !! p with
          | Some par' => ancestors_loop fuel' sm par' (ancestors ++ [p])
          | None => Raise KeyError
          end
      end
  end.

Definition ancestors_for (fuel : nat) (sm : StateMachine) (s : string)
    : res (list string) :=
  match parent sm !! s with
  | Some par => ancestors_loop fuel sm par []
  | None => Raise KeyError
  end.

(** One turn of the [while] loop pops the head of [states_to_consider] and
    appends each of its children to both lists. *)
Fixpoint descendants_loop (fuel : nat) (sm : StateMachine)
    (states_to_consider descendants : list string) : res (list string) :=
  match states_to_consider with
  | [] => Ok descendants
  | s :: rest =>
      match fuel with
      | O => OutOfFuel
      | S fuel' =>
          match states sm !! s with
          | Some st =>
              descendants_loop fuel' sm (rest ++ state_children st)
                (descendants ++ state_children st)
          | None => Raise KeyError
          end
      end
  end.

Definition descendants_for (fuel : nat) (sm : StateMachine) (s : string)
    : res (list string) :=
  descendants_loop fuel sm [s] [].

(** The body of [depth_of], over the body of [ancestors_for]. *)
Definition depth_of (fuel : nat) (sm : StateMachine) (s : option string)
    : res nat :=
  match s with
  | None => Ok 0
  | Some s' =>
      res_bind (ancestors_for fuel sm s') (λ ancestors, Ok (length ancestors + 1))
  end.

(** [x in l] on lists of names. *)
Definition mem (x : string) (l : list string) : bool := bool_decide (x ∈ l).

(** [for state in s1_anc: if state in s2_anc: return state]; falling off the
    loop returns [None]. *)
Fixpoint first_in (s1_anc s2_anc : list string) : option string :=
  match s1_anc with
  | [] => None
  | s :: rest => if mem s s2_anc then Some s else first_in rest s2_anc
  end.

(** The body of [least_common_ancestor], over the body of
    [ancestors_for]. *)
Definition least_common_ancestor (fuel : nat) (sm : StateMachine)
    (s1 s2 : string) : res (option string) :=
  res_bind (ancestors_for fuel sm s1) (λ s1_anc,
  res_bind (ancestors_for fuel sm s2) (λ s2_anc,
  Ok (first_in s1_anc s2_anc))).

(** The inner loop of [leaf_for]: [keep] stays true unless some descendant
    is in [sts]. *)
Fixpoint keep_scan (sts descendants : list string) : bool :=
  match descendants with
  | [] => true
  | d :: rest => if mem d sts then false else keep_scan sts rest
  end.

(** The loop of [leaf_for], over the body of [descendants_for]. *)
Fixpoint leaf_loop (fuel : nat) (sm : StateMachine)
    (sts todo leaves : list string) : res (list string) :=
  match todo with
  | [] => Ok leaves
  | s :: rest =>
      res_bind (descendants_for fuel sm s) (λ ds,
        leaf_loop fuel sm sts rest
          (if keep_scan sts ds then leaves ++ [s] else leaves))
  end.

Definition leaf_for (fuel : nat) (sm : StateMachine) (sts : list string)
    : res (list string) :=
  leaf_loop fuel sm sts sts [].

(** ** Valid registries

    The invariants of a built registry that the hierarchy queries rest on
    (invariants 1, 2 and 5 of the data model, for parents and children):
    names are unique keys and every state is stored under its own name, the
    [parent] dictionary and the children lists describe the same tree, every
    parent is registered, and following [parent] always reaches the top
    level.  The parent of a state is read the way [ancestors_for] reads it:
    [None] and the empty string both mean top level.  [valid] is a boolean
    check, so that it can be run on a given registry. *)

Definition parent_of (sm : StateMachine) (s : string) : option string :=
  parent sm !! s ≫= truthy.

Definition is_some {A : Type} (o : option A) : bool :=
  match o with Some _ => true | None => false end.

(** Following [parent] from the entry [par] reaches the top level in at most
    [n] steps. *)
Fixpoint climbs (n : nat) (sm : StateMachine) (par : option string) : bool :=
  match truthy par with
  | None => true
  | Some p =>
      match n with
      | O => false
      | S n' =>
          match parent sm !! p with
          | Some par' => climbs n' sm par'
          | None => false
          end
      end
  end.

Definition state_ok (sm : StateMachine) (n : string) (st : State) : bool :=
  String.eqb (state_name st) n
  && is_some (parent sm !! n)
  && bool_decide (NoDup (state_children st))
  && forallb (λ c, bool_decide (parent_of sm c = Some n)) (state_children st).

Definition link_ok (sm : StateMachine) (c : string) (par : option string) : bool :=
  is_some (states sm !! c)
  && match truthy par with
     | Some p =>
         match states sm !! p with
         | Some pst => mem c (state_children pst)
         | None => false
         end
     | None => mem c (children sm)
     end
  && climbs (size (parent sm)) sm par.

Definition top_ok (sm : StateMachine) : bool :=
  bool_decide (NoDup (children sm))
  && forallb (λ c, is_some (parent sm !! c)
                   && bool_decide (parent_of sm c = None)) (children sm).

Definition valid (sm : StateMachine) : bool :=
  forallb (λ '(n, st), state_ok sm n st) (map_to_list (states sm))
  && forallb (λ '(c, par), link_ok sm c par) (map_to_list (parent sm))
  && top_ok sm.

(** [registered sm s]: [s] is a key of the state map. *)
Definition registered (sm : StateMachine) (s : string) : Prop :=
  is_Some (states sm !! s).

(** [ancestor sm a s]: [a] is reached from [s] by one or more parent steps. *)
Inductive ancestor (sm : StateMachine) : string → string → Prop :=
| ancestor_parent s p :
    parent_of sm s = Some p → ancestor sm p s
| ancestor_step s p a :
    parent_of sm s = Some p → ancestor sm a p → ancestor sm a s.

(** The children of a registered state, none for an unknown name. *)
Definition kids (sm : StateMachine) (s : string) : list string :=
  match states sm !! s with
  | Some st => state_children st
  | None => []
  end.

(** ** Notions used in the statements *)

(** [path sm par l]: walking up from the parent entry [par] passes through
    the names [l], nearest first, and ends at the top level. *)
Inductive path (sm : StateMachine) : option string → list string → Prop :=
| path_top par :
    truthy par = None → path sm par []
| path_up par p par' l :
    truthy par = Some p → parent sm !! p = Some par' →
    path sm par' l → path sm par (p :: l).

(** The depth of a registered state of a valid registry, as [depth_of]
    computes it when given fuel for the whole [parent] dictionary. *)
Definition depth (sm : StateMachine) (s : string) : nat :=
  match depth_of (size (parent sm)) sm (Some s) with
  | Ok d => d
  | _ => 0
  end.

(** The two state classes with [CompositeStateMixin]. *)
Definition composite (st : State) : bool :=
  match st with
  | CompoundState _ _ _ _ _ _ | OrthogonalState _ _ _ _ _ => true
  | _ => false
  end.

(** The order in which [descendants_for] lists states. *)
Definition by_depth (sm : StateMachine) (x y : string) : Prop :=
  depth sm x ≤ depth sm y.

(** The invariant of the loop of [descendants_for] started at [s0]: [done_]
    are the states already popped, [q] is [states_to_consider] and [acc] is
    [descendants]. *)
Record bfs_inv (sm : StateMachine) (s0 : string)
    (done_ q acc : list string) : Prop := {
  bfs_split : s0 :: acc = done_ ++ q;
  bfs_nodup : NoDup (s0 :: acc);
  bfs_below : ∀ x, x ∈ acc → ancestor sm s0 x;
  bfs_kids : acc = done_ ≫= kids sm;
  bfs_sorted : StronglySorted (by_depth sm) (s0 :: acc);
  bfs_front : ∀ x y, head q = Some x → y ∈ s0 :: acc →
                depth sm y ≤ S (depth sm x)
}.

(** The result of [leaf_for] in the words of its docstring: each state of
    [sts] that has no descendant, per [descendants_for], in [sts]. *)
Definition no_descendant_in (fuel : nat) (sm : StateMachine)
    (sts : list string) (s : string) : bool :=
  match descendants_for fuel sm s with
  | Ok ds => forallb (λ d, negb (mem d sts)) ds
  | _ => false
  end.

Definition leaves_of (fuel : nat) (sm : StateMachine) (sts : list string)
    : list string :=
  List.filter (no_descendant_in fuel sm sts) sts.

(** A registration in the order the builder is meant to follow: the state
    is a fresh object under a fresh name, and its parent is absent or an
    already registered composite state. *)
Definition well_ordered (sm : StateMachine) (st : State) (p : parent_arg) : Prop :=
  states sm !! state_name st = None ∧
  state_children st = [] ∧
  match parent_name p with
  | None => True
  | Some pn =>
      pn ≠ "" ∧ ∃ pst, states sm !! pn = Some pst ∧ composite pst = true
  end.

(** ** Example machines *)

Definition run_state (sm : StateMachine) (st : State) (p : parent_arg) : StateMachine :=
  fst (register_state sm st p).

Definition run_transition (sm : StateMachine) (t : Transition) : StateMachine :=
  fst (register_transition sm t).

(** Machine [M]: a top-level compound state [A] with the simple children
    [A1] and [A2], and a transition from [A1] to [A2] on event [go]. *)
Definition machine_M : StateMachine :=
  let m0 := StateMachine_init "M" "A" None in
  let m1 := run_state m0 (new_CompoundState "A" "A1" None None) PNone in
  let m2 := run_state m1 (new_BasicState "A1" None None) (PName "A") in
  let m3 := run_state m2 (new_BasicState "A2" None None) (PName "A") in
  run_transition m3
    (mkTransition "A1" (Some "A2") (Some (mkEvent "go" None)) None None).

(** Machine [W]: an orthogonal state [O] with the compound regions [R1] and
    [R2], each with two simple children, next to a final state [F]. *)
Definition machine_W : StateMachine :=
  let m0 := StateMachine_init "W" "O" None in
  let m1 := run_state m0 (new_OrthogonalState "O" None None) PNone in
  let m2 := run_state m1 (new_CompoundState "R1" "a" None None) (PName "O") in
  let m3 := run_state m2 (new_CompoundState "R2" "c" None None) (PName "O") in
  let m4 := run_state m3 (new_BasicState "a" None None) (PName "R1") in
  let m5 := run_state m4 (new_BasicState "b" None None) (PName "R1") in
  let m6 := run_state m5 (new_BasicState "c" None None) (PName "R2") in
  let m7 := run_state m6 (new_BasicState "d" None None) (PName "R2") in
  run_state m7 (new_FinalState "F" None None) PNone.

(** A transition whose source [Z] is registered in neither machine, and one
    leaving the final state [F] of [machine_W]. *)
Definition transition_Z : Transition :=
  mkTransition "Z" (Some "A2") None None None.

Definition transition_F : Transition :=
  mkTransition "F" (Some "O") None None None.

(** Machine [L]: the compound state [X] registered with itself as parent. *)
Definition machine_L : StateMachine :=
  run_state (StateMachine_init "L" "X" None)
    (new_CompoundState "X" "X" None None) (PName "X").

(** ** The queries as decorated: [functools.lru_cache]

    Each of the four decorated methods has a cache of its own, which
    belongs to the function, not to the registry: an association list from
    the argument (the machine object itself is the other part of the key)
    to the result, most recently used first, of at most [maxsize] entries.
    A hit returns the stored result without running the body; a miss runs
    the body, stores its result and drops the least recently used entry of
    a full cache; a call that raises stores nothing.  Neither
    [register_state] nor [register_transition] touches a cache. *)

Definition maxsize : nat := 128.

Record Caches : Type := mkCaches {
  cache_ancestors : list (string * list string);
  cache_descendants : list (string * list string);
  cache_depth : list (option string * nat);
  cache_lca : list (string * string * option string)
}.

Definition no_caches : Caches := mkCaches [] [] [] [].

Definition set_ancestors (l : list (string * list string)) (c : Caches) : Caches :=
  mkCaches l (cache_descendants c) (cache_depth c) (cache_lca c).
Definition set_descendants (l : list (string * list string)) (c : Caches) : Caches :=
  mkCaches (cache_ancestors c) l (cache_depth c) (cache_lca c).
Definition set_depth (l : list (option string * nat)) (c : Caches) : Caches :=
  mkCaches (cache_ancestors c) (cache_descendants c) l (cache_lca c).
Definition set_lca (l : list (string * string * option string)) (c : Caches) : Caches :=
  mkCaches (cache_ancestors c) (cache_descendants c) (cache_depth c) l.

Fixpoint lru_find {K V : Type} `{EqDecision K} (k : K) (l : list (K * V))
    : option V :=
  match l with
  | [] => None
  | (k', v) :: rest => if decide (k = k') then Some v else lru_find k rest
  end.

Fixpoint lru_remove {K V : Type} `{EqDecision K} (k : K) (l : list (K * V))
    : list (K * V) :=
  match l with
  | [] => []
  | (k', v) :: rest =>
      if decide (k = k') then lru_remove k rest else (k', v) :: lru_remove k rest
  end.

(** The wrapper that [lru_cache] puts around [body]; [get] and [set] select
    the cache of the decorated function. *)
Definition lru_cache {K V : Type} `{EqDecision K}
    (get : Caches → list (K * V)) (set : list (K * V) → Caches → Caches)
    (body : K → Caches → Caches * res V) (k : K) (c : Caches)
    : Caches * res V :=
  match lru_find k (get c) with
  | Some v => (set ((k, v) :: lru_remove k (get c)) c, Ok v)
  | None =>
      let '(c1, r) := body k c in
      match r with
      | Ok v => (set ((k, v) :: take (maxsize - 1) (get c1)) c1, Ok v)
      | _ => (c1, r)
      end
  end.

Definition cached_ancestors_for (fuel : nat) (sm : StateMachine)
    : string → Caches → Caches * res (list string) :=
  lru_cache cache_ancestors set_ancestors
    (λ s c, (c, ancestors_for fuel sm s)).

Definition cached_descendants_for (fuel : nat) (sm : StateMachine)
    : string → Caches → Caches * res (list string) :=
  lru_cache cache_descendants set_descendants
    (λ s c, (c, descendants_for fuel sm s)).

(** The body of [depth_of] calls [self.ancestors_for], the decorated one. *)
Definition cached_depth_of (fuel : nat) (sm : StateMachine)
    : option string → Caches → Caches * res nat :=
  lru_cache cache_depth set_depth
    (λ s c,
       match s with
       | None => (c, Ok 0)
       | Some s' =>
           let '(c1, r) := cached_ancestors_for fuel sm s' c in
           (c1, res_bind r (λ ancestors, Ok (length ancestors + 1)))
       end).

Definition cached_least_common_ancestor (fuel : nat) (sm : StateMachine)
    : string * string → Caches → Caches * res (option string) :=
  lru_cache cache_lca set_lca
    (λ '(s1, s2) c,
       let '(c1, r1) := cached_ancestors_for fuel sm s1 c in
       match r1 with
       | Ok s1_anc =>
           let '(c2, r2) := cached_ancestors_for fuel sm s2 c1 in
           (c2, res_bind r2 (λ s2_anc, Ok (first_in s1_anc s2_anc)))
       | Raise e => (c1, Raise e)
       | OutOfFuel => (c1, OutOfFuel)
       end).

(** [leaf_for] is not decorated; its loop calls [self.descendants_for], the
    decorated one, once for each state of the list, and an exception of
    that call ends it. *)
Fixpoint cached_leaf_loop (fuel : nat) (sm : StateMachine)
    (sts todo leaves : list string) (c : Caches) : Caches * res (list string) :=
  match todo with
  | [] => (c, Ok leaves)
  | s :: rest =>
      let '(c1, r) := cached_descendants_for fuel sm s c in
      match r with
      | Ok ds =>
          cached_leaf_loop fuel sm sts rest
            (if keep_scan sts ds then leaves ++ [s] else leaves) c1
      | Raise e => (c1, Raise e)
      | OutOfFuel => (c1, OutOfFuel)
      end
  end.

Definition cached_leaf_for (fuel : nat) (sm : StateMachine)
    (sts : list string) (c : Caches) : Caches * res (list string) :=
  cached_leaf_loop fuel sm sts sts [] c.

(** A program sees the machine object together with the caches of the four
    functions.  A registration works on the object and leaves the caches as
    they are; a query reads the object and goes through its cache. *)
Record World : Type := mkWorld {
  registry : StateMachine;
  caches : Caches
}.

Inductive registration : Type :=
| RegisterState (st : State) (p : parent_arg)
| RegisterTransition (t : Transition).

Definition register (w : World) (m : registration) : World * res unit :=
  match m with
  | RegisterState st p =>
      let '(sm', r) := register_state (registry w) st p in
      (mkWorld sm' (caches w), r)
  | RegisterTransition t =>
      let '(sm', r) := register_transition (registry w) t in
      (mkWorld sm' (caches w), r)
  end.

(** Several registrations in a row; one that raises leaves the object as
    it got it and the caller goes on. *)
Definition register_all (w : World) (ms : list registration) : World :=
  foldl (λ w m, fst (register w m)) w ms.

Definition query {K V : Type}
    (f : StateMachine → K → Caches → Caches * res V) (w : World) (k : K)
    : World * res V :=
  let '(c', r) := f (registry w) k (caches w) in
  (mkWorld (registry w) c', r).

(** Every cached result is what the body computes on [sm]. *)
Definition coherent (fuel : nat) (sm : StateMachine) (c : Caches) : Prop :=
  (∀ s v, (s, v) ∈ cache_ancestors c → ancestors_for fuel sm s = Ok v) ∧
  (∀ s v, (s, v) ∈ cache_descendants c → descendants_for fuel sm s = Ok v) ∧
  (∀ s v, (s, v) ∈ cache_depth c → depth_of fuel sm s = Ok v) ∧
  (∀ s1 s2 v, (s1, s2, v) ∈ cache_lca c →
     least_common_ancestor fuel sm s1 s2 = Ok v).

(** The docstring of [leaf_for], read with the decorated [descendants_for]
    called on the caches [c]: each state of [sts] that has no descendant in
    [sts]. *)
Definition cached_no_descendant_in (fuel : nat) (sm : StateMachine)
    (c : Caches) (sts : list string) (s : string) : bool :=
  match snd (cached_descendants_for fuel sm s c) with
  | Ok ds => forallb (λ d, negb (mem d sts)) ds
  | _ => false
  end.

Definition cached_leaves_of (fuel : nat) (sm : StateMachine) (c : Caches)
    (sts : list string) : list string :=
  List.filter (cached_no_descendant_in fuel sm c sts) sts.

(** The caches after three queries on [machine_W]. *)
Definition caches_W : Caches :=
  let c1 := fst (cached_descendants_for 9 machine_W "O" no_caches) in
  let c2 := fst (cached_depth_of 9 machine_W (Some "a") c1) in
  fst (cached_least_common_ancestor 9 machine_W ("a", "d") c2).

(** Machine [M] when only [A] has been registered, and the registration
    of [A1] that comes next. *)
Definition machine_A : StateMachine :=
  run_state (StateMachine_init "M" "A" None)
    (new_CompoundState "A" "A1" None None) PNone.

Definition machine_A1 : StateMachine :=
  run_state machine_A (new_BasicState "A1" None None) (PName "A").

(** ** The dictionary projection [to_dict]

    [to_dict] does not copy the children lists: [d['states'] = self.children]
    and [{'states': self.children}] put the registry's own list objects in
    the result, and the loop then assigns to their items.  The lists are
    therefore modelled as cells of a store, addressed by their owner: the
    machine ([TopList]) or a composite state ([ChildrenOf]).  An item is a
    name until the loop replaces it by a dictionary. *)

Inductive ref : Type :=
| TopList
| ChildrenOf (owner : string).

Inductive value : Type :=
| VStr (s : string)
| VTrue
| VDict (d : list (string * value))
| VList (l : list value)
| VRef (r : ref).

Record Store : Type := mkStore {
  top : list value;
  owned : gmap string (list value)
}.

(** The store of a registry on which [to_dict] has not run. *)
Definition store_of (sm : StateMachine) : Store :=
  mkStore (VStr <$> children sm)
    (omap (λ st, if composite st then Some (VStr <$> state_children st) else None)
       (states sm)).

Definition deref (h : Store) (r : ref) : list value :=
  match r with
  | TopList => top h
  | ChildrenOf n => default [] (owned h !! n)
  end.

(** [statelist[i] = v] *)
Definition assign (h : Store) (r : ref) (i : nat) (v : value) : Store :=
  match r with
  | TopList => mkStore (<[i := v]> (top h)) (owned h)
  | ChildrenOf n => mkStore (top h) (alter (λ l, <[i := v]> l) n (owned h))
  end.

(** [if x: d[key] = x] *)
Definition opt_entry (key : string) (o : option string) : list (string * value) :=
  match truthy o with
  | Some s => [(key, VStr s)]
  | None => []
  end.

Definition Event_to_dict (e : Event) : value :=
  VDict [("name", VStr (event_name e))].

Definition Transition_to_dict (t : Transition) : value :=
  VDict (match to_state t with Some s => [("target", VStr s)] | None => [] end
         ++ match event t with Some e => [("event", Event_to_dict e)] | None => [] end
         ++ opt_entry "condition" (condition t)
         ++ opt_entry "action" (action t)).

Definition ActionStateMixin_to_dict (on_entry on_exit : option string)
    : list (string * value) :=
  opt_entry "on_entry" on_entry ++ opt_entry "on_exit" on_exit.

Definition TransitionStateMixin_to_dict (trs : list Transition)
    : list (string * value) :=
  match trs with
  | [] => []
  | _ => [("transitions", VList (Transition_to_dict <$> trs))]
  end.

(** [State.to_dict] of the state stored under [owner]; a composite state
    gives out its own children list. *)
Definition State_to_dict (owner : string) (st : State) : list (string * value) :=
  match st with
  | BasicState n en ex trs =>
      [("name", VStr n)]
      ++ ActionStateMixin_to_dict en ex ++ TransitionStateMixin_to_dict trs
  | CompoundState n i en ex trs _ =>
      [("name", VStr n); ("initial", VStr i)]
      ++ ActionStateMixin_to_dict en ex ++ TransitionStateMixin_to_dict trs
      ++ [("states", VRef (ChildrenOf owner))]
  | OrthogonalState n en ex trs _ =>
      [("name", VStr n); ("orthogonal", VTrue)]
      ++ ActionStateMixin_to_dict en ex ++ TransitionStateMixin_to_dict trs
      ++ [("states", VRef (ChildrenOf owner))]
  | HistoryState n i deep _ =>
      [("name", VStr n); ("type", VStr "history")]
      ++ opt_entry "initial" i ++ (if deep then [("deep", VTrue)] else [])
  | FinalState n en ex =>
      [("name", VStr n); ("type", VStr "final")]
      ++ ActionStateMixin_to_dict en ex
  end.

Fixpoint dict_get (key : string) (d : list (string * value)) : option value :=
  match d with
  | [] => None
  | (k, v) :: rest => if String.eqb key k then Some v else dict_get key rest
  end.

(** [for i, state in enumerate(statelist)], from index [i] on, with [n] the
    number of items left; [stack] is [statelist_to_expand], its head the
    item that [pop()] takes. *)
Fixpoint expand (n : nat) (sm : StateMachine) (r : ref) (i : nat)
    (h : Store) (stack : list ref) : Store * list ref * res unit :=
  match n with
  | O => (h, stack, Ok tt)
  | S n' =>
      match deref h r !! i with
      | None => (h, stack, Ok tt)
      | Some (VStr s) =>
          match states sm !! s with
          | Some st =>
              let d := State_to_dict s st in
              let h1 := assign h r i (VDict d) in
              let stack1 :=
                match dict_get "states" d with
                | Some (VRef r') =>
                    if 0 <? length (deref h1 r') then r' :: stack else stack
                | _ => stack
                end in
              expand n' sm r (S i) h1 stack1
          | None => (h, stack, Raise KeyError)
          end
      | Some VTrue => (h, stack, Raise KeyError)
      | Some _ => (h, stack, Raise TypeError)
      end
  end.

Fixpoint to_dict_loop (fuel : nat) (sm : StateMachine) (stack : list ref)
    (h : Store) : Store * res unit :=
  match stack with
  | [] => (h, Ok tt)
  | r :: stack' =>
      match fuel with
      | O => (h, OutOfFuel)
      | S fuel' =>
          let '(h1, stack1, out) := expand (length (deref h r)) sm r 0 h stack' in
          match out with
          | Ok _ => to_dict_loop fuel' sm stack1 h1
          | Raise e => (h1, Raise e)
          | OutOfFuel => (h1, OutOfFuel)
          end
      end
  end.

(** [StateMachine.to_dict], run on the store [h]; it returns the store it
    leaves behind together with the dictionary. *)
Definition to_dict (fuel : nat) (sm : StateMachine) (h : Store)
    : Store * res value :=
  let d := [("name", VStr (name sm)); ("initial", VStr (initial sm));
            ("states", VRef TopList)]
           ++ opt_entry "execute" (execute sm) in
  let '(h', out) := to_dict_loop fuel sm [TopList] h in
  (h', res_bind out (λ _, Ok (VDict [("statemachine", VDict d)]))).

(** ** Equality and hashing of events and states *)

(** What [__eq__] may be handed as [other]. *)
Inductive pyobj : Type :=
| ObjEvent (e : Event)
| ObjState (st : State)
| ObjOther.

(** [Event.__eq__]: [isinstance(other, Event) and self.name == other.name] *)
Definition Event__eq__ (self : Event) (other : pyobj) : bool :=
  match other with
  | ObjEvent e => String.eqb (event_name self) (event_name e)
  | _ => false
  end.

(** [State.__eq__], inherited by the five classes:
    [isinstance(other, State) and self.name == other.name] *)
Definition State__eq__ (self : State) (other : pyobj) : bool :=
  match other with
  | ObjState st => String.eqb (state_name self) (state_name st)
  | _ => false
  end.

(** [__hash__] is [hash(self.name)]; [hash_str] stands for Python's hash of
    a string. *)
Definition Event__hash__ (hash_str : string → Z) (self : Event) : Z :=
  hash_str (event_name self).

Definition State__hash__ (hash_str : string → Z) (self : State) : Z :=
  hash_str (state_name self).

(** ** What [to_dict] leaves in the store *)

(** The dictionary that replaces the name [c] in a children list. *)
Definition dict_of (sm : StateMachine) (c : string) : value :=
  match states sm !! c with
  | Some st => VDict (State_to_dict c st)
  | None => VStr c
  end.

(** The store in which every name of every children list has been replaced
    by the dictionary of the state. *)
Definition projected (sm : StateMachine) : Store :=
  mkStore (dict_of sm <$> children sm)
    (omap (λ st, if composite st then Some (dict_of sm <$> state_children st)
                 else None)
       (states sm)).

#[global] Instance ref_eq_dec : EqDecision ref.
Proof. solve_decision. Defined.

(** The names that the list [r] holds, and the list that holds [n]. *)
Definition names (sm : StateMachine) (r : ref) : list string :=
  match r with
  | TopList => children sm
  | ChildrenOf n => kids sm n
  end.

Definition container (sm : StateMachine) (n : string) : ref :=
  match parent_of sm n with
  | Some p => ChildrenOf p
  | None => TopList
  end.

(** The store when the loop of [to_dict] has gone through the lists [P]. *)
Definition store_at (sm : StateMachine) (P : list ref) : Store :=
  mkStore
    (if bool_decide (TopList ∈ P) then dict_of sm <$> children sm
     else VStr <$> children sm)
    (map_imap
       (λ n st,
          if composite st
          then Some (if bool_decide (ChildrenOf n ∈ P)
                     then dict_of sm <$> state_children st
                     else VStr <$> state_children st)
          else None)
       (states sm)).

Definition set_list (h : Store) (r : ref) (l : list value) : Store :=
  match r with
  | TopList => mkStore l (owned h)
  | ChildrenOf n => mkStore (top h) (<[n := l]> (owned h))
  end.

(** The owner of a list, none for the top-level one. *)
Definition ref_name (r : ref) : option string :=
  match r with
  | TopList => None
  | ChildrenOf n => Some n
  end.

(** The lists that a pass over the names [l] appends to
    [statelist_to_expand]. *)
Definition pushes (sm : StateMachine) (l : list string) : list ref :=
  l ≫= (λ c, if decide (kids sm c = []) then [] else [ChildrenOf c]).

(** The invariant of the loop of [to_dict]: [P] are the lists gone through,
    [stack] is [statelist_to_expand]. *)
Record to_dict_inv (sm : StateMachine) (P stack : list ref) : Prop := {
  td_nodup : NoDup (P ++ stack);
  td_top : TopList ∈ P ++ stack;
  td_refs : ∀ n, ChildrenOf n ∈ P ++ stack ↔
                 registered sm n ∧ kids sm n ≠ [] ∧ container sm n ∈ P
}.

(** ** Classes and owned transitions *)

Inductive state_class : Type :=
| ClsBasic | ClsCompound | ClsOrthogonal | ClsHistory | ClsFinal.

Definition class_of (st : State) : state_class :=
  match st with
  | BasicState _ _ _ _ => ClsBasic
  | CompoundState _ _ _ _ _ _ => ClsCompound
  | OrthogonalState _ _ _ _ _ => ClsOrthogonal
  | HistoryState _ _ _ _ => ClsHistory
  | FinalState _ _ _ => ClsFinal
  end.

(** Every transition in the list of a state is in the list of the machine
    and names that state as its source. *)
Definition owned_registered (sm : StateMachine) : Prop :=
  ∀ n st t, states sm !! n = Some st → t ∈ state_transitions st →
            t ∈ transitions sm ∧ from_state t = n.

(** ** Building a registry *)

(** Every [register_state] of the sequence [ms] is well ordered at the
    moment it is made. *)
Fixpoint well_ordered_all (sm : StateMachine) (ms : list registration) : Prop :=
  match ms with
  | [] => True
  | RegisterState st p :: rest =>
      well_ordered sm st p ∧ well_ordered_all (fst (register_state sm st p)) rest
  | RegisterTransition t :: rest =>
      well_ordered_all (fst (register_transition sm t)) rest
  end.

(** The registrations that build [machine_W]. *)
Definition build_W : list registration :=
  [RegisterState (new_OrthogonalState "O" None None) PNone;
   RegisterState (new_CompoundState "R1" "a" None None) (PName "O");
   RegisterState (new_CompoundState "R2" "c" None None) (PName "O");
   RegisterState (new_BasicState "a" None None) (PName "R1");
   RegisterState (new_BasicState "b" None None) (PName "R1");
   RegisterState (new_BasicState "c" None None) (PName "R2");
   RegisterState (new_BasicState "d" None None) (PName "R2");
   RegisterTransition transition_Z;
   RegisterState (new_FinalState "F" None None) PNone].

(** * Properties *)

(** ** Construction *)

(** C6. [Transition.__init__] raises when both the target and the event are
    absent (the [ValueError] that the specification names
    InvalidTransitionError), and in every other case succeeds and stores its
    five arguments unchanged: nothing else is checked. *)
Theorem Transition_init_checks_target_or_event
    (from : string) (to : option string) (ev : option Event)
    (cond act : option string) :
  Transition_init from None None cond act = Raise ValueError ∧
  (∀ t, Transition_init from (Some t) ev cond act
        = Ok (mkTransition from (Some t) ev cond act)) ∧
  (∀ e, Transition_init from to (Some e) cond act
        = Ok (mkTransition from to (Some e) cond act)) ∧
  (∀ tr, Transition_init from to ev cond act = Ok tr →
         (is_Some to ∨ is_Some ev) ∧
         from_state tr = from ∧ to_state tr = to ∧ event tr = ev ∧
         condition tr = cond ∧ action tr = act) ∧
  (∀ e, Transition_init from to ev cond act = Raise e →
        e = ValueError ∧ to = None ∧ ev = None).
Proof.
  split_and!.
  - done.
  - done.
  - intros e. by destruct to.
  - intros tr. destruct to, ev; simpl; intros [= <-]; simpl; eauto 10.
  - intros e. destruct to, ev; simpl; intros [= <-]; done.
Qed.

(** C7, counterexample.  Registering [transition_Z], whose source is not
    registered, fails and yet leaves the machine with one more transition;
    registering [transition_F], whose source is the registered final state
    [F], fails as well: a final state has no transition list. *)
Lemma register_transition_not_atomic :
  states machine_M !! "Z" = None ∧
  snd (register_transition machine_M transition_Z) = Raise KeyError ∧
  transitions (fst (register_transition machine_M transition_Z))
    = transitions machine_M ++ [transition_Z] ∧
  fst (register_transition machine_M transition_Z) ≠ machine_M ∧
  is_Some (states machine_W !! "F") ∧
  snd (register_transition machine_W transition_F) = Raise AttributeError.
Proof.
  split_and!.
  - vm_compute; reflexivity.
  - vm_compute; reflexivity.
  - vm_compute; reflexivity.
  - intros H. apply (f_equal transitions) in H. vm_compute in H. discriminate.
  - vm_compute; eexists; reflexivity.
  - vm_compute; reflexivity.
Qed.

(** C7, as the code has it.  [register_transition] fails with [KeyError]
    when the source is not registered and with [AttributeError] when it is
    a history or final state; on a failure the state map, the parent map and
    the children are untouched.  When the source is a registered basic,
    compound or orthogonal state the call succeeds, the transition is
    appended to the machine's list and to the source state's own list, and
    nothing else changes. *)
Theorem register_transition_outcomes sm t :
  let sm' := fst (register_transition sm t) in
  let r := snd (register_transition sm t) in
  name sm' = name sm ∧ initial sm' = initial sm ∧ execute sm' = execute sm ∧
  parent sm' = parent sm ∧ children sm' = children sm ∧
  (states sm !! from_state t = None → r = Raise KeyError) ∧
  (r ≠ Ok tt → states sm' = states sm) ∧
  (∀ st, states sm !! from_state t = Some st →
     match add_transition st t with
     | Ok st' =>
         r = Ok tt ∧
         transitions sm' = transitions sm ++ [t] ∧
         states sm' = <[from_state t := st']> (states sm) ∧
         state_transitions st' = state_transitions st ++ [t] ∧
         state_name st' = state_name st ∧
         state_children st' = state_children st
     | _ => r = Raise AttributeError
     end) ∧
  (∀ st, states sm !! from_state t = Some st →
     (∃ st', add_transition st t = Ok st') ↔
     match st with HistoryState _ _ _ _ | FinalState _ _ _ => False | _ => True end).
Proof.
  unfold register_transition.
  destruct (states sm !! from_state t) as [st|] eqn:Hst.
  - destruct st; simpl; split_and!; try done;
      try (intros st' [= <-]; simpl; done);
      try (intros st' [= <-]; simpl; split; [done|by eauto]);
      try (intros st' [= <-]; simpl; split; [by intros [? ?]|done]).
  - simpl. split_and!; done.
Qed.

(** C8, counterexample.  [A] is registered in [machine_M] as a compound
    state; registering a basic state of the same name succeeds, puts the new
    state in its place and lists [A] a second time at the top level. *)
Lemma register_state_duplicate_accepted :
  states machine_M !! "A"
    = Some (CompoundState "A" "A1" None None [] ["A1"; "A2"]) ∧
  snd (register_state machine_M (new_BasicState "A" None None) PNone) = Ok tt ∧
  states (fst (register_state machine_M (new_BasicState "A" None None) PNone)) !! "A"
    = Some (BasicState "A" None None []) ∧
  children (fst (register_state machine_M (new_BasicState "A" None None) PNone))
    = ["A"; "A"].
Proof. split_and!; vm_compute; reflexivity. Qed.

Lemma add_child_outcome pst c :
  match add_child pst c with
  | Ok pst' => composite pst = true ∧ state_name pst' = state_name pst
               ∧ state_children pst' = state_children pst ++ [c]
  | Raise e => composite pst = false ∧ e = AttributeError
  | OutOfFuel => False
  end.
Proof. destruct pst; simpl; done. Qed.

Lemma add_transition_outcome st t :
  match add_transition st t with
  | Ok st' => state_name st' = state_name st
              ∧ state_children st' = state_children st
              ∧ state_transitions st' = state_transitions st ++ [t]
  | Raise e => e = AttributeError
  | OutOfFuel => False
  end.
Proof. destruct st; simpl; done. Qed.

(** C8, as the code has it.  [register_state] has no duplicate check: when
    the name is already a key the call goes on as for a new name.  It fails
    only if the named parent is a registered state without a children list
    ([AttributeError] from [add_child]); the state map keeps its keys, the
    entry of the name is replaced by the new state (with the name appended
    to its children when the state is given as its own parent), and the
    parent entry is overwritten. *)
Theorem register_state_overwrites sm st p :
  is_Some (states sm !! state_name st) →
  let sm' := fst (register_state sm st p) in
  let r := snd (register_state sm st p) in
  (r = Ok tt ∨
   r = Raise AttributeError ∧
   ∃ pn pst, parent_name p = Some pn ∧
             <[state_name st := st]> (states sm) !! pn = Some pst ∧
             composite pst = false) ∧
  dom (states sm') = dom (states sm) ∧
  parent sm' = <[state_name st := parent_name p]> (parent sm) ∧
  (parent_name p ≠ Some (state_name st) →
     states sm' !! state_name st = Some st) ∧
  (parent_name p = Some (state_name st) →
     states sm' !! state_name st
     = Some (match add_child st (state_name st) with Ok st' => st' | _ => st end)).
Proof.
  intros Hreg. unfold register_state.
  assert (dom (<[state_name st := st]> (states sm)) = dom (states sm)) as Hdom.
  { rewrite dom_insert_L. apply subseteq_union_1_L, singleton_subseteq_l.
    by apply elem_of_dom. }
  destruct (parent_name p) as [pn|] eqn:Hp.
  - destruct (<[state_name st := st]> (states sm) !! pn) as [pst|] eqn:Hpst.
    + pose proof (add_child_outcome pst (state_name st)) as Hadd.
      destruct (add_child pst (state_name st)) as [pst'|e|] eqn:Ha; [| |done].
      * simpl. split_and!.
        -- by left.
        -- rewrite dom_insert_L, Hdom.
           apply subseteq_union_1_L, singleton_subseteq_l.
           rewrite <- Hdom. apply elem_of_dom. eauto.
        -- done.
        -- intros Hne. rewrite lookup_insert_ne; [|congruence].
           by rewrite lookup_insert_eq.
        -- intros [= ->]. rewrite lookup_insert_eq in Hpst.
           injection Hpst as <-. by rewrite lookup_insert_eq, Ha.
      * destruct Hadd as [Hc ->]. simpl. split_and!.
        -- right. split; [done|]. by exists pn, pst.
        -- done.
        -- done.
        -- intros _. by rewrite lookup_insert_eq.
        -- intros [= ->]. rewrite lookup_insert_eq in Hpst.
           injection Hpst as <-. by rewrite lookup_insert_eq, Ha.
    + simpl. split_and!.
      * by left.
      * done.
      * done.
      * intros _. by rewrite lookup_insert_eq.
      * intros [= ->]. by rewrite lookup_insert_eq in Hpst.
  - simpl. split_and!; [by left|done|done| |done].
    intros _. by rewrite lookup_insert_eq.
Qed.

Lemma register_state_overwrites_witness :
  let st := new_BasicState "A" None None in
  let sm' := fst (register_state machine_M st PNone) in
  let r := snd (register_state machine_M st PNone) in
  (r = Ok tt ∨
   r = Raise AttributeError ∧
   ∃ pn pst, parent_name PNone = Some pn ∧
             <[state_name st := st]> (states machine_M) !! pn = Some pst ∧
             composite pst = false) ∧
  dom (states sm') = dom (states machine_M) ∧
  parent sm' = <[state_name st := parent_name PNone]> (parent machine_M) ∧
  (parent_name PNone ≠ Some (state_name st) →
     states sm' !! state_name st = Some st) ∧
  (parent_name PNone = Some (state_name st) →
     states sm' !! state_name st
     = Some (match add_child st (state_name st) with Ok st' => st' | _ => st end)).
Proof.
  apply (register_state_overwrites machine_M (new_BasicState "A" None None) PNone).
  vm_compute; eexists; reflexivity.
Defined.

(** ** Parent paths *)

Lemma truthy_Some par p : truthy par = Some p → par = Some p ∧ p ≠ "".
Proof. destruct par as [[|a s]|]; simpl; intros [=]; subst; done. Qed.

Lemma truthy_Some_ne p : p ≠ "" → truthy (Some p) = Some p.
Proof. destruct p; done. Qed.

Lemma path_functional sm par l1 l2 :
  path sm par l1 → path sm par l2 → l1 = l2.
Proof.
  intros H1. revert l2.
  induction H1 as [par Ht|par p par' l Ht Hp _ IH]; intros l2 H2.
  - inversion H2; subst; [done|congruence].
  - inversion H2 as [|? q par'' l' Ht' Hp' Hl']; subst; [congruence|].
    assert (q = p) by congruence; subst q.
    assert (par'' = par') by congruence; subst par''.
    f_equal. by apply IH.
Qed.

(** Every name on a path starts the rest of the path. *)
Lemma path_split sm par l1 x l2 :
  path sm par (l1 ++ x :: l2) →
  ∃ par', parent sm !! x = Some par' ∧ path sm par' l2.
Proof.
  revert par. induction l1 as [|y l1 IH]; simpl; intros par H.
  - inversion H; subst; eauto.
  - inversion H; subst; eauto.
Qed.

Lemma path_NoDup sm par l : path sm par l → NoDup l.
Proof.
  induction 1 as [|par p par' l Ht Hp Hl IH]; [constructor|].
  constructor; [|done].
  intros Hin. apply list_elem_of_split in Hin as (l1 & l2 & ->).
  destruct (path_split _ _ _ _ _ Hl) as (par'' & Hp' & Hl2).
  assert (par'' = par') by congruence; subst par''.
  pose proof (path_functional _ _ _ _ Hl Hl2) as Heq.
  apply (f_equal length) in Heq. rewrite length_app in Heq. simpl in Heq. lia.
Qed.

Lemma path_nonempty sm par l x : path sm par l → x ∈ l → x ≠ "".
Proof.
  induction 1 as [|par p par' l Ht Hp Hl IH]; intros Hin.
  - by apply elem_of_nil in Hin.
  - apply elem_of_cons in Hin as [->|Hin]; [|by apply IH].
    by apply truthy_Some in Ht as [_ ?].
Qed.

(** The loops against [path]. *)

Lemma ancestors_loop_path fuel sm par acc l :
  ancestors_loop fuel sm par acc = Ok l ↔
  ∃ l', l = acc ++ l' ∧ path sm par l' ∧ length l' ≤ fuel.
Proof.
  revert par acc l. induction fuel as [|fuel IH]; intros par acc l; simpl.
  - destruct (truthy par) as [p|] eqn:Ht.
    + split; [done|]. intros (l' & -> & Hl & Hlen).
      inversion Hl; subst; [congruence|simpl in Hlen; lia].
    + split.
      * intros [= <-]. exists []. rewrite app_nil_r. split_and!; [done| |simpl; lia].
        by constructor.
      * intros (l' & -> & Hl & _). inversion Hl; subst; [|congruence].
        by rewrite app_nil_r.
  - destruct (truthy par) as [p|] eqn:Ht.
    + destruct (parent sm !! p) as [par'|] eqn:Hp.
      * rewrite IH. split.
        -- intros (l' & -> & Hl & Hlen). exists (p :: l').
           rewrite <- app_assoc. split_and!; [done| |simpl; lia].
           by econstructor.
        -- intros (l' & -> & Hl & Hlen).
           inversion Hl as [|? q par'' l'' Ht' Hp' Hl']; subst; [congruence|].
           assert (q = p) by congruence; subst q.
           assert (par'' = par') by congruence; subst par''.
           exists l''. rewrite <- app_assoc. split_and!; [done|done|simpl in Hlen; lia].
      * split; [done|]. intros (l' & -> & Hl & _).
        inversion Hl; subst; congruence.
    + split.
      * intros [= <-]. exists []. rewrite app_nil_r. split_and!; [done| |simpl; lia].
        by constructor.
      * intros (l' & -> & Hl & _). inversion Hl; subst; [|congruence].
        by rewrite app_nil_r.
Qed.

Lemma ancestors_for_path fuel sm s l :
  ancestors_for fuel sm s = Ok l ↔
  ∃ par, parent sm !! s = Some par ∧ path sm par l ∧ length l ≤ fuel.
Proof.
  unfold ancestors_for. destruct (parent sm !! s) as [par|] eqn:Hs.
  - rewrite ancestors_loop_path. split.
    + intros (l' & -> & Hl & Hlen). eauto.
    + intros (par' & [= <-] & Hl & Hlen). eauto.
  - split; [done|]. by intros (? & ? & _).
Qed.

Lemma climbs_path n sm par :
  climbs n sm par = true ↔ ∃ l, path sm par l ∧ length l ≤ n.
Proof.
  revert par. induction n as [|n IH]; intros par; simpl.
  - destruct (truthy par) as [p|] eqn:Ht.
    + split; [done|]. intros (l & Hl & Hlen).
      inversion Hl; subst; [congruence|simpl in Hlen; lia].
    + split; [|done]. intros _. exists []. split; [by constructor|simpl; lia].
  - destruct (truthy par) as [p|] eqn:Ht.
    + destruct (parent sm !! p) as [par'|] eqn:Hp.
      * rewrite IH. split.
        -- intros (l & Hl & Hlen). exists (p :: l). split; [by econstructor|simpl; lia].
        -- intros (l & Hl & Hlen).
           inversion Hl as [|? q par'' l'' Ht' Hp' Hl']; subst; [congruence|].
           assert (q = p) by congruence; subst q.
           assert (par'' = par') by congruence; subst par''.
           exists l''. split; [done|simpl in Hlen; lia].
      * split; [done|]. intros (l & Hl & _). inversion Hl; subst; congruence.
    + split; [|done]. intros _. exists []. split; [by constructor|simpl; lia].
Qed.

Lemma path_ancestor sm s par l a :
  parent sm !! s = Some par → path sm par l → (a ∈ l ↔ ancestor sm a s).
Proof.
  intros Hs Hl. split.
  - revert s Hs. induction Hl as [|par p par' l Ht Hp Hl IH]; intros s Hs Hin.
    + by apply elem_of_nil in Hin.
    + assert (parent_of sm s = Some p) as Hps.
      { unfold parent_of. by rewrite Hs. }
      apply elem_of_cons in Hin as [->|Hin].
      * by apply ancestor_parent.
      * eapply ancestor_step; [done|]. by eapply IH.
  - intros Ha. revert par l Hs Hl.
    induction Ha as [s p Hps|s p a Hps Ha IH]; intros par l Hs Hl.
    + unfold parent_of in Hps. rewrite Hs in Hps. simpl in Hps.
      inversion Hl as [|? q par' l' Ht Hq Hl']; subst; [congruence|].
      assert (q = p) by congruence; subst q. apply elem_of_cons; by left.
    + unfold parent_of in Hps. rewrite Hs in Hps. simpl in Hps.
      inversion Hl as [|? q par' l' Ht Hq Hl']; subst; [congruence|].
      assert (q = p) by congruence; subst q.
      apply elem_of_cons; right. by eapply IH.
Qed.

Lemma depth_of_path fuel sm s d :
  depth_of fuel sm (Some s) = Ok d ↔
  ∃ par l, parent sm !! s = Some par ∧ path sm par l ∧ length l ≤ fuel
           ∧ d = length l + 1.
Proof.
  simpl. split.
  - destruct (ancestors_for fuel sm s) as [l| |] eqn:Ha; simpl; [|done..].
    intros [= <-]. apply ancestors_for_path in Ha as (par & ? & ? & ?).
    by exists par, l.
  - intros (par & l & Hs & Hl & Hlen & ->).
    assert (ancestors_for fuel sm s = Ok l) as ->; [|done].
    apply ancestors_for_path. eauto.
Qed.

(** ** What validity gives *)

Lemma valid_state_ok sm n st :
  valid sm = true → states sm !! n = Some st → state_ok sm n st = true.
Proof.
  unfold valid. rewrite !andb_true_iff. intros [[H _] _] Hn.
  rewrite forallb_forall in H. apply (H (n, st)).
  apply list_elem_of_In. by apply elem_of_map_to_list.
Qed.

Lemma valid_link_ok sm c par :
  valid sm = true → parent sm !! c = Some par → link_ok sm c par = true.
Proof.
  unfold valid. rewrite !andb_true_iff. intros [[_ H] _] Hc.
  rewrite forallb_forall in H. apply (H (c, par)).
  apply list_elem_of_In. by apply elem_of_map_to_list.
Qed.

Lemma is_some_true {A : Type} (o : option A) : is_some o = true ↔ is_Some o.
Proof. destruct o; simpl; split; (done || eauto || by intros [? ?]). Qed.

Lemma mem_true x l : mem x l = true ↔ x ∈ l.
Proof. unfold mem. apply bool_decide_eq_true. Qed.

Lemma mem_false x l : mem x l = false ↔ x ∉ l.
Proof. unfold mem. apply bool_decide_eq_false. Qed.

Lemma valid_registered sm s :
  valid sm = true → (registered sm s ↔ is_Some (parent sm !! s)).
Proof.
  intros Hv. split.
  - intros [st Hst]. pose proof (valid_state_ok _ _ _ Hv Hst) as H.
    unfold state_ok in H. rewrite !andb_true_iff in H.
    destruct H as [[[_ H] _] _]. by apply is_some_true.
  - intros [par Hpar]. pose proof (valid_link_ok _ _ _ Hv Hpar) as H.
    unfold link_ok in H. rewrite !andb_true_iff in H.
    destruct H as [[H _] _]. by apply is_some_true.
Qed.

Lemma valid_kids_NoDup sm p : valid sm = true → NoDup (kids sm p).
Proof.
  intros Hv. unfold kids. destruct (states sm !! p) as [st|] eqn:Hst; [|constructor].
  pose proof (valid_state_ok _ _ _ Hv Hst) as H.
  unfold state_ok in H. rewrite !andb_true_iff in H.
  destruct H as [[_ H] _]. by apply bool_decide_eq_true in H.
Qed.

Lemma valid_kids_parent sm p c :
  valid sm = true → c ∈ kids sm p → parent_of sm c = Some p.
Proof.
  intros Hv. unfold kids. destruct (states sm !! p) as [st|] eqn:Hst.
  - intros Hc. pose proof (valid_state_ok _ _ _ Hv Hst) as H.
    unfold state_ok in H. rewrite !andb_true_iff in H.
    destruct H as [_ H]. rewrite forallb_forall in H.
    apply list_elem_of_In in Hc. apply H in Hc.
    by apply bool_decide_eq_true in Hc.
  - intros Hc. by apply elem_of_nil in Hc.
Qed.

Lemma valid_parent_kids sm c p :
  valid sm = true → parent_of sm c = Some p → c ∈ kids sm p.
Proof.
  intros Hv Hp. unfold parent_of in Hp.
  destruct (parent sm !! c) as [par|] eqn:Hc; [|done]. simpl in Hp.
  pose proof (valid_link_ok _ _ _ Hv Hc) as H.
  unfold link_ok in H. rewrite !andb_true_iff in H.
  destruct H as [[_ H] _]. rewrite Hp in H. unfold kids.
  destruct (states sm !! p); [|done]. by apply mem_true.
Qed.

Lemma valid_path sm s par :
  valid sm = true → parent sm !! s = Some par →
  ∃ l, path sm par l ∧ length l ≤ size (parent sm).
Proof.
  intros Hv Hs. pose proof (valid_link_ok _ _ _ Hv Hs) as H.
  unfold link_ok in H. rewrite !andb_true_iff in H.
  destruct H as [_ H]. by apply climbs_path.
Qed.

Lemma valid_kids_registered sm p c :
  valid sm = true → c ∈ kids sm p → registered sm c.
Proof.
  intros Hv Hc. apply valid_registered; [done|].
  apply (valid_kids_parent _ _ _ Hv) in Hc. unfold parent_of in Hc.
  destruct (parent sm !! c); [eauto|done].
Qed.

Lemma valid_ancestors_for sm s fuel :
  valid sm = true → registered sm s → size (parent sm) ≤ fuel →
  ∃ par l, parent sm !! s = Some par ∧ path sm par l
           ∧ ancestors_for fuel sm s = Ok l.
Proof.
  intros Hv Hs Hfuel. apply (valid_registered _ _ Hv) in Hs as [par Hpar].
  destruct (valid_path _ _ _ Hv Hpar) as (l & Hl & Hlen).
  exists par, l. split_and!; [done..|].
  apply ancestors_for_path. exists par. split_and!; [done..|lia].
Qed.

(** A valid registry has no cycle. *)
Lemma valid_acyclic sm s : valid sm = true → ¬ ancestor sm s s.
Proof.
  intros Hv Ha.
  assert (is_Some (parent sm !! s)) as [par Hs].
  { inversion Ha as [? ? Hp|? ? ? Hp _]; subst; unfold parent_of in Hp;
      destruct (parent sm !! s); eauto; done. }
  destruct (valid_path _ _ _ Hv Hs) as (l & Hl & _).
  apply (path_ancestor _ _ _ _ s Hs Hl) in Ha.
  apply list_elem_of_split in Ha as (l1 & l2 & ->).
  destruct (path_split _ _ _ _ _ Hl) as (par' & Hs' & Hl2).
  assert (par' = par) by congruence; subst par'.
  pose proof (path_functional _ _ _ _ Hl Hl2) as Heq.
  apply (f_equal length) in Heq. rewrite length_app in Heq. simpl in Heq. lia.
Qed.

(** ** Registries the builder produces are valid *)

Lemma valid_iff sm :
  valid sm = true ↔
  (∀ n st, states sm !! n = Some st → state_ok sm n st = true) ∧
  (∀ c par, parent sm !! c = Some par → link_ok sm c par = true) ∧
  top_ok sm = true.
Proof.
  unfold valid. rewrite !andb_true_iff, !forallb_forall. split.
  - intros [[Hs Hl] Ht]. split_and!; [| |done].
    + intros n st Hn. apply (Hs (n, st)).
      apply list_elem_of_In. by apply elem_of_map_to_list.
    + intros c par Hc. apply (Hl (c, par)).
      apply list_elem_of_In. by apply elem_of_map_to_list.
  - intros (Hs & Hl & Ht). split_and!; [| |done].
    + intros [n st] Hin. apply Hs.
      apply list_elem_of_In in Hin. by apply elem_of_map_to_list.
    + intros [c par] Hin. apply Hl.
      apply list_elem_of_In in Hin. by apply elem_of_map_to_list.
Qed.

Lemma valid_init n init exec : valid (StateMachine_init n init exec) = true.
Proof.
  apply valid_iff. split_and!; [| |done].
  - intros k st Hk. simpl in Hk. by rewrite lookup_empty in Hk.
  - intros c par Hc. simpl in Hc. by rewrite lookup_empty in Hc.
Qed.

(** A parent path does not see an entry added under a fresh name. *)
Lemma path_fresh sm sm' n pp par l :
  parent sm !! n = None → parent sm' = <[n := pp]> (parent sm) →
  path sm par l → path sm' par l.
Proof.
  intros Hn Hp'. induction 1 as [par Ht|par p par' l Ht Hp Hl IH].
  - by constructor.
  - econstructor; [done| |done].
    rewrite Hp', lookup_insert_ne; [done|]. intros ->. congruence.
Qed.

Lemma climbs_fresh sm sm' n pp par k k' :
  parent sm !! n = None → parent sm' = <[n := pp]> (parent sm) →
  climbs k sm par = true → k ≤ k' → climbs k' sm' par = true.
Proof.
  intros Hn Hp'. rewrite !climbs_path. intros (l & Hl & Hlen) Hk.
  exists l. split; [by eapply path_fresh|lia].
Qed.

Lemma state_ok_iff sm n st :
  state_ok sm n st = true ↔
  state_name st = n ∧ is_Some (parent sm !! n) ∧ NoDup (state_children st) ∧
  ∀ c, c ∈ state_children st → parent_of sm c = Some n.
Proof.
  unfold state_ok.
  rewrite !andb_true_iff, String.eqb_eq, is_some_true, bool_decide_eq_true,
    forallb_forall.
  split.
  - intros [[[Hn Hp] Hnd] Hall]. split_and!; [done..|].
    intros c Hc. apply list_elem_of_In in Hc. apply Hall in Hc.
    by apply bool_decide_eq_true in Hc.
  - intros (Hn & Hp & Hnd & Hall). split_and!; [done..|].
    intros c Hc. apply bool_decide_eq_true, Hall. by apply list_elem_of_In.
Qed.

Lemma link_ok_iff sm c par :
  link_ok sm c par = true ↔
  is_Some (states sm !! c) ∧
  match truthy par with
  | Some p => ∃ pst, states sm !! p = Some pst ∧ c ∈ state_children pst
  | None => c ∈ children sm
  end ∧
  climbs (size (parent sm)) sm par = true.
Proof.
  unfold link_ok. rewrite !andb_true_iff, is_some_true.
  destruct (truthy par) as [p|].
  - destruct (states sm !! p) as [pst|].
    + rewrite mem_true. split.
      * intros [[? ?] ?]. split_and!; eauto.
      * intros (? & (pst' & [= <-] & ?) & ?). done.
    + split; [by intros [[_ ?] _]|]. by intros (_ & (? & ? & _) & _).
  - rewrite mem_true. split; [by intros [[? ?] ?]|by intros (? & ? & ?)].
Qed.

Lemma top_ok_iff sm :
  top_ok sm = true ↔
  NoDup (children sm) ∧
  ∀ c, c ∈ children sm → is_Some (parent sm !! c) ∧ parent_of sm c = None.
Proof.
  unfold top_ok. rewrite andb_true_iff, bool_decide_eq_true, forallb_forall.
  split.
  - intros [Hnd Hall]. split; [done|]. intros c Hc.
    apply list_elem_of_In in Hc. apply Hall in Hc.
    apply andb_true_iff in Hc as [Hc1 Hc2].
    by apply is_some_true in Hc1; apply bool_decide_eq_true in Hc2.
  - intros [Hnd Hall]. split; [done|]. intros c Hc.
    apply list_elem_of_In in Hc. apply Hall in Hc as [Hc1 Hc2].
    apply andb_true_iff. split; [by apply is_some_true|by apply bool_decide_eq_true].
Qed.

Lemma register_state_valid sm st p :
  valid sm = true → well_ordered sm st p →
  snd (register_state sm st p) = Ok tt ∧
  valid (fst (register_state sm st p)) = true.
Proof.
  intros Hv (Hfresh & Hnokids & Hpar).
  assert (parent sm !! state_name st = None) as Hpfresh.
  { destruct (parent sm !! state_name st) as [pp|] eqn:E; [|done].
    assert (registered sm (state_name st)) as [st' Hst'].
    { apply valid_registered; eauto. }
    congruence. }
  pose proof Hv as Hv'. apply valid_iff in Hv' as (Hs & Hl & Ht).
  apply top_ok_iff in Ht as [Htnd Htall].
  assert (∀ c q, parent_of sm c = Some q → c ≠ state_name st) as Hchild_ne.
  { intros c q Hc ->. unfold parent_of in Hc. by rewrite Hpfresh in Hc. }
  assert (∀ c, is_Some (parent sm !! c) → c ≠ state_name st) as Hkey_ne.
  { intros c [? Hc] ->. congruence. }
  assert (∀ c, is_Some (states sm !! c) → c ≠ state_name st) as Hreg_ne.
  { intros c [? Hc] ->. congruence. }
  unfold register_state. destruct (parent_name p) as [pn|] eqn:Hp.
  - destruct Hpar as (Hpn & pst & Hpst & Hcomp).
    assert (pn ≠ state_name st) as Hne by (apply Hreg_ne; eauto).
    rewrite lookup_insert_ne; [|done]. rewrite Hpst.
    pose proof (add_child_outcome pst (state_name st)) as Hadd.
    destruct (add_child pst (state_name st)) as [pst'|e|];
      [|destruct Hadd as [? _]; congruence|done].
    destruct Hadd as (_ & Hname' & Hkids').
    pose proof (Hs _ _ Hpst) as Hpst_ok.
    apply state_ok_iff in Hpst_ok as (Hpst_n & Hpst_p & Hpst_nd & Hpst_all).
    simpl. split; [done|]. apply valid_iff. simpl. split_and!.
    + intros k st' Hk. apply state_ok_iff. simpl.
      destruct (decide (k = pn)) as [->|Hkpn].
      * rewrite lookup_insert_eq in Hk. injection Hk as <-. split_and!.
        -- congruence.
        -- by rewrite lookup_insert_ne.
        -- rewrite Hkids'. apply NoDup_app. split_and!; [done| |apply NoDup_singleton].
           intros c Hc Hc'. apply list_elem_of_singleton in Hc'. subst c.
           by apply Hpst_all, Hchild_ne in Hc.
        -- intros c. rewrite Hkids'. intros Hc. apply elem_of_app in Hc as [Hc|Hc].
           ++ apply Hpst_all in Hc. unfold parent_of in *. simpl.
              rewrite lookup_insert_ne; [done|]. apply not_eq_sym. by eapply Hchild_ne.
           ++ apply list_elem_of_singleton in Hc. subst c.
              unfold parent_of. simpl. rewrite lookup_insert_eq. simpl.
              by apply truthy_Some_ne.
      * rewrite lookup_insert_ne in Hk; [|done].
        destruct (decide (k = state_name st)) as [->|Hkn].
        -- rewrite lookup_insert_eq in Hk. injection Hk as <-.
           rewrite lookup_insert_eq, Hnokids. split_and!; [done|eauto|constructor|].
           intros c Hc. by apply elem_of_nil in Hc.
        -- rewrite lookup_insert_ne in Hk; [|done].
           apply Hs, state_ok_iff in Hk as (Hk_n & Hk_p & Hk_nd & Hk_all).
           split_and!; [done| |done|].
           ++ by rewrite lookup_insert_ne.
           ++ intros c Hc. apply Hk_all in Hc. unfold parent_of in *. simpl.
              rewrite lookup_insert_ne; [done|]. apply not_eq_sym. by eapply Hchild_ne.
    + intros c par Hc. apply link_ok_iff. simpl.
      destruct (decide (c = state_name st)) as [->|Hcn].
      * rewrite lookup_insert_eq in Hc. injection Hc as <-. split_and!.
        -- rewrite lookup_insert_ne; [|done]. rewrite lookup_insert_eq. eauto.
        -- rewrite (truthy_Some_ne pn Hpn). exists pst'.
           rewrite lookup_insert_eq. split; [done|]. rewrite Hkids'.
           apply elem_of_app; right. by apply list_elem_of_singleton.
        -- apply climbs_path. destruct Hpst_p as [ppn Hppn].
           destruct (valid_path _ _ _ Hv Hppn) as (l & Hl' & Hlen).
           exists (pn :: l). split.
           ++ econstructor; [by apply truthy_Some_ne| |].
              ** simpl. by rewrite lookup_insert_ne.
              ** by eapply path_fresh.
           ++ simpl. rewrite map_size_insert_None; [lia|done].
      * rewrite lookup_insert_ne in Hc; [|done].
        apply Hl, link_ok_iff in Hc as (Hc_s & Hc_l & Hc_c). split_and!.
        -- destruct (decide (c = pn)) as [->|?].
           ++ rewrite lookup_insert_eq. eauto.
           ++ rewrite !lookup_insert_ne; done.
        -- destruct (truthy par) as [q|]; [|done].
           destruct Hc_l as (qst & Hq & Hcq).
           destruct (decide (q = pn)) as [->|Hqpn].
           ++ exists pst'. rewrite lookup_insert_eq. split; [done|].
              rewrite Hkids'. apply elem_of_app; left. congruence.
           ++ exists qst. rewrite !lookup_insert_ne; [done| |done].
              apply not_eq_sym, Hreg_ne. eauto.
        -- eapply climbs_fresh; [exact Hpfresh|reflexivity|exact Hc_c|].
           rewrite map_size_insert_None; [lia|done].
    + apply top_ok_iff. simpl. split; [done|]. intros c Hc.
      destruct (Htall c Hc) as [Hc1 Hc2]. split.
      * rewrite lookup_insert_ne; [done|]. apply not_eq_sym. by apply Hkey_ne.
      * unfold parent_of in *. simpl. rewrite lookup_insert_ne; [done|].
        apply not_eq_sym. by apply Hkey_ne.
  - simpl. split; [done|]. apply valid_iff. simpl. split_and!.
    + intros k st' Hk. apply state_ok_iff. simpl.
      destruct (decide (k = state_name st)) as [->|Hkn].
      * rewrite lookup_insert_eq in Hk. injection Hk as <-.
        rewrite lookup_insert_eq, Hnokids. split_and!; [done|eauto|constructor|].
        intros c Hc. by apply elem_of_nil in Hc.
      * rewrite lookup_insert_ne in Hk; [|done].
        apply Hs, state_ok_iff in Hk as (Hk_n & Hk_p & Hk_nd & Hk_all).
        split_and!; [done| |done|].
        -- by rewrite lookup_insert_ne.
        -- intros c Hc. apply Hk_all in Hc. unfold parent_of in *. simpl.
           rewrite lookup_insert_ne; [done|]. apply not_eq_sym. by eapply Hchild_ne.
    + intros c par Hc. apply link_ok_iff. simpl.
      destruct (decide (c = state_name st)) as [->|Hcn].
      * rewrite lookup_insert_eq in Hc. injection Hc as <-. simpl. split_and!.
        -- rewrite lookup_insert_eq. eauto.
        -- apply elem_of_app; right. by apply list_elem_of_singleton.
        -- by destruct (size _).
      * rewrite lookup_insert_ne in Hc; [|done].
        apply Hl, link_ok_iff in Hc as (Hc_s & Hc_l & Hc_c). split_and!.
        -- by rewrite lookup_insert_ne.
        -- destruct (truthy par) as [q|].
           ++ destruct Hc_l as (qst & Hq & Hcq). exists qst.
              rewrite lookup_insert_ne; [done|]. apply not_eq_sym, Hreg_ne. eauto.
           ++ apply elem_of_app; by left.
        -- eapply climbs_fresh; [exact Hpfresh|reflexivity|exact Hc_c|].
           rewrite map_size_insert_None; [lia|done].
    + apply top_ok_iff. simpl. split.
      * apply NoDup_app. split_and!; [done| |apply NoDup_singleton].
        intros c Hc Hc'. apply list_elem_of_singleton in Hc'. subst c.
        destruct (Htall _ Hc) as [Hc1 _]. by apply Hkey_ne in Hc1.
      * intros c Hc. apply elem_of_app in Hc as [Hc|Hc].
        -- destruct (Htall c Hc) as [Hc1 Hc2]. split.
           ++ rewrite lookup_insert_ne; [done|]. apply not_eq_sym. by apply Hkey_ne.
           ++ unfold parent_of in *. simpl. rewrite lookup_insert_ne; [done|].
              apply not_eq_sym. by apply Hkey_ne.
        -- apply list_elem_of_singleton in Hc. subst c. split.
           ++ rewrite lookup_insert_eq. eauto.
           ++ unfold parent_of. simpl. by rewrite lookup_insert_eq.
Qed.

Lemma climbs_ext sm sm' n par :
  parent sm' = parent sm → climbs n sm' par = climbs n sm par.
Proof.
  intros Hp. revert par. induction n as [|n IH]; intros par; simpl; [done|].
  destruct (truthy par) as [q|]; [|done]. rewrite Hp.
  destruct (parent sm !! q); [apply IH|done].
Qed.

(** Validity looks at the names and the children of the states, at the
    parent map and at the top-level list only. *)
Lemma valid_same_tree sm sm' :
  parent sm' = parent sm → children sm' = children sm →
  (∀ k, match states sm' !! k, states sm !! k with
        | Some a, Some b =>
            state_name a = state_name b ∧ state_children a = state_children b
        | None, None => True
        | _, _ => False
        end) →
  valid sm = true → valid sm' = true.
Proof.
  intros Hp Hc Hst Hv. apply valid_iff in Hv as (Hs & Hl & Ht).
  apply valid_iff. split_and!.
  - intros k a Hk. specialize (Hst k). rewrite Hk in Hst.
    destruct (states sm !! k) as [b|] eqn:Hb; [|done]. destruct Hst as [Hn Hk'].
    apply Hs, state_ok_iff in Hb. apply state_ok_iff.
    unfold parent_of in *. rewrite Hp, Hn, Hk'. exact Hb.
  - intros c par Hcp. rewrite Hp in Hcp.
    apply Hl, link_ok_iff in Hcp as (Hc_s & Hc_l & Hc_c). apply link_ok_iff.
    split_and!.
    + specialize (Hst c). destruct Hc_s as [b Hb]. rewrite Hb in Hst.
      destruct (states sm' !! c); [eauto|done].
    + destruct (truthy par) as [q|]; [|by rewrite Hc].
      destruct Hc_l as (b & Hb & Hcb). specialize (Hst q). rewrite Hb in Hst.
      destruct (states sm' !! q) as [a|]; [|done]. destruct Hst as [_ Hk'].
      exists a. split; [done|]. by rewrite Hk'.
    + by rewrite Hp, (climbs_ext sm sm').
  - apply top_ok_iff in Ht. apply top_ok_iff.
    unfold parent_of in *. rewrite Hp, Hc. exact Ht.
Qed.

Lemma register_transition_valid sm t :
  valid sm = true → valid (fst (register_transition sm t)) = true.
Proof.
  intros Hv. apply (valid_same_tree sm); [| | |done].
  - unfold register_transition. destruct (states sm !! from_state t) as [st|]; [|done].
    by destruct (add_transition st t).
  - unfold register_transition. destruct (states sm !! from_state t) as [st|]; [|done].
    by destruct (add_transition st t).
  - intros k. unfold register_transition.
    destruct (states sm !! from_state t) as [st|] eqn:Hst;
      [|simpl; by destruct (states sm !! k)].
    pose proof (add_transition_outcome st t) as Hadd.
    destruct (add_transition st t) as [st'|e|]; simpl;
      [|by destruct (states sm !! k)..].
    destruct Hadd as (Hname & Hkids & _).
    destruct (decide (k = from_state t)) as [->|Hne].
    + by rewrite lookup_insert_eq, Hst.
    + rewrite lookup_insert_ne; [|done]. by destruct (states sm !! k).
Qed.

(** ** The first common name of two parent paths *)

Lemma first_in_Some l1 l2 a :
  first_in l1 l2 = Some a →
  ∃ pre post, l1 = pre ++ a :: post ∧ (∀ x, x ∈ pre → x ∉ l2) ∧ a ∈ l2.
Proof.
  induction l1 as [|y l1 IH]; simpl; [done|].
  destruct (mem y l2) eqn:Hy.
  - intros [= ->]. exists [], l1. split_and!; [done| |by apply mem_true].
    intros x Hx. by apply elem_of_nil in Hx.
  - intros H. destruct (IH H) as (pre & post & -> & Hpre & Ha).
    exists (y :: pre), post. split_and!; [done| |done].
    intros x Hx. apply elem_of_cons in Hx as [->|Hx]; [by apply mem_false|eauto].
Qed.

Lemma first_in_None l1 l2 :
  first_in l1 l2 = None ↔ ∀ x, x ∈ l1 → x ∉ l2.
Proof.
  induction l1 as [|y l1 IH]; simpl.
  - split; [|done]. intros _ x Hx. by apply elem_of_nil in Hx.
  - destruct (mem y l2) eqn:Hy.
    + split; [done|]. intros H. apply mem_true in Hy.
      exfalso. apply (H y); [apply elem_of_cons; by left|done].
    + rewrite IH. apply mem_false in Hy. split.
      * intros H x Hx. apply elem_of_cons in Hx as [->|Hx]; eauto.
      * intros H x Hx. apply H. apply elem_of_cons; by right.
Qed.

Lemma first_in_self l : first_in l l = head l.
Proof.
  destruct l as [|x l]; simpl; [done|].
  assert (mem x (x :: l) = true) as ->; [|done].
  apply mem_true. apply elem_of_cons; by left.
Qed.

(** What follows a name on a parent path depends on the name alone. *)
Lemma path_tail_unique sm p1 p2 u1 u2 x v1 v2 :
  path sm p1 (u1 ++ x :: v1) → path sm p2 (u2 ++ x :: v2) → v1 = v2.
Proof.
  intros H1 H2.
  destruct (path_split _ _ _ _ _ H1) as (q1 & Hx1 & Hv1).
  destruct (path_split _ _ _ _ _ H2) as (q2 & Hx2 & Hv2).
  assert (q2 = q1) by congruence; subst q2.
  by eapply path_functional.
Qed.

Lemma first_in_comm sm p1 p2 l1 l2 :
  path sm p1 l1 → path sm p2 l2 → first_in l1 l2 = first_in l2 l1.
Proof.
  intros H1 H2.
  destruct (first_in l1 l2) as [a|] eqn:Ha, (first_in l2 l1) as [b|] eqn:Hb; [| | |done].
  - apply first_in_Some in Ha as (pre & post & E1 & Hpre & Hal2).
    apply first_in_Some in Hb as (pre' & post' & E2 & Hpre' & Hbl1).
    f_equal.
    assert (a ∈ l1) as Hal1.
    { rewrite E1. apply elem_of_app; right. apply elem_of_cons; by left. }
    assert (b ∈ l2) as Hbl2.
    { rewrite E2. apply elem_of_app; right. apply elem_of_cons; by left. }
    assert (b = a ∨ b ∈ post) as [->|Hbpost]; [|done|].
    { rewrite E1 in Hbl1. apply elem_of_app in Hbl1 as [Hb|Hb].
      - by apply Hpre in Hb.
      - apply elem_of_cons in Hb as [->|Hb]; eauto. }
    assert (a = b ∨ a ∈ post') as [->|Hapost]; [|done|].
    { rewrite E2 in Hal2. apply elem_of_app in Hal2 as [Ha|Ha].
      - by apply Hpre' in Ha.
      - apply elem_of_cons in Ha as [->|Ha]; eauto. }
    exfalso.
    apply list_elem_of_split in Hbpost as (x & y & ->).
    apply list_elem_of_split in Hapost as (x' & y' & ->).
    subst l1 l2.
    assert (y = x' ++ a :: y') as Ey.
    { eapply (path_tail_unique sm p1 p2 (pre ++ a :: x) pre' b); [|done].
      by rewrite <- app_assoc. }
    assert (y' = x ++ b :: y) as Ey'.
    { eapply (path_tail_unique sm p2 p1 (pre' ++ b :: x') pre a); [|done].
      by rewrite <- app_assoc. }
    apply (f_equal length) in Ey, Ey'.
    rewrite length_app in Ey, Ey'. simpl in Ey, Ey'. lia.
  - exfalso. apply first_in_Some in Ha as (pre & post & E1 & Hpre & Hal2).
    rewrite first_in_None in Hb. apply (Hb a Hal2).
    rewrite E1. apply elem_of_app; right. apply elem_of_cons; by left.
  - exfalso. apply first_in_Some in Hb as (pre & post & E1 & Hpre & Hbl1).
    rewrite first_in_None in Ha. apply (Ha b Hbl1).
    rewrite E1. apply elem_of_app; right. apply elem_of_cons; by left.
Qed.

(** The depth of a name on a parent path is one more than the length of
    what follows it. *)
Lemma path_depth fuel sm par u x v :
  path sm par (u ++ x :: v) → length (u ++ x :: v) ≤ fuel →
  depth_of fuel sm (Some x) = Ok (length v + 1).
Proof.
  intros Hl Hlen. destruct (path_split _ _ _ _ _ Hl) as (q & Hx & Hv).
  apply depth_of_path. exists q, v. split_and!; [done..| |done].
  rewrite length_app in Hlen. simpl in Hlen. lia.
Qed.

(** ** Depth as a function *)

Lemma depth_path sm x par l :
  valid sm = true → parent sm !! x = Some par → path sm par l →
  depth sm x = length l + 1.
Proof.
  intros Hv Hx Hl. unfold depth.
  destruct (valid_path _ _ _ Hv Hx) as (l' & Hl' & Hlen).
  assert (l' = l) by (by eapply path_functional); subst l'.
  assert (depth_of (size (parent sm)) sm (Some x) = Ok (length l + 1)) as ->; [|done].
  apply depth_of_path. by exists par, l.
Qed.

Lemma depth_child sm c p :
  valid sm = true → parent_of sm c = Some p → depth sm c = S (depth sm p).
Proof.
  intros Hv Hp. unfold parent_of in Hp.
  destruct (parent sm !! c) as [par|] eqn:Hc; [|done]. simpl in Hp.
  destruct (valid_path _ _ _ Hv Hc) as (l & Hl & _).
  inversion Hl as [|? q par' l' Ht Hq Hl']; subst; [congruence|].
  assert (q = p) by congruence; subst q.
  rewrite (depth_path sm c par (p :: l')), (depth_path sm p par' l');
    [simpl; lia|done..].
Qed.

Lemma depth_ancestor sm a s :
  valid sm = true → ancestor sm a s → depth sm a < depth sm s.
Proof.
  intros Hv. induction 1 as [s p Hp|s p a Hp Ha IH].
  - rewrite (depth_child sm s p); [lia|done..].
  - rewrite (depth_child sm s p); [lia|done..].
Qed.

Lemma depth_of_depth fuel sm x :
  valid sm = true → registered sm x → size (parent sm) ≤ fuel →
  depth_of fuel sm (Some x) = Ok (depth sm x).
Proof.
  intros Hv Hx Hfuel.
  apply (valid_registered _ _ Hv) in Hx as [par Hpar].
  destruct (valid_path _ _ _ Hv Hpar) as (l & Hl & Hlen).
  rewrite (depth_path sm x par l); [|done..].
  apply depth_of_path. exists par, l. split_and!; [done..|lia|done].
Qed.

Lemma valid_size sm : valid sm = true → size (states sm) = size (parent sm).
Proof.
  intros Hv. rewrite <- !size_dom. f_equal. apply set_eq. intros x.
  rewrite !elem_of_dom. by apply valid_registered.
Qed.

Lemma ancestor_registered sm a s :
  valid sm = true → ancestor sm a s → registered sm s.
Proof.
  intros Hv Ha. apply valid_registered; [done|].
  inversion Ha as [? ? Hp|? ? ? Hp _]; subst; unfold parent_of in Hp;
    destruct (parent sm !! s); eauto; done.
Qed.

Lemma NoDup_registered_length sm (l : list string) :
  NoDup l → (∀ x, x ∈ l → registered sm x) → length l ≤ size (states sm).
Proof.
  intros Hnd Hreg. rewrite <- size_dom. unfold size, set_size. simpl.
  apply submseteq_length. apply NoDup_submseteq; [done|].
  intros x Hx. apply elem_of_elements, elem_of_dom. by apply Hreg.
Qed.

(** ** Depth and least common ancestor *)

(** The bodies, run on one registry.
    In a valid registry, [depth_of] is 0 for the root sentinel [None];
    for a registered state it is one more than the length of
    [ancestors_for], whose result lists each ancestor of the state exactly
    once: a state at depth [d] has exactly [d - 1] ancestors. *)
Lemma depth_of_counts_ancestors_body fuel sm s :
  valid sm = true → registered sm s → size (parent sm) ≤ fuel →
  depth_of fuel sm None = Ok 0 ∧
  ∃ l d, ancestors_for fuel sm s = Ok l ∧
         depth_of fuel sm (Some s) = Ok d ∧
         d = 1 + length l ∧
         NoDup l ∧ (∀ a, a ∈ l ↔ ancestor sm a s) ∧
         length l = d - 1.
Proof.
  intros Hv Hs Hfuel. split; [done|].
  destruct (valid_ancestors_for _ _ _ Hv Hs Hfuel) as (par & l & Hpar & Hl & Ha).
  exists l, (1 + length l). split_and!.
  - done.
  - simpl. rewrite Ha. simpl. f_equal. lia.
  - done.
  - by eapply path_NoDup.
  - intros a. by eapply path_ancestor.
  - lia.
Qed.

(** The bodies, run on one registry.
    In a valid registry, for registered [s1] and [s2],
    [least_common_ancestor] returns the first name of [ancestors_for s1]
    (nearest ancestor first) that occurs in [ancestors_for s2]; that name
    is an ancestor of both states and every other common ancestor is
    strictly less deep.  It returns [None] exactly when no name is an
    ancestor of both. *)
Lemma least_common_ancestor_deepest_body fuel sm s1 s2 :
  valid sm = true → registered sm s1 → registered sm s2 →
  size (parent sm) ≤ fuel →
  ∃ l1 l2 r,
    ancestors_for fuel sm s1 = Ok l1 ∧ ancestors_for fuel sm s2 = Ok l2 ∧
    least_common_ancestor fuel sm s1 s2 = Ok r ∧
    match r with
    | Some a =>
        (∃ pre post, l1 = pre ++ a :: post ∧ (∀ x, x ∈ pre → x ∉ l2)) ∧
        a ∈ l2 ∧
        ancestor sm a s1 ∧ ancestor sm a s2 ∧
        ∀ c, ancestor sm c s1 → ancestor sm c s2 →
          ∃ da dc, depth_of fuel sm (Some a) = Ok da ∧
                   depth_of fuel sm (Some c) = Ok dc ∧
                   dc ≤ da ∧ (c ≠ a → dc < da)
    | None =>
        (∀ x, x ∈ l1 → x ∉ l2) ∧
        ∀ c, ¬ (ancestor sm c s1 ∧ ancestor sm c s2)
    end.
Proof.
  intros Hv Hs1 Hs2 Hfuel.
  destruct (valid_ancestors_for _ _ _ Hv Hs1 Hfuel) as (p1 & l1 & Hp1 & Hl1 & Ha1).
  destruct (valid_ancestors_for _ _ _ Hv Hs2 Hfuel) as (p2 & l2 & Hp2 & Hl2 & Ha2).
  exists l1, l2, (first_in l1 l2). split_and!; [done..| |].
  { unfold least_common_ancestor. by rewrite Ha1, Ha2. }
  assert (length l1 ≤ fuel) as Hlen1.
  { apply ancestors_for_path in Ha1 as (? & ? & ? & ?). done. }
  destruct (first_in l1 l2) as [a|] eqn:Hf.
  - apply first_in_Some in Hf as (pre & post & E1 & Hpre & Hal2).
    assert (a ∈ l1) as Hal1.
    { rewrite E1. apply elem_of_app; right. apply elem_of_cons; by left. }
    split_and!.
    + eauto.
    + done.
    + by apply (path_ancestor _ _ _ _ a Hp1 Hl1).
    + by apply (path_ancestor _ _ _ _ a Hp2 Hl2).
    + intros c Hc1 Hc2.
      apply (path_ancestor _ _ _ _ c Hp1 Hl1) in Hc1.
      apply (path_ancestor _ _ _ _ c Hp2 Hl2) in Hc2.
      subst l1. exists (length post + 1).
      apply elem_of_app in Hc1 as [Hc1|Hc1]; [by apply Hpre in Hc1|].
      apply elem_of_cons in Hc1 as [->|Hc1].
      * exists (length post + 1). split_and!; [by eapply path_depth..|lia|done].
      * apply list_elem_of_split in Hc1 as (x & y & ->).
        exists (length y + 1). split_and!.
        -- by eapply path_depth.
        -- eapply (path_depth fuel sm p1 (pre ++ a :: x) c y);
             by rewrite <- app_assoc.
        -- rewrite length_app. simpl. lia.
        -- rewrite length_app. simpl. lia.
  - rewrite first_in_None in Hf. split; [done|].
    intros c [Hc1 Hc2].
    apply (path_ancestor _ _ _ _ c Hp1 Hl1) in Hc1.
    apply (path_ancestor _ _ _ _ c Hp2 Hl2) in Hc2.
    by apply (Hf c).
Qed.

(** The bodies, run on one registry.
    In a valid registry, [least_common_ancestor] is symmetric on
    registered states, and [least_common_ancestor s s] is the first element
    of [ancestors_for s], or [None] when [s] has no ancestor. *)
Lemma least_common_ancestor_symmetric_body fuel sm a b :
  valid sm = true → registered sm a → registered sm b →
  size (parent sm) ≤ fuel →
  least_common_ancestor fuel sm a b = least_common_ancestor fuel sm b a ∧
  (∃ r, least_common_ancestor fuel sm a b = Ok r) ∧
  ∃ l, ancestors_for fuel sm a = Ok l ∧
       least_common_ancestor fuel sm a a = Ok (head l).
Proof.
  intros Hv Hsa Hsb Hfuel.
  destruct (valid_ancestors_for _ _ _ Hv Hsa Hfuel) as (pa & la & Hpa & Hla & Haa).
  destruct (valid_ancestors_for _ _ _ Hv Hsb Hfuel) as (pb & lb & Hpb & Hlb & Hab).
  unfold least_common_ancestor. rewrite Haa, Hab. simpl. split_and!.
  - f_equal. by eapply first_in_comm.
  - eauto.
  - exists la. by rewrite first_in_self.
Qed.

(** ** The breadth-first loop of [descendants_for] *)

Lemma descendants_loop_step fuel sm x rest acc :
  registered sm x →
  descendants_loop (S fuel) sm (x :: rest) acc
  = descendants_loop fuel sm (rest ++ kids sm x) (acc ++ kids sm x).
Proof. intros [st Hst]. simpl. unfold kids. by rewrite Hst. Qed.

Lemma StronglySorted_same {A : Type} (R : A → A → Prop) (l : list A) :
  (∀ x y, x ∈ l → y ∈ l → R x y) → StronglySorted R l.
Proof.
  induction l as [|a l IH]; intros H; constructor.
  - apply IH. intros x y Hx Hy. apply H; apply elem_of_cons; by right.
  - apply Forall_forall. intros y Hy.
    apply H; apply elem_of_cons; [by left|by right].
Qed.

Lemma StronglySorted_lookup_lt {A : Type} (R : A → A → Prop) (l : list A) i j x y :
  StronglySorted R l → i < j → l !! i = Some x → l !! j = Some y → R x y.
Proof.
  intros Hl. revert i j. induction Hl as [|a l Hl IH Hall]; intros i j Hij Hi Hj.
  - done.
  - destruct j as [|j]; [lia|]. simpl in Hj. destruct i as [|i]; simpl in Hi.
    + injection Hi as ->. rewrite Forall_forall in Hall. apply Hall.
      by eapply list_elem_of_lookup_2.
    + apply (IH i j); [lia|done..].
Qed.

Lemma bfs_inv_init sm s0 : bfs_inv sm s0 [] [s0] [].
Proof.
  split.
  - done.
  - apply NoDup_singleton.
  - intros x Hx. by apply elem_of_nil in Hx.
  - done.
  - apply StronglySorted_same. intros x y Hx Hy.
    apply list_elem_of_singleton in Hx, Hy. subst. unfold by_depth. lia.
  - intros x y [= <-] Hy. apply list_elem_of_singleton in Hy. subst. lia.
Qed.

Lemma bfs_inv_step sm s0 done_ x q acc :
  valid sm = true →
  bfs_inv sm s0 done_ (x :: q) acc →
  bfs_inv sm s0 (done_ ++ [x]) (q ++ kids sm x) (acc ++ kids sm x).
Proof.
  intros Hv [Hsplit Hnd Hbelow Hkids Hsorted Hfront].
  assert (x ∈ s0 :: acc) as Hx.
  { rewrite Hsplit. apply elem_of_app; right. apply elem_of_cons; by left. }
  assert (∀ c, c ∈ kids sm x → ancestor sm s0 c) as Hanc.
  { intros c Hc. apply (valid_kids_parent _ _ _ Hv) in Hc.
    apply elem_of_cons in Hx as [->|Hx].
    - by apply ancestor_parent.
    - eapply ancestor_step; [done|]. by apply Hbelow. }
  assert (x ∉ done_) as Hxdone.
  { rewrite Hsplit in Hnd. apply NoDup_app in Hnd as (_ & Hdis & _).
    intros Hin. apply (Hdis x Hin). apply elem_of_cons; by left. }
  assert (∀ c, c ∈ kids sm x → c ∉ s0 :: acc) as Hfresh.
  { intros c Hc Hin. apply elem_of_cons in Hin as [->|Hin].
    - by apply (valid_acyclic sm s0 Hv), Hanc.
    - rewrite Hkids in Hin. apply list_elem_of_bind in Hin as (y & Hcy & Hy).
      apply (valid_kids_parent _ _ _ Hv) in Hc, Hcy.
      assert (y = x) by congruence. by subst y. }
  assert (∀ c, c ∈ kids sm x → depth sm c = S (depth sm x)) as Hdepth.
  { intros c Hc. apply depth_child; [done|]. by apply valid_kids_parent. }
  split.
  - rewrite app_comm_cons, Hsplit, <- !app_assoc. done.
  - rewrite app_comm_cons. apply NoDup_app. split_and!; [done| |by apply valid_kids_NoDup].
    intros y Hy Hc. by apply (Hfresh y).
  - intros y Hy. apply elem_of_app in Hy as [Hy|Hy]; eauto.
  - rewrite bind_app, bind_singleton. by f_equal.
  - rewrite app_comm_cons. apply StronglySorted_app. split_and!; [|done|].
    + intros y c Hy Hc. unfold by_depth. rewrite (Hdepth c Hc). by apply Hfront.
    + apply StronglySorted_same. intros c1 c2 H1 H2. unfold by_depth.
      rewrite (Hdepth c1 H1), (Hdepth c2 H2). lia.
  - intros x' y Hhead Hy.
    assert (depth sm x ≤ depth sm x') as Hxx'.
    { destruct q as [|x'' q'].
      - simpl in Hhead. rewrite (Hdepth x'); [lia|].
        destruct (kids sm x); [done|]. injection Hhead as ->.
        apply elem_of_cons; by left.
      - simpl in Hhead. injection Hhead as ->.
        rewrite Hsplit in Hsorted. apply StronglySorted_app_1_r in Hsorted.
        apply StronglySorted_cons in Hsorted as [Hall _].
        rewrite Forall_forall in Hall. apply Hall. apply elem_of_cons; by left. }
    rewrite app_comm_cons in Hy. apply elem_of_app in Hy as [Hy|Hy].
    + specialize (Hfront x y eq_refl Hy). lia.
    + rewrite (Hdepth y Hy). lia.
Qed.

Lemma descendants_loop_inv sm s0 fuel done_ q acc :
  valid sm = true → registered sm s0 →
  bfs_inv sm s0 done_ q acc →
  size (states sm) < fuel + length done_ →
  ∃ r, descendants_loop fuel sm q acc = Ok r ∧ bfs_inv sm s0 (s0 :: r) [] r.
Proof.
  intros Hv Hs0. revert done_ q acc.
  induction fuel as [|fuel IH]; intros done_ q acc Hinv Hfuel.
  - destruct q as [|x q].
    + exists acc. split; [done|].
      pose proof (bfs_split _ _ _ _ _ Hinv) as E. rewrite app_nil_r in E.
      by rewrite E.
    + exfalso.
      pose proof (bfs_split _ _ _ _ _ Hinv) as E.
      pose proof (bfs_nodup _ _ _ _ _ Hinv) as Hnd.
      assert (length (s0 :: acc) ≤ size (states sm)) as Hlen.
      { apply NoDup_registered_length; [done|].
        intros y Hy. apply elem_of_cons in Hy as [->|Hy]; [done|].
        eapply ancestor_registered; [done|]. by eapply bfs_below. }
      rewrite E, length_app in Hlen. simpl in Hlen, Hfuel. lia.
  - destruct q as [|x q].
    + exists acc. split; [done|].
      pose proof (bfs_split _ _ _ _ _ Hinv) as E. rewrite app_nil_r in E.
      by rewrite E.
    + assert (registered sm x) as Hx.
      { assert (x ∈ s0 :: acc) as Hin.
        { rewrite (bfs_split _ _ _ _ _ Hinv).
          apply elem_of_app; right. apply elem_of_cons; by left. }
        apply elem_of_cons in Hin as [->|Hin]; [done|].
        eapply ancestor_registered; [done|]. by eapply bfs_below. }
      rewrite descendants_loop_step; [|done].
      apply (IH (done_ ++ [x])).
      * by apply bfs_inv_step.
      * rewrite length_app. simpl. lia.
Qed.

(** Whatever has [s0] as an ancestor is among the children of [s0] or of
    another state below [s0]. *)
Lemma bfs_complete sm s0 r d :
  valid sm = true → r = (s0 :: r) ≫= kids sm → ancestor sm s0 d → d ∈ r.
Proof.
  intros Hv Hr Ha. remember s0 as a eqn:Ea.
  induction Ha as [s p Hp|s p a Hp Ha IH]; subst.
  - rewrite Hr. apply list_elem_of_bind. exists s0. split.
    + by apply valid_parent_kids.
    + apply elem_of_cons; by left.
  - rewrite Hr. apply list_elem_of_bind. exists p. split.
    + by apply valid_parent_kids.
    + apply elem_of_cons; right. by apply IH.
Qed.

Lemma valid_descendants_for fuel sm s :
  valid sm = true → registered sm s → size (states sm) < fuel →
  ∃ ds, descendants_for fuel sm s = Ok ds ∧ bfs_inv sm s (s :: ds) [] ds.
Proof.
  intros Hv Hs Hfuel. unfold descendants_for.
  apply (descendants_loop_inv sm s fuel [] [s] []); [done..| |simpl; lia].
  apply bfs_inv_init.
Qed.

Lemma descendants_for_ancestor fuel sm s ds d :
  valid sm = true → registered sm s → size (states sm) < fuel →
  descendants_for fuel sm s = Ok ds → (d ∈ ds ↔ ancestor sm s d).
Proof.
  intros Hv Hs Hfuel Hds.
  destruct (valid_descendants_for fuel sm s Hv Hs Hfuel) as (ds' & Hds' & Hinv).
  assert (ds' = ds) by congruence; subst ds'. split.
  - by apply (bfs_below _ _ _ _ _ Hinv).
  - apply bfs_complete; [done|]. by apply (bfs_kids _ _ _ _ _ Hinv).
Qed.

(** The bodies, run on one registry.
    In a valid registry, for a registered state [s], [descendants_for]
    returns exactly the states that have [s] as an ancestor, in breadth-first
    order: the children of [s], then the children of each listed state in
    turn.  The list is ordered by increasing depth, every entry is deeper
    than [s], there is no duplicate, [s] is not in it, and it is empty when
    [s] is not a composite state (a basic, final or history state). *)
Lemma descendants_for_breadth_first_body fuel sm s :
  valid sm = true → registered sm s → size (states sm) < fuel →
  ∃ ds,
    descendants_for fuel sm s = Ok ds ∧
    (∀ d, d ∈ ds ↔ ancestor sm s d) ∧
    ds = kids sm s ++ (ds ≫= kids sm) ∧
    (∀ i j x y, i < j → ds !! i = Some x → ds !! j = Some y →
       ∃ d0 dx dy, depth_of fuel sm (Some s) = Ok d0 ∧
                   depth_of fuel sm (Some x) = Ok dx ∧
                   depth_of fuel sm (Some y) = Ok dy ∧
                   d0 < dx ∧ dx ≤ dy) ∧
    (∀ x, x ∈ ds → ∃ d0 dx, depth_of fuel sm (Some s) = Ok d0 ∧
                            depth_of fuel sm (Some x) = Ok dx ∧ d0 < dx) ∧
    NoDup ds ∧ (s ∉ ds) ∧
    (∀ st, states sm !! s = Some st → composite st = false → ds = []).
Proof.
  intros Hv Hs Hfuel.
  destruct (valid_descendants_for fuel sm s Hv Hs Hfuel) as (ds & Hds & Hinv).
  destruct Hinv as [_ Hnd Hbelow Hkids Hsorted _].
  assert (size (parent sm) ≤ fuel) as Hfuel'.
  { rewrite <- (valid_size sm Hv). lia. }
  assert (∀ x, x ∈ ds → registered sm x) as Hreg.
  { intros x Hx. eapply ancestor_registered; [done|]. by apply Hbelow. }
  exists ds. split_and!.
  - done.
  - intros d. by eapply descendants_for_ancestor.
  - by rewrite bind_cons in Hkids.
  - intros i j x y Hij Hi Hj.
    assert (x ∈ ds) as Hx by (by eapply list_elem_of_lookup_2).
    assert (y ∈ ds) as Hy by (by eapply list_elem_of_lookup_2).
    exists (depth sm s), (depth sm x), (depth sm y).
    split_and!; [apply depth_of_depth; auto..| |].
    + apply depth_ancestor; auto.
    + apply StronglySorted_cons in Hsorted as [_ Hsorted].
      by apply (StronglySorted_lookup_lt _ _ i j x y Hsorted).
  - intros x Hx. exists (depth sm s), (depth sm x).
    split_and!; [apply depth_of_depth; auto..|].
    apply depth_ancestor; auto.
  - by apply NoDup_cons in Hnd as [_ ?].
  - by apply NoDup_cons in Hnd as [? _].
  - intros st Hst Hc. unfold descendants_for in Hds.
    destruct fuel as [|fuel]; [lia|]. simpl in Hds. rewrite Hst in Hds.
    destruct st; simpl in Hc; try done; simpl in Hds;
      destruct fuel; simpl in Hds; by injection Hds as <-.
Qed.

(** ** Leaf filtering *)

Lemma keep_scan_forallb sts ds :
  keep_scan sts ds = forallb (λ d, negb (mem d sts)) ds.
Proof.
  induction ds as [|d ds IH]; simpl; [done|].
  destruct (mem d sts); simpl; done.
Qed.

Lemma leaf_loop_filter fuel sm sts todo acc :
  (∀ s, s ∈ todo → ∃ ds, descendants_for fuel sm s = Ok ds) →
  leaf_loop fuel sm sts todo acc
  = Ok (acc ++ List.filter (no_descendant_in fuel sm sts) todo).
Proof.
  revert acc. induction todo as [|s todo IH]; intros acc Hall; simpl.
  - by rewrite app_nil_r.
  - destruct (Hall s) as (ds & Hds); [apply elem_of_cons; by left|].
    unfold no_descendant_in at 1. rewrite Hds. simpl.
    rewrite keep_scan_forallb, IH.
    + destruct (forallb _ ds); [|done]. by rewrite <- app_assoc.
    + intros s' Hs'. apply Hall. apply elem_of_cons; by right.
Qed.

Lemma leaf_for_leaves_of fuel sm sts :
  (∀ s, s ∈ sts → ∃ ds, descendants_for fuel sm s = Ok ds) →
  leaf_for fuel sm sts = Ok (leaves_of fuel sm sts).
Proof. intros Hall. unfold leaf_for. by rewrite leaf_loop_filter. Qed.

Lemma no_descendant_in_true fuel sm sts s :
  no_descendant_in fuel sm sts s = true ↔
  ∃ ds, descendants_for fuel sm s = Ok ds ∧ ∀ d, d ∈ ds → d ∉ sts.
Proof.
  unfold no_descendant_in.
  destruct (descendants_for fuel sm s) as [ds| |]; split;
    try done; try (by intros (? & ? & _)).
  - intros H. exists ds. split; [done|]. intros d Hd.
    rewrite forallb_forall in H. apply list_elem_of_In in Hd.
    apply H in Hd. apply negb_true_iff in Hd. by apply mem_false.
  - intros (ds' & [= <-] & H). apply forallb_forall. intros d Hd.
    apply list_elem_of_In in Hd. apply negb_true_iff. apply mem_false. eauto.
Qed.

Lemma filter_all_true {A : Type} (f : A → bool) (l : list A) :
  (∀ x, x ∈ l → f x = true) → List.filter f l = l.
Proof.
  induction l as [|a l IH]; intros H; simpl; [done|].
  rewrite (H a); [|apply elem_of_cons; by left].
  f_equal. apply IH. intros x Hx. apply H. apply elem_of_cons; by right.
Qed.

Lemma elem_of_leaves_of fuel sm sts s :
  s ∈ leaves_of fuel sm sts ↔ s ∈ sts ∧ no_descendant_in fuel sm sts s = true.
Proof. unfold leaves_of. rewrite !list_elem_of_In. apply filter_In. Qed.

(** The bodies, run on one registry.
    In a valid registry, for a list of registered names,
    [leaf_for] returns the members of the list, in order, that have no
    descendant (per [descendants_for]) in the list, and applying [leaf_for]
    to its own result gives that result back. *)
Lemma leaf_for_exact_idempotent_body fuel sm sts :
  valid sm = true → (∀ s, s ∈ sts → registered sm s) →
  size (states sm) < fuel →
  ∃ leaves,
    leaf_for fuel sm sts = Ok leaves ∧
    leaves = leaves_of fuel sm sts ∧
    (∀ s, s ∈ leaves ↔ s ∈ sts ∧ ∀ d, ancestor sm s d → d ∉ sts) ∧
    leaf_for fuel sm leaves = Ok leaves.
Proof.
  intros Hv Hreg Hfuel.
  assert (∀ l : list string, (∀ s, s ∈ l → registered sm s) →
               ∀ s, s ∈ l → ∃ ds, descendants_for fuel sm s = Ok ds) as Hds.
  { intros l Hl s Hs.
    destruct (valid_descendants_for fuel sm s Hv (Hl s Hs) Hfuel) as (ds & ? & _).
    eauto. }
  exists (leaves_of fuel sm sts). split_and!.
  - apply leaf_for_leaves_of. by apply Hds.
  - done.
  - intros s. rewrite elem_of_leaves_of, no_descendant_in_true. split.
    + intros (Hs & ds & Hdesc & Hnone). split; [done|]. intros d Hd.
      apply Hnone. by apply (descendants_for_ancestor fuel sm s ds d Hv (Hreg s Hs) Hfuel).
    + intros (Hs & Hnone). split; [done|].
      destruct (Hds sts Hreg s Hs) as (ds & Hdesc). exists ds. split; [done|].
      intros d Hd. apply Hnone.
      by apply (descendants_for_ancestor fuel sm s ds d Hv (Hreg s Hs) Hfuel).
  - rewrite leaf_for_leaves_of.
    + f_equal. unfold leaves_of at 1. apply filter_all_true.
      intros s Hs. apply elem_of_leaves_of in Hs as (Hs & Hnd).
      apply no_descendant_in_true in Hnd as (ds & Hdesc & Hnone).
      apply no_descendant_in_true. exists ds. split; [done|].
      intros d Hd Hin. apply elem_of_leaves_of in Hin as (Hin & _).
      by apply (Hnone d).
    + apply Hds. intros s Hs. apply elem_of_leaves_of in Hs as (Hs & _). auto.
Qed.

(** ** The caches *)

Section lru.
Context {K V : Type} `{EqDecision K}.
Variable get : Caches → list (K * V).
Variable set : list (K * V) → Caches → Caches.
Hypothesis get_set : ∀ l c, get (set l c) = l.

Lemma lru_find_elem (k : K) (v : V) (l : list (K * V)) :
  lru_find k l = Some v → (k, v) ∈ l.
Proof.
  induction l as [|[k' v'] l IH]; simpl; [done|].
  destruct (decide (k = k')) as [->|Hne].
  - intros [= ->]. apply elem_of_cons; by left.
  - intros Hf. apply elem_of_cons; right. by apply IH.
Qed.

Lemma lru_remove_elem (k : K) (x : K * V) (l : list (K * V)) :
  x ∈ lru_remove k l → x ∈ l.
Proof.
  induction l as [|[k' v'] l IH]; simpl; [done|].
  destruct (decide (k = k')) as [->|Hne].
  - intros Hx. apply elem_of_cons; right. by apply IH.
  - intros Hx. apply elem_of_cons in Hx as [->|Hx].
    + apply elem_of_cons; by left.
    + apply elem_of_cons; right. by apply IH.
Qed.

(** A hit never runs the body. *)
Lemma lru_cache_hit body (k : K) (v : V) (c : Caches) :
  lru_find k (get c) = Some v →
  lru_cache get set body k c = (set ((k, v) :: lru_remove k (get c)) c, Ok v).
Proof. intros Hf. unfold lru_cache. by rewrite Hf. Qed.

(** A call that returns leaves its result in the cache. *)
Lemma lru_cache_stored body (k : K) (v : V) (c c1 : Caches) :
  lru_cache get set body k c = (c1, Ok v) → lru_find k (get c1) = Some v.
Proof.
  unfold lru_cache. destruct (lru_find k (get c)) as [v'|] eqn:Hf.
  - intros [= <- <-]. rewrite get_set. simpl. by rewrite decide_True.
  - destruct (body k c) as [c' [v'| |]]; intros [= <- Hv]; subst.
    rewrite get_set. simpl. by rewrite decide_True.
Qed.

(** So a repeated call returns the same result, whatever body it wraps. *)
Lemma lru_cache_repeat body body' (k : K) (v : V) (c c1 : Caches) :
  lru_cache get set body k c = (c1, Ok v) →
  snd (lru_cache get set body' k c1) = Ok v.
Proof.
  intros Hc. apply lru_cache_stored in Hc.
  by rewrite (lru_cache_hit body' k v c1 Hc).
Qed.

(** What a call leaves in its cache is its result, or was there before, or
    was left there by the body. *)
Lemma lru_cache_entries body (k : K) (c c1 : Caches) (r : res V) (x : K * V) :
  lru_cache get set body k c = (c1, r) → x ∈ get c1 →
  (∃ v, r = Ok v ∧ x = (k, v)) ∨ x ∈ get c ∨ x ∈ get (fst (body k c)).
Proof.
  unfold lru_cache. destruct (lru_find k (get c)) as [v'|] eqn:Hf.
  - intros [= <- <-]. rewrite get_set. intros Hx.
    apply elem_of_cons in Hx as [->|Hx]; [left; eauto|].
    right; left. by eapply lru_remove_elem.
  - destruct (body k c) as [c' [v'| |]] eqn:Hb; intros [= <- <-]; simpl.
    + rewrite get_set. intros Hx. apply elem_of_cons in Hx as [->|Hx]; [left; eauto|].
      right; right. by apply (subseteq_take (maxsize - 1)).
    + by right; right.
    + by right; right.
Qed.

End lru.

Lemma coherent_no_caches fuel sm : coherent fuel sm no_caches.
Proof. repeat split; intros; by apply elem_of_nil in H. Qed.

Lemma cached_ancestors_for_coherent fuel sm s c c1 r :
  coherent fuel sm c → cached_ancestors_for fuel sm s c = (c1, r) →
  r = ancestors_for fuel sm s ∧ coherent fuel sm c1.
Proof.
  intros (Ha & Hd & Hp & Hl) Hcall.
  assert (r = ancestors_for fuel sm s) as Hr.
  { revert Hcall. unfold cached_ancestors_for, lru_cache.
    destruct (lru_find s (cache_ancestors c)) as [v|] eqn:Hf.
    - intros [= <- <-]. symmetry. by apply Ha, lru_find_elem.
    - destruct (ancestors_for fuel sm s); by intros [= <- <-]. }
  split; [done|]. split_and!.
  - intros s' v' Hin.
    destruct (lru_cache_entries cache_ancestors set_ancestors
                (λ l c, eq_refl) _ _ _ _ _ _ Hcall Hin) as [(v & -> & [= -> ->])|[?|?]];
      [done|by apply Ha..].
  - revert Hcall. unfold cached_ancestors_for, lru_cache.
    destruct (lru_find s (cache_ancestors c)); [by intros [= <- <-]|].
    destruct (ancestors_for fuel sm s); by intros [= <- <-].
  - revert Hcall. unfold cached_ancestors_for, lru_cache.
    destruct (lru_find s (cache_ancestors c)); [by intros [= <- <-]|].
    destruct (ancestors_for fuel sm s); by intros [= <- <-].
  - revert Hcall. unfold cached_ancestors_for, lru_cache.
    destruct (lru_find s (cache_ancestors c)); [by intros [= <- <-]|].
    destruct (ancestors_for fuel sm s); by intros [= <- <-].
Qed.

Lemma cached_descendants_for_coherent fuel sm s c c1 r :
  coherent fuel sm c → cached_descendants_for fuel sm s c = (c1, r) →
  r = descendants_for fuel sm s ∧ coherent fuel sm c1.
Proof.
  intros (Ha & Hd & Hp & Hl) Hcall.
  assert (r = descendants_for fuel sm s) as Hr.
  { revert Hcall. unfold cached_descendants_for, lru_cache.
    destruct (lru_find s (cache_descendants c)) as [v|] eqn:Hf.
    - intros [= <- <-]. symmetry. by apply Hd, lru_find_elem.
    - destruct (descendants_for fuel sm s); by intros [= <- <-]. }
  split; [done|]. split_and!.
  - revert Hcall. unfold cached_descendants_for, lru_cache.
    destruct (lru_find s (cache_descendants c)); [by intros [= <- <-]|].
    destruct (descendants_for fuel sm s); by intros [= <- <-].
  - intros s' v' Hin.
    destruct (lru_cache_entries cache_descendants set_descendants
                (λ l c, eq_refl) _ _ _ _ _ _ Hcall Hin) as [(v & -> & [= -> ->])|[?|?]];
      [done|by apply Hd..].
  - revert Hcall. unfold cached_descendants_for, lru_cache.
    destruct (lru_find s (cache_descendants c)); [by intros [= <- <-]|].
    destruct (descendants_for fuel sm s); by intros [= <- <-].
  - revert Hcall. unfold cached_descendants_for, lru_cache.
    destruct (lru_find s (cache_descendants c)); [by intros [= <- <-]|].
    destruct (descendants_for fuel sm s); by intros [= <- <-].
Qed.

Lemma cached_depth_of_coherent fuel sm s c c1 r :
  coherent fuel sm c → cached_depth_of fuel sm s c = (c1, r) →
  r = depth_of fuel sm s ∧ coherent fuel sm c1.
Proof.
  intros Hc Hcall.
  set (body := λ (s : option string) (c : Caches),
         match s with
         | None => (c, Ok 0)
         | Some s' =>
             let '(c1, r) := cached_ancestors_for fuel sm s' c in
             (c1, res_bind r (λ ancestors, Ok (length ancestors + 1)))
         end).
  assert (snd (body s c) = depth_of fuel sm s ∧ coherent fuel sm (fst (body s c)))
    as [Hbr Hbc].
  { unfold body. destruct s as [s'|]; [|done].
    destruct (cached_ancestors_for fuel sm s' c) as [c' r'] eqn:E.
    apply cached_ancestors_for_coherent in E as [-> Hc']; done. }
  change (lru_cache cache_depth set_depth body s c = (c1, r)) in Hcall.
  assert (r = depth_of fuel sm s) as Hr.
  { revert Hcall. unfold lru_cache.
    destruct (lru_find s (cache_depth c)) as [v|] eqn:Hf.
    - intros [= <- <-]. symmetry. destruct Hc as (_ & _ & Hp & _).
      by apply Hp, lru_find_elem.
    - destruct (body s c) as [c' r']. simpl in Hbr. subst r'.
      destruct (depth_of fuel sm s); by intros [= <- <-]. }
  split; [done|].
  assert (cache_ancestors c1 = cache_ancestors c ∧
          cache_descendants c1 = cache_descendants c ∧
          cache_lca c1 = cache_lca c
          ∨ cache_ancestors c1 = cache_ancestors (fst (body s c)) ∧
            cache_descendants c1 = cache_descendants (fst (body s c)) ∧
            cache_lca c1 = cache_lca (fst (body s c))) as Hframe.
  { revert Hcall. unfold lru_cache.
    destruct (lru_find s (cache_depth c)); [intros [= <- <-]; by left|].
    destruct (body s c) as [c' [v| |]]; intros [= <- <-]; by right. }
  destruct Hc as (Ha & Hd & Hp & Hl). destruct Hbc as (Ha' & Hd' & Hp' & Hl').
  split_and!.
  - destruct Hframe as [(-> & _ & _)|(-> & _ & _)]; done.
  - destruct Hframe as [(_ & -> & _)|(_ & -> & _)]; done.
  - intros s' v' Hin.
    destruct (lru_cache_entries cache_depth set_depth
                (λ l c, eq_refl) _ _ _ _ _ _ Hcall Hin) as [(v & -> & [= -> ->])|[?|?]];
      [done|by apply Hp|by apply Hp'].
  - destruct Hframe as [(_ & _ & ->)|(_ & _ & ->)]; done.
Qed.

Lemma cached_least_common_ancestor_coherent fuel sm s1 s2 c c1 r :
  coherent fuel sm c →
  cached_least_common_ancestor fuel sm (s1, s2) c = (c1, r) →
  r = least_common_ancestor fuel sm s1 s2 ∧ coherent fuel sm c1.
Proof.
  intros Hc Hcall.
  set (body := λ (k : string * string) (c : Caches),
         let '(s1, s2) := k in
         let '(c1, r1) := cached_ancestors_for fuel sm s1 c in
         match r1 with
         | Ok s1_anc =>
             let '(c2, r2) := cached_ancestors_for fuel sm s2 c1 in
             (c2, res_bind r2 (λ s2_anc, Ok (first_in s1_anc s2_anc)))
         | Raise e => (c1, Raise e)
         | OutOfFuel => (c1, OutOfFuel)
         end).
  assert (snd (body (s1, s2) c) = least_common_ancestor fuel sm s1 s2
          ∧ coherent fuel sm (fst (body (s1, s2) c))) as [Hbr Hbc].
  { unfold body, least_common_ancestor.
    destruct (cached_ancestors_for fuel sm s1 c) as [c' r'] eqn:E1.
    apply cached_ancestors_for_coherent in E1 as [-> Hc']; [|done].
    destruct (ancestors_for fuel sm s1) as [l1| |]; [|done..].
    destruct (cached_ancestors_for fuel sm s2 c') as [c'' r''] eqn:E2.
    apply cached_ancestors_for_coherent in E2 as [-> Hc'']; done. }
  change (lru_cache cache_lca set_lca body (s1, s2) c = (c1, r)) in Hcall.
  assert (r = least_common_ancestor fuel sm s1 s2) as Hr.
  { revert Hcall. unfold lru_cache.
    destruct (lru_find (s1, s2) (cache_lca c)) as [v|] eqn:Hf.
    - intros [= <- <-]. symmetry. destruct Hc as (_ & _ & _ & Hl).
      by apply Hl, lru_find_elem.
    - destruct (body (s1, s2) c) as [c' r']. simpl in Hbr. subst r'.
      destruct (least_common_ancestor fuel sm s1 s2); by intros [= <- <-]. }
  split; [done|].
  assert (cache_ancestors c1 = cache_ancestors c ∧
          cache_descendants c1 = cache_descendants c ∧
          cache_depth c1 = cache_depth c
          ∨ cache_ancestors c1 = cache_ancestors (fst (body (s1, s2) c)) ∧
            cache_descendants c1 = cache_descendants (fst (body (s1, s2) c)) ∧
            cache_depth c1 = cache_depth (fst (body (s1, s2) c))) as Hframe.
  { revert Hcall. unfold lru_cache.
    destruct (lru_find (s1, s2) (cache_lca c)); [intros [= <- <-]; by left|].
    destruct (body (s1, s2) c) as [c' [v| |]]; intros [= <- <-]; by right. }
  destruct Hc as (Ha & Hd & Hp & Hl). destruct Hbc as (Ha' & Hd' & Hp' & Hl').
  split_and!.
  - destruct Hframe as [(-> & _ & _)|(-> & _ & _)]; done.
  - destruct Hframe as [(_ & -> & _)|(_ & -> & _)]; done.
  - destruct Hframe as [(_ & _ & ->)|(_ & _ & ->)]; done.
  - intros k1 k2 v' Hin.
    destruct (lru_cache_entries cache_lca set_lca
                (λ l c, eq_refl) _ _ _ _ _ _ Hcall Hin) as [(v & -> & [= -> -> ->])|[?|?]];
      [done|by apply Hl|by apply Hl'].
Qed.

Lemma lru_find_None {K V : Type} `{EqDecision K} (k : K) (l : list (K * V)) :
  (∀ v, (k, v) ∉ l) → lru_find k l = None.
Proof.
  intros Hno. destruct (lru_find k l) as [v|] eqn:Hf; [|done].
  apply lru_find_elem in Hf. by apply Hno in Hf.
Qed.

(** The result of a decorated call: the stored one if there is one, that
    of the body otherwise. *)
Lemma lru_cache_snd {K V : Type} `{EqDecision K}
    (get : Caches → list (K * V)) (set : list (K * V) → Caches → Caches)
    (body : K → Caches → Caches * res V) (k : K) (c : Caches) :
  snd (lru_cache get set body k c)
  = match lru_find k (get c) with
    | Some v => Ok v
    | None => snd (body k c)
    end.
Proof.
  unfold lru_cache. destruct (lru_find k (get c)); [done|].
  by destruct (body k c) as [c1 [v| |]].
Qed.

(** A call that misses and whose body raises leaves the caches to the
    body. *)
Lemma lru_cache_raise {K V : Type} `{EqDecision K}
    (get : Caches → list (K * V)) (set : list (K * V) → Caches → Caches)
    (body : K → Caches → Caches * res V) (k : K) (c c1 : Caches) (e : exn) :
  lru_find k (get c) = None → body k c = (c1, Raise e) →
  lru_cache get set body k c = (c1, Raise e).
Proof. intros Hf Hb. unfold lru_cache. by rewrite Hf, Hb. Qed.

Lemma cached_ancestors_for_snd fuel sm s c :
  coherent fuel sm c →
  snd (cached_ancestors_for fuel sm s c) = ancestors_for fuel sm s.
Proof.
  intros Hc. destruct (cached_ancestors_for fuel sm s c) as [c1 r] eqn:E.
  by apply cached_ancestors_for_coherent in E as [-> _].
Qed.

Lemma cached_ancestors_for_fst fuel sm s c :
  coherent fuel sm c → coherent fuel sm (fst (cached_ancestors_for fuel sm s c)).
Proof.
  intros Hc. destruct (cached_ancestors_for fuel sm s c) as [c1 r] eqn:E.
  by apply cached_ancestors_for_coherent in E as [_ ?].
Qed.

Lemma cached_descendants_for_snd fuel sm s c :
  coherent fuel sm c →
  snd (cached_descendants_for fuel sm s c) = descendants_for fuel sm s.
Proof.
  intros Hc. destruct (cached_descendants_for fuel sm s c) as [c1 r] eqn:E.
  by apply cached_descendants_for_coherent in E as [-> _].
Qed.

Lemma cached_descendants_for_fst fuel sm s c :
  coherent fuel sm c →
  coherent fuel sm (fst (cached_descendants_for fuel sm s c)).
Proof.
  intros Hc. destruct (cached_descendants_for fuel sm s c) as [c1 r] eqn:E.
  by apply cached_descendants_for_coherent in E as [_ ?].
Qed.

Lemma cached_depth_of_snd fuel sm s c :
  coherent fuel sm c → snd (cached_depth_of fuel sm s c) = depth_of fuel sm s.
Proof.
  intros Hc. destruct (cached_depth_of fuel sm s c) as [c1 r] eqn:E.
  by apply cached_depth_of_coherent in E as [-> _].
Qed.

Lemma cached_depth_of_fst fuel sm s c :
  coherent fuel sm c → coherent fuel sm (fst (cached_depth_of fuel sm s c)).
Proof.
  intros Hc. destruct (cached_depth_of fuel sm s c) as [c1 r] eqn:E.
  by apply cached_depth_of_coherent in E as [_ ?].
Qed.

Lemma cached_least_common_ancestor_snd fuel sm s1 s2 c :
  coherent fuel sm c →
  snd (cached_least_common_ancestor fuel sm (s1, s2) c)
  = least_common_ancestor fuel sm s1 s2.
Proof.
  intros Hc.
  destruct (cached_least_common_ancestor fuel sm (s1, s2) c) as [c1 r] eqn:E.
  by apply cached_least_common_ancestor_coherent in E as [-> _].
Qed.

Lemma cached_least_common_ancestor_fst fuel sm s1 s2 c :
  coherent fuel sm c →
  coherent fuel sm (fst (cached_least_common_ancestor fuel sm (s1, s2) c)).
Proof.
  intros Hc.
  destruct (cached_least_common_ancestor fuel sm (s1, s2) c) as [c1 r] eqn:E.
  by apply cached_least_common_ancestor_coherent in E as [_ ?].
Qed.

(** [leaf_for] on coherent caches: its calls of [descendants_for] return
    what the body computes, so the loop takes the same turns. *)
Lemma cached_leaf_loop_coherent fuel sm sts todo leaves c :
  coherent fuel sm c →
  snd (cached_leaf_loop fuel sm sts todo leaves c)
    = leaf_loop fuel sm sts todo leaves
  ∧ coherent fuel sm (fst (cached_leaf_loop fuel sm sts todo leaves c)).
Proof.
  revert leaves c. induction todo as [|s todo IH]; intros leaves c Hc; [done|].
  cbn [cached_leaf_loop leaf_loop].
  destruct (cached_descendants_for fuel sm s c) as [c1 r] eqn:E.
  apply cached_descendants_for_coherent in E as [-> Hc1]; [|done].
  destruct (descendants_for fuel sm s) as [ds| |]; [|done..].
  simpl. by apply IH.
Qed.

Lemma cached_leaf_for_snd fuel sm sts c :
  coherent fuel sm c →
  snd (cached_leaf_for fuel sm sts c) = leaf_for fuel sm sts.
Proof. intros Hc. by apply cached_leaf_loop_coherent. Qed.

Lemma cached_leaf_for_fst fuel sm sts c :
  coherent fuel sm c → coherent fuel sm (fst (cached_leaf_for fuel sm sts c)).
Proof. intros Hc. by apply cached_leaf_loop_coherent. Qed.

Lemma cached_leaves_of_coherent fuel sm sts c :
  coherent fuel sm c → cached_leaves_of fuel sm c sts = leaves_of fuel sm sts.
Proof.
  intros Hc. unfold cached_leaves_of, leaves_of.
  assert (∀ s, cached_no_descendant_in fuel sm c sts s
               = no_descendant_in fuel sm sts s) as Heq.
  { intros s. unfold cached_no_descendant_in, no_descendant_in.
    by rewrite cached_descendants_for_snd. }
  generalize sts at 2 4. intros l.
  induction l as [|x l IH]; simpl; [done|]. by rewrite Heq, IH.
Qed.

Lemma coherent_caches_W : coherent 9 machine_W caches_W.
Proof.
  unfold caches_W. cbv zeta.
  apply cached_least_common_ancestor_fst, cached_depth_of_fst,
    cached_descendants_for_fst, coherent_no_caches.
Qed.

(** X11. On a coherent cache, and so on the empty one and on any cache
    filled by queries on the registry as it now is, the decorated queries
    return what their bodies compute, and leave the cache coherent. *)
Lemma cached_queries_agree fuel sm c :
  coherent fuel sm c →
  (∀ s, snd (cached_ancestors_for fuel sm s c) = ancestors_for fuel sm s
        ∧ coherent fuel sm (fst (cached_ancestors_for fuel sm s c))) ∧
  (∀ s, snd (cached_descendants_for fuel sm s c) = descendants_for fuel sm s
        ∧ coherent fuel sm (fst (cached_descendants_for fuel sm s c))) ∧
  (∀ s, snd (cached_depth_of fuel sm s c) = depth_of fuel sm s
        ∧ coherent fuel sm (fst (cached_depth_of fuel sm s c))) ∧
  (∀ s1 s2,
     snd (cached_least_common_ancestor fuel sm (s1, s2) c)
       = least_common_ancestor fuel sm s1 s2
     ∧ coherent fuel sm (fst (cached_least_common_ancestor fuel sm (s1, s2) c))).
Proof.
  intros Hc. split_and!.
  - intros s. destruct (cached_ancestors_for fuel sm s c) eqn:E.
    by eapply cached_ancestors_for_coherent.
  - intros s. destruct (cached_descendants_for fuel sm s c) eqn:E.
    by eapply cached_descendants_for_coherent.
  - intros s. destruct (cached_depth_of fuel sm s c) eqn:E.
    by eapply cached_depth_of_coherent.
  - intros s1 s2. destruct (cached_least_common_ancestor fuel sm (s1, s2) c) eqn:E.
    by eapply cached_least_common_ancestor_coherent.
Qed.

(** ** The queries as a program calls them

    The statements below are about the methods, which answer through
    their caches.  The caches [c] and [c'] of the calls are any that are
    coherent with the registry: the empty ones, or those left by earlier
    queries on the registry as it is. *)

(** C2. In a valid registry, with caches filled on that registry,
    [depth_of] returns 0 for the root sentinel [None]; for a registered
    state it returns one more than the length of the list [ancestors_for]
    returns, and that list has each ancestor of the state exactly once: a
    state at depth [d] has exactly [d - 1] ancestors. *)
Theorem depth_of_counts_ancestors fuel sm c c' s :
  valid sm = true → coherent fuel sm c → coherent fuel sm c' →
  registered sm s → size (parent sm) ≤ fuel →
  snd (cached_depth_of fuel sm None c') = Ok 0 ∧
  ∃ l d, snd (cached_ancestors_for fuel sm s c) = Ok l ∧
         snd (cached_depth_of fuel sm (Some s) c') = Ok d ∧
         d = 1 + length l ∧
         NoDup l ∧ (∀ a, a ∈ l ↔ ancestor sm a s) ∧
         length l = d - 1.
Proof.
  intros Hv Hc Hc' Hs Hfuel.
  rewrite !cached_depth_of_snd, cached_ancestors_for_snd by done.
  by apply depth_of_counts_ancestors_body.
Qed.

Lemma depth_of_counts_ancestors_witness :
  snd (cached_depth_of 9 machine_W None caches_W) = Ok 0 ∧
  ∃ l d, snd (cached_ancestors_for 9 machine_W "a" no_caches) = Ok l ∧
         snd (cached_depth_of 9 machine_W (Some "a") caches_W) = Ok d ∧
         d = 1 + length l ∧
         NoDup l ∧ (∀ a, a ∈ l ↔ ancestor machine_W a "a") ∧
         length l = d - 1.
Proof.
  apply (depth_of_counts_ancestors 9 machine_W no_caches caches_W "a").
  - vm_compute; reflexivity.
  - apply coherent_no_caches.
  - apply coherent_caches_W.
  - vm_compute; eexists; reflexivity.
  - vm_compute; lia.
Defined.

(** C1. In a valid registry, with caches filled on that registry, for
    registered [s1] and [s2], [least_common_ancestor] returns the first
    name of the list [ancestors_for s1] returns (nearest ancestor first)
    that occurs in the list [ancestors_for s2] returns; that name is an
    ancestor of both states and every other common ancestor has a strictly
    smaller [depth_of].  It returns [None] exactly when no name is an
    ancestor of both. *)
Theorem least_common_ancestor_deepest fuel sm c c' s1 s2 :
  valid sm = true → coherent fuel sm c → coherent fuel sm c' →
  registered sm s1 → registered sm s2 →
  size (parent sm) ≤ fuel →
  ∃ l1 l2 r,
    snd (cached_ancestors_for fuel sm s1 c) = Ok l1 ∧
    snd (cached_ancestors_for fuel sm s2 c) = Ok l2 ∧
    snd (cached_least_common_ancestor fuel sm (s1, s2) c') = Ok r ∧
    match r with
    | Some a =>
        (∃ pre post, l1 = pre ++ a :: post ∧ (∀ x, x ∈ pre → x ∉ l2)) ∧
        a ∈ l2 ∧
        ancestor sm a s1 ∧ ancestor sm a s2 ∧
        ∀ x, ancestor sm x s1 → ancestor sm x s2 →
          ∃ da dx, snd (cached_depth_of fuel sm (Some a) c') = Ok da ∧
                   snd (cached_depth_of fuel sm (Some x) c') = Ok dx ∧
                   dx ≤ da ∧ (x ≠ a → dx < da)
    | None =>
        (∀ x, x ∈ l1 → x ∉ l2) ∧
        ∀ x, ¬ (ancestor sm x s1 ∧ ancestor sm x s2)
    end.
Proof.
  intros Hv Hc Hc' Hs1 Hs2 Hfuel.
  destruct (least_common_ancestor_deepest_body fuel sm s1 s2 Hv Hs1 Hs2 Hfuel)
    as (l1 & l2 & r & H1 & H2 & H3 & H4).
  exists l1, l2, r.
  rewrite !cached_ancestors_for_snd, cached_least_common_ancestor_snd by done.
  split_and!; [done..|].
  destruct r as [a|]; [|done].
  destruct H4 as (Hfirst & Hin & Ha1 & Ha2 & Hdeep). split_and!; [done..|].
  intros x Hx1 Hx2. destruct (Hdeep x Hx1 Hx2) as (da & dx & Hda & Hdx & Hle & Hlt).
  exists da, dx. by rewrite !cached_depth_of_snd.
Qed.

Lemma least_common_ancestor_deepest_witness :
  ∃ l1 l2 r,
    snd (cached_ancestors_for 9 machine_W "a" no_caches) = Ok l1 ∧
    snd (cached_ancestors_for 9 machine_W "d" no_caches) = Ok l2 ∧
    snd (cached_least_common_ancestor 9 machine_W ("a", "d") caches_W) = Ok r ∧
    match r with
    | Some a =>
        (∃ pre post, l1 = pre ++ a :: post ∧ (∀ x, x ∈ pre → x ∉ l2)) ∧
        a ∈ l2 ∧
        ancestor machine_W a "a" ∧ ancestor machine_W a "d" ∧
        ∀ x, ancestor machine_W x "a" → ancestor machine_W x "d" →
          ∃ da dx, snd (cached_depth_of 9 machine_W (Some a) caches_W) = Ok da ∧
                   snd (cached_depth_of 9 machine_W (Some x) caches_W) = Ok dx ∧
                   dx ≤ da ∧ (x ≠ a → dx < da)
    | None =>
        (∀ x, x ∈ l1 → x ∉ l2) ∧
        ∀ x, ¬ (ancestor machine_W x "a" ∧ ancestor machine_W x "d")
    end.
Proof.
  apply (least_common_ancestor_deepest 9 machine_W no_caches caches_W "a" "d").
  - vm_compute; reflexivity.
  - apply coherent_no_caches.
  - apply coherent_caches_W.
  - vm_compute; eexists; reflexivity.
  - vm_compute; eexists; reflexivity.
  - vm_compute; lia.
Defined.

(** C5. In a valid registry, with caches filled on that registry,
    [least_common_ancestor] is symmetric on registered states, also when
    the two calls are made one after the other, and
    [least_common_ancestor s s] is the first element of the list
    [ancestors_for s] returns, or [None] when that list is empty. *)
Theorem least_common_ancestor_symmetric fuel sm c c' a b :
  valid sm = true → coherent fuel sm c → coherent fuel sm c' →
  registered sm a → registered sm b →
  size (parent sm) ≤ fuel →
  snd (cached_least_common_ancestor fuel sm (a, b) c)
    = snd (cached_least_common_ancestor fuel sm (b, a) c') ∧
  snd (cached_least_common_ancestor fuel sm (a, b) c)
    = snd (cached_least_common_ancestor fuel sm (b, a)
             (fst (cached_least_common_ancestor fuel sm (a, b) c))) ∧
  (∃ r, snd (cached_least_common_ancestor fuel sm (a, b) c) = Ok r) ∧
  ∃ l, snd (cached_ancestors_for fuel sm a c') = Ok l ∧
       snd (cached_least_common_ancestor fuel sm (a, a) c) = Ok (head l).
Proof.
  intros Hv Hc Hc' Ha Hb Hfuel.
  destruct (least_common_ancestor_symmetric_body fuel sm a b Hv Ha Hb Hfuel)
    as (Hsym & Hret & Hself).
  pose proof (cached_least_common_ancestor_fst fuel sm a b c Hc) as Hc1.
  rewrite !cached_least_common_ancestor_snd, cached_ancestors_for_snd by done.
  done.
Qed.

Lemma least_common_ancestor_symmetric_witness :
  snd (cached_least_common_ancestor 9 machine_W ("a", "d") no_caches)
    = snd (cached_least_common_ancestor 9 machine_W ("d", "a") caches_W) ∧
  snd (cached_least_common_ancestor 9 machine_W ("a", "d") no_caches)
    = snd (cached_least_common_ancestor 9 machine_W ("d", "a")
             (fst (cached_least_common_ancestor 9 machine_W ("a", "d")
                     no_caches))) ∧
  (∃ r, snd (cached_least_common_ancestor 9 machine_W ("a", "d") no_caches)
        = Ok r) ∧
  ∃ l, snd (cached_ancestors_for 9 machine_W "a" caches_W) = Ok l ∧
       snd (cached_least_common_ancestor 9 machine_W ("a", "a") no_caches)
       = Ok (head l).
Proof.
  apply (least_common_ancestor_symmetric 9 machine_W no_caches caches_W "a" "d").
  - vm_compute; reflexivity.
  - apply coherent_no_caches.
  - apply coherent_caches_W.
  - vm_compute; eexists; reflexivity.
  - vm_compute; eexists; reflexivity.
  - vm_compute; lia.
Defined.

(** C3. In a valid registry, with caches filled on that registry, for a
    registered state [s], [descendants_for] returns exactly the states that
    have [s] as an ancestor, in breadth-first order: the children of [s],
    then the children of each listed state in turn.  The list is ordered by
    increasing [depth_of], every entry is deeper than [s], there is no
    duplicate, [s] is not in it, and it is empty when [s] is not a
    composite state (a basic, final or history state). *)
Theorem descendants_for_breadth_first fuel sm c c' s :
  valid sm = true → coherent fuel sm c → coherent fuel sm c' →
  registered sm s → size (states sm) < fuel →
  ∃ ds,
    snd (cached_descendants_for fuel sm s c) = Ok ds ∧
    (∀ d, d ∈ ds ↔ ancestor sm s d) ∧
    ds = kids sm s ++ (ds ≫= kids sm) ∧
    (∀ i j x y, i < j → ds !! i = Some x → ds !! j = Some y →
       ∃ d0 dx dy, snd (cached_depth_of fuel sm (Some s) c') = Ok d0 ∧
                   snd (cached_depth_of fuel sm (Some x) c') = Ok dx ∧
                   snd (cached_depth_of fuel sm (Some y) c') = Ok dy ∧
                   d0 < dx ∧ dx ≤ dy) ∧
    (∀ x, x ∈ ds →
       ∃ d0 dx, snd (cached_depth_of fuel sm (Some s) c') = Ok d0 ∧
                snd (cached_depth_of fuel sm (Some x) c') = Ok dx ∧ d0 < dx) ∧
    NoDup ds ∧ (s ∉ ds) ∧
    (∀ st, states sm !! s = Some st → composite st = false → ds = []).
Proof.
  intros Hv Hc Hc' Hs Hfuel.
  destruct (descendants_for_breadth_first_body fuel sm s Hv Hs Hfuel)
    as (ds & Hds & Hin & Hbfs & Hsorted & Hdeeper & Hnd & Hnot & Hleaf).
  exists ds. rewrite cached_descendants_for_snd by done.
  split_and!; [done..| | |done|done|done].
  - intros i j x y Hij Hi Hj.
    destruct (Hsorted i j x y Hij Hi Hj) as (d0 & dx & dy & ? & ? & ? & ? & ?).
    exists d0, dx, dy. by rewrite !cached_depth_of_snd.
  - intros x Hx. destruct (Hdeeper x Hx) as (d0 & dx & ? & ? & ?).
    exists d0, dx. by rewrite !cached_depth_of_snd.
Qed.

Lemma descendants_for_breadth_first_witness :
  ∃ ds,
    snd (cached_descendants_for 9 machine_W "O" caches_W) = Ok ds ∧
    (∀ d, d ∈ ds ↔ ancestor machine_W "O" d) ∧
    ds = kids machine_W "O" ++ (ds ≫= kids machine_W) ∧
    (∀ i j x y, i < j → ds !! i = Some x → ds !! j = Some y →
       ∃ d0 dx dy, snd (cached_depth_of 9 machine_W (Some "O") no_caches) = Ok d0 ∧
                   snd (cached_depth_of 9 machine_W (Some x) no_caches) = Ok dx ∧
                   snd (cached_depth_of 9 machine_W (Some y) no_caches) = Ok dy ∧
                   d0 < dx ∧ dx ≤ dy) ∧
    (∀ x, x ∈ ds →
       ∃ d0 dx, snd (cached_depth_of 9 machine_W (Some "O") no_caches) = Ok d0 ∧
                snd (cached_depth_of 9 machine_W (Some x) no_caches) = Ok dx ∧
                d0 < dx) ∧
    NoDup ds ∧ ("O" ∉ ds) ∧
    (∀ st, states machine_W !! "O" = Some st → composite st = false → ds = []).
Proof.
  apply (descendants_for_breadth_first 9 machine_W caches_W no_caches "O").
  - vm_compute; reflexivity.
  - apply coherent_caches_W.
  - apply coherent_no_caches.
  - vm_compute; eexists; reflexivity.
  - vm_compute; lia.
Defined.

(** C4. In a valid registry, with caches filled on that registry, for a
    list of registered names, [leaf_for] returns the members of the list,
    in order, that have no descendant (per [descendants_for]) in the list,
    and [leaf_for] of its own result gives that result back, also when the
    second call follows the first. *)
Theorem leaf_for_exact_idempotent fuel sm c c' sts :
  valid sm = true → coherent fuel sm c → coherent fuel sm c' →
  (∀ s, s ∈ sts → registered sm s) →
  size (states sm) < fuel →
  ∃ leaves,
    snd (cached_leaf_for fuel sm sts c) = Ok leaves ∧
    leaves = cached_leaves_of fuel sm c' sts ∧
    (∀ s, s ∈ leaves ↔ s ∈ sts ∧ ∀ d, ancestor sm s d → d ∉ sts) ∧
    snd (cached_leaf_for fuel sm leaves c') = Ok leaves ∧
    snd (cached_leaf_for fuel sm leaves (fst (cached_leaf_for fuel sm sts c)))
      = Ok leaves.
Proof.
  intros Hv Hc Hc' Hreg Hfuel.
  destruct (leaf_for_exact_idempotent_body fuel sm sts Hv Hreg Hfuel)
    as (leaves & Hl & Heq & Hin & Hidem).
  pose proof (cached_leaf_for_fst fuel sm sts c Hc) as Hc1.
  exists leaves.
  rewrite !cached_leaf_for_snd, cached_leaves_of_coherent by done.
  done.
Qed.

Lemma leaf_for_exact_idempotent_witness :
  ∃ leaves,
    snd (cached_leaf_for 9 machine_W ["O"; "R1"; "d"] no_caches) = Ok leaves ∧
    leaves = cached_leaves_of 9 machine_W caches_W ["O"; "R1"; "d"] ∧
    (∀ s, s ∈ leaves ↔
          s ∈ ["O"; "R1"; "d"] ∧
          ∀ d, ancestor machine_W s d → d ∉ ["O"; "R1"; "d"]) ∧
    snd (cached_leaf_for 9 machine_W leaves caches_W) = Ok leaves ∧
    snd (cached_leaf_for 9 machine_W leaves
           (fst (cached_leaf_for 9 machine_W ["O"; "R1"; "d"] no_caches)))
      = Ok leaves.
Proof.
  apply (leaf_for_exact_idempotent 9 machine_W no_caches caches_W
           ["O"; "R1"; "d"]).
  - vm_compute; reflexivity.
  - apply coherent_no_caches.
  - apply coherent_caches_W.
  - intros s Hs. repeat (apply elem_of_cons in Hs as [->|Hs]);
      [vm_compute; eexists; reflexivity..|by apply elem_of_nil in Hs].
  - vm_compute; lia.
Defined.

(** ** A registration after a query *)

(** C9.  The code lets a registration follow a query and then answers
    from its cache.  With only [A] registered, [descendants_for "A"]
    returns the empty list and caches it.  Registering [A1] below [A] is
    accepted and gives a valid registry in which [A1] descends from [A]: a
    call that does not find a cached result returns [["A1"]].  But the
    method still returns the empty list, and [leaf_for] of [A] and [A1]
    keeps [A], a state that has a descendant in the list. *)
Theorem cached_descendants_for_stale :
  let w0 := mkWorld machine_A no_caches in
  let w1 := fst (query (cached_descendants_for 9) w0 "A") in
  let w2 := fst (register w1 (RegisterState (new_BasicState "A1" None None)
                                (PName "A"))) in
  snd (query (cached_descendants_for 9) w0 "A") = Ok [] ∧
  snd (register w1 (RegisterState (new_BasicState "A1" None None) (PName "A")))
    = Ok tt ∧
  registry w2 = machine_A1 ∧
  valid (registry w2) = true ∧
  descendants_for 9 (registry w2) "A" = Ok ["A1"] ∧
  snd (query (cached_descendants_for 9) (mkWorld (registry w2) no_caches) "A")
    = Ok ["A1"] ∧
  snd (query (cached_descendants_for 9) w2 "A") = Ok [] ∧
  snd (query (cached_leaf_for 9) (mkWorld (registry w2) no_caches) ["A"; "A1"])
    = Ok ["A1"] ∧
  snd (query (cached_leaf_for 9) w2 ["A"; "A1"]) = Ok ["A"; "A1"].
Proof. split_and!; vm_compute; reflexivity. Qed.

Lemma register_caches w m : caches (fst (register w m)) = caches w.
Proof.
  destruct m as [st p|t]; simpl.
  - by destruct (register_state (registry w) st p).
  - by destruct (register_transition (registry w) t).
Qed.

Lemma register_all_caches w ms : caches (register_all w ms) = caches w.
Proof.
  revert w. induction ms as [|m ms IH]; intros w; simpl; [done|].
  unfold register_all in IH. by rewrite IH, register_caches.
Qed.

Lemma query_repeat {K V : Type} `{EqDecision K}
    (get : Caches → list (K * V)) (set : list (K * V) → Caches → Caches)
    (body body' : StateMachine → K → Caches → Caches * res V)
    (w w1 : World) (ms : list registration) (k : K) (v : V) :
  (∀ l c, get (set l c) = l) →
  query (λ sm, lru_cache get set (body sm)) w k = (w1, Ok v) →
  snd (query (λ sm, lru_cache get set (body' sm)) (register_all w1 ms) k) = Ok v.
Proof.
  intros Hgs. unfold query.
  destruct (lru_cache get set (body (registry w)) k (caches w)) as [c1 r] eqn:Hq.
  intros [= <- ->]. rewrite register_all_caches. simpl.
  rewrite (lru_cache_hit get set _ k v c1); [done|].
  by eapply lru_cache_stored.
Qed.

(** X19. A registration is carried out whatever has been queried before,
    and it leaves every cache as it is.  So once one of the four decorated
    queries has returned a result for an argument, calling it again with
    that argument returns the same result, whichever registrations [ms]
    have been made in between and whatever the registry has become. *)
Theorem cached_result_outlives_registration
    (fuel fuel' : nat) (w : World) (ms : list registration) :
  (∀ m, caches (fst (register w m)) = caches w ∧
        match m with
        | RegisterState st p =>
            (registry (fst (register w m)), snd (register w m))
            = register_state (registry w) st p
        | RegisterTransition t =>
            (registry (fst (register w m)), snd (register w m))
            = register_transition (registry w) t
        end) ∧
  (∀ s v w1, query (cached_ancestors_for fuel) w s = (w1, Ok v) →
     snd (query (cached_ancestors_for fuel') (register_all w1 ms) s) = Ok v) ∧
  (∀ s v w1, query (cached_descendants_for fuel) w s = (w1, Ok v) →
     snd (query (cached_descendants_for fuel') (register_all w1 ms) s) = Ok v) ∧
  (∀ s v w1, query (cached_depth_of fuel) w s = (w1, Ok v) →
     snd (query (cached_depth_of fuel') (register_all w1 ms) s) = Ok v) ∧
  (∀ s1 s2 v w1,
     query (cached_least_common_ancestor fuel) w (s1, s2) = (w1, Ok v) →
     snd (query (cached_least_common_ancestor fuel') (register_all w1 ms) (s1, s2))
     = Ok v).
Proof.
  split_and!.
  - intros m. split; [apply register_caches|].
    destruct m as [st p|t]; simpl.
    + by destruct (register_state (registry w) st p).
    + by destruct (register_transition (registry w) t).
  - intros s v w1. by apply (query_repeat cache_ancestors set_ancestors).
  - intros s v w1. by apply (query_repeat cache_descendants set_descendants).
  - intros s v w1. by apply (query_repeat cache_depth set_depth).
  - intros s1 s2 v w1. by apply (query_repeat cache_lca set_lca).
Qed.

(** ** The dictionary projection *)

Lemma State_to_dict_states owner st r :
  dict_get "states" (State_to_dict owner st) = Some (VRef r) →
  r = ChildrenOf owner.
Proof.
  destruct st as [n en ex trs|n i en ex trs chs|n en ex trs chs|n i deep mem|n en ex];
    unfold State_to_dict, ActionStateMixin_to_dict, TransitionStateMixin_to_dict,
      opt_entry;
    repeat case_match; simpl; intros Hget; by simplify_eq.
Qed.

Lemma assign_top_other h owner i v : top (assign h (ChildrenOf owner) i v) = top h.
Proof. done. Qed.

Lemma expand_top_other k sm owner i h stack :
  top (expand k sm (ChildrenOf owner) i h stack).1.1 = top h.
Proof.
  revert i h stack. induction k as [|k IH]; intros i h stack; simpl; [done|].
  repeat case_match; simpl; try done; by rewrite IH.
Qed.

Lemma expand_stack k sm r i h stack :
  Forall (λ r', r' ≠ TopList) stack →
  Forall (λ r', r' ≠ TopList) (expand k sm r i h stack).1.2.
Proof.
  revert i h stack. induction k as [|k IH]; intros i h stack Hst; simpl; [done|].
  destruct (deref h r !! i) as [[s| | | |]|]; simpl; try done.
  destruct (states sm !! s) as [st|]; simpl; [|done].
  apply IH.
  destruct (dict_get "states" (State_to_dict s st)) as [[| | | |r']|] eqn:Hd; try done.
  apply State_to_dict_states in Hd as ->.
  case_match; [|done]. by constructor.
Qed.

Lemma to_dict_loop_top fuel sm stack h :
  Forall (λ r', r' ≠ TopList) stack →
  top (to_dict_loop fuel sm stack h).1 = top h.
Proof.
  revert stack h. induction fuel as [|fuel IH]; intros stack h Hst.
  - by destruct stack.
  - destruct stack as [|r stack']; simpl; [done|].
    apply Forall_cons in Hst as [Hr Hst'].
    destruct r as [|owner]; [done|].
    pose proof (expand_top_other (length (deref h (ChildrenOf owner))) sm owner 0 h stack') as Htop.
    pose proof (expand_stack (length (deref h (ChildrenOf owner))) sm (ChildrenOf owner) 0 h stack' Hst') as Hstk.
    destruct (expand _ sm (ChildrenOf owner) 0 h stack') as [[h1 stack1] out].
    simpl in Htop, Hstk. destruct out; simpl; [|done..].
    by rewrite IH.
Qed.

(** A pass over the top-level list leaves the items before its index as
    they are. *)
Lemma expand_top_before k sm i h stack h1 stack1 j :
  expand k sm TopList i h stack = (h1, stack1, Ok tt) →
  j < i → top h1 !! j = top h !! j.
Proof.
  revert i h stack. induction k as [|k IH]; intros i h stack; simpl.
  - by intros [= <- <-].
  - destruct (top h !! i) as [[s| | | |]|]; try done; [|by intros [= <- <-]].
    destruct (states sm !! s); [|done].
    intros Hex Hj. rewrite (IH _ _ _ Hex); [|lia].
    simpl. apply list_lookup_insert_ne. lia.
Qed.

(** A pass over the top-level list that comes to its end has put a
    dictionary at every index it went through. *)
Lemma expand_top_dicts k sm i h stack h1 stack1 :
  expand k sm TopList i h stack = (h1, stack1, Ok tt) →
  length (top h) ≤ i + k →
  length (top h1) = length (top h) ∧
  ∀ j, i ≤ j → j < length (top h) → ∃ d, top h1 !! j = Some (VDict d).
Proof.
  revert i h stack. induction k as [|k IH]; intros i h stack; simpl.
  - intros [= <- <-] Hlen. split; [done|]. intros j ? ?. lia.
  - destruct (top h !! i) as [v|] eqn:Hi.
    + destruct v as [s| | | |]; try done.
      destruct (states sm !! s) as [st|]; [|done].
      intros Hex Hlen. pose proof Hex as Hex'.
      apply IH in Hex' as [Hl Hd]; simpl in *; [|rewrite length_insert; lia].
      rewrite length_insert in Hl, Hd. split; [done|].
      intros j Hij Hj. destruct (decide (j = i)) as [->|Hne].
      * rewrite (expand_top_before _ _ _ _ _ _ _ i Hex); [|lia].
        simpl. rewrite list_lookup_insert_eq; [eauto|done].
      * apply Hd; lia.
    + intros [= <- <-] Hlen. split; [done|]. intros j Hij Hj.
      apply lookup_ge_None in Hi. lia.
Qed.

(** Whenever [to_dict] returns, every item of the machine's top-level list
    has been replaced by a dictionary. *)
Lemma to_dict_rewrites_top fuel sm h h' v :
  to_dict fuel sm h = (h', Ok v) →
  length (top h') = length (top h) ∧
  ∀ j, j < length (top h) → ∃ d, top h' !! j = Some (VDict d).
Proof.
  unfold to_dict.
  destruct (to_dict_loop fuel sm [TopList] h) as [h0 out] eqn:Hloop.
  destruct out as [[]| |]; simpl; [|done..]. intros [= <- _].
  destruct fuel as [|fuel]; [done|]. simpl in Hloop.
  destruct (expand (length (top h)) sm TopList 0 h []) as [[h1 stack1] out] eqn:Hex.
  pose proof (expand_stack (length (top h)) sm TopList 0 h []
                (Forall_nil_2 _)) as Hstk.
  rewrite Hex in Hstk. simpl in Hstk.
  destruct out as [[]| |]; [|by injection Hloop as <- ?..].
  pose proof (to_dict_loop_top fuel sm stack1 h1 Hstk) as Htop.
  rewrite Hloop in Htop. simpl in Htop. rewrite Htop.
  apply expand_top_dicts in Hex as [Hl Hd]; [|lia].
  split; [done|]. intros j Hj. apply Hd; lia.
Qed.

Lemma to_dict_changes_top fuel sm h' v :
  to_dict fuel sm (store_of sm) = (h', Ok v) → children sm ≠ [] →
  top h' ≠ top (store_of sm).
Proof.
  intros Hd Hne Heq. apply to_dict_rewrites_top in Hd as [_ Hd].
  destruct (children sm) as [|c cs] eqn:Hc; [done|].
  destruct (Hd 0) as [d Hd0].
  { unfold store_of. rewrite Hc. simpl. lia. }
  rewrite Heq in Hd0. unfold store_of in Hd0. rewrite Hc in Hd0. done.
Qed.

(** C10, at machine [M].  Before the call the top-level list is [["A"]] and
    the children of [A] are [["A1"; "A2"]].  [to_dict] returns, and
    afterwards both lists hold the dictionaries of these states instead of
    their names; a second call then raises [TypeError], because it finds a
    dictionary where it looks for a name. *)
Theorem to_dict_overwrites_children :
  top (store_of machine_M) = [VStr "A"] ∧
  owned (store_of machine_M) !! "A" = Some [VStr "A1"; VStr "A2"] ∧
  snd (to_dict 9 machine_M (store_of machine_M))
    = Ok (VDict [("statemachine",
                  VDict [("name", VStr "M"); ("initial", VStr "A");
                         ("states", VRef TopList)])]) ∧
  top (fst (to_dict 9 machine_M (store_of machine_M)))
    = [VDict [("name", VStr "A"); ("initial", VStr "A1");
              ("states", VRef (ChildrenOf "A"))]] ∧
  owned (fst (to_dict 9 machine_M (store_of machine_M))) !! "A"
    = Some [VDict [("name", VStr "A1");
                   ("transitions",
                    VList [VDict [("target", VStr "A2");
                                  ("event", VDict [("name", VStr "go")])]])];
            VDict [("name", VStr "A2")]] ∧
  snd (to_dict 9 machine_M (fst (to_dict 9 machine_M (store_of machine_M))))
    = Raise TypeError.
Proof. split_and!; vm_compute; reflexivity. Qed.

(** ** The scenarios of the specification *)

Example scenario_M :
  snd (cached_ancestors_for 9 machine_M "A1" no_caches) = Ok ["A"] ∧
  snd (cached_descendants_for 9 machine_M "A" no_caches) = Ok ["A1"; "A2"] ∧
  snd (cached_least_common_ancestor 9 machine_M ("A1", "A2") no_caches)
    = Ok (Some "A") ∧
  snd (cached_depth_of 9 machine_M (Some "A1") no_caches) = Ok 2.
Proof. split_and!; vm_compute; reflexivity. Qed.

Example scenario_W :
  snd (cached_leaf_for 9 machine_W ["O"; "R1"] no_caches) = Ok ["R1"].
Proof. vm_compute; reflexivity. Qed.

Example scenario_errors :
  snd (register_transition machine_M transition_Z) = Raise KeyError ∧
  Transition_init "A1" None None None None = Raise ValueError.
Proof. split; vm_compute; reflexivity. Qed.

(** Validity is not a formality: [register_state] accepts a state that is
    its own parent, and on the resulting registry the loop of
    [ancestors_for] never ends, nor does that of [descendants_for], which
    finds [X] among the children of [X] again and again. *)
Lemma ancestors_for_cycle fuel : ancestors_for fuel machine_L "X" = OutOfFuel.
Proof.
  assert (parent machine_L !! "X" = Some (Some "X")) as Hp
    by (vm_compute; reflexivity).
  unfold ancestors_for. rewrite Hp. generalize (@nil string).
  remember machine_L as sm eqn:Hsm. clear Hsm.
  induction fuel as [|fuel IH]; intros acc; simpl; [done|].
  rewrite Hp. apply IH.
Qed.

Lemma descendants_for_cycle fuel : descendants_for fuel machine_L "X" = OutOfFuel.
Proof.
  assert (states machine_L !! "X"
          = Some (CompoundState "X" "X" None None [] ["X"])) as Hs
    by (vm_compute; reflexivity).
  unfold descendants_for. remember machine_L as sm eqn:Hsm. clear Hsm.
  assert (∀ acc, descendants_loop fuel sm ["X"] acc = OutOfFuel) as H; [|apply H].
  induction fuel as [|fuel IH]; intros acc; simpl; [done|].
  rewrite Hs. simpl. apply IH.
Qed.

(** * Further properties *)

(** ** Building *)

(** X1. A machine that [StateMachine.__init__] has just made is a valid
    registry, and registrations keep it valid as long as every state comes
    as a fresh object under a fresh name with a parent that is absent or an
    already registered composite state.  Transitions may be registered in
    between, also when [register_transition] raises. *)
Theorem built_registry_valid (w : World) (ms : list registration) :
  valid (registry w) = true → well_ordered_all (registry w) ms →
  valid (registry (register_all w ms)) = true ∧
  caches (register_all w ms) = caches w.
Proof.
  intros Hv Hms. split; [|apply register_all_caches].
  revert w Hv Hms. induction ms as [|m ms IH]; intros w Hv Hms; [done|].
  change (register_all w (m :: ms)) with (register_all (fst (register w m)) ms).
  destruct m as [st p|t]; simpl in Hms.
  - destruct Hms as [Hst Hms]. apply IH.
    + simpl. destruct (register_state (registry w) st p) as [sm' r] eqn:E. simpl.
      change sm' with (fst (sm', r)). rewrite <- E. by apply register_state_valid.
    + simpl. destruct (register_state (registry w) st p) as [sm' r] eqn:E. done.
  - apply IH.
    + simpl. destruct (register_transition (registry w) t) as [sm' r] eqn:E. simpl.
      change sm' with (fst (sm', r)). rewrite <- E. by apply register_transition_valid.
    + simpl. destruct (register_transition (registry w) t) as [sm' r] eqn:E. done.
Qed.

Lemma built_registry_valid_witness :
  valid (registry (register_all
                     (mkWorld (StateMachine_init "W" "O" None) no_caches) build_W))
    = true ∧
  caches (register_all (mkWorld (StateMachine_init "W" "O" None) no_caches) build_W)
    = no_caches.
Proof.
  apply (built_registry_valid
           (mkWorld (StateMachine_init "W" "O" None) no_caches) build_W).
  - apply valid_init.
  - vm_compute.
    repeat (split; try reflexivity; try discriminate;
            try (eexists; split; reflexivity)).
Defined.

(** ** A registration seen through the queries *)

Lemma ancestors_for_fresh fuel sm sm' n pp s l :
  parent sm !! n = None → parent sm' = <[n := pp]> (parent sm) →
  ancestors_for fuel sm s = Ok l → ancestors_for fuel sm' s = Ok l.
Proof.
  intros Hn Hp'. rewrite !ancestors_for_path. intros (par & Hs & Hl & Hlen).
  exists par. split_and!; [|by eapply path_fresh|done].
  rewrite Hp', lookup_insert_ne; [done|]. intros ->. congruence.
Qed.

Lemma ancestor_fresh sm sm' n pp a d :
  parent sm !! n = None → parent sm' = <[n := pp]> (parent sm) →
  ancestor sm a d → ancestor sm' a d.
Proof.
  intros Hn Hp'.
  assert (∀ s q, parent_of sm s = Some q → parent_of sm' s = Some q) as Hpo.
  { intros s q Hs. unfold parent_of in *. rewrite Hp', lookup_insert_ne; [done|].
    intros ->. by rewrite Hn in Hs. }
  induction 1 as [s q Hs|s q a Hs Ha IH].
  - apply ancestor_parent. by apply Hpo.
  - eapply ancestor_step; [by apply Hpo|done].
Qed.

Lemma ancestor_fresh_inv sm sm' n pp a d :
  parent sm' = <[n := pp]> (parent sm) →
  ancestor sm' a d → d ≠ n → (∀ s, parent_of sm s ≠ Some n) → ancestor sm a d.
Proof.
  intros Hp' Ha. induction Ha as [s q Hs|s q a Hs Ha IH]; intros Hd Hnp.
  - apply ancestor_parent. unfold parent_of in *.
    by rewrite Hp', lookup_insert_ne in Hs.
  - assert (parent_of sm s = Some q) as Hs'.
    { unfold parent_of in *. by rewrite Hp', lookup_insert_ne in Hs. }
    eapply ancestor_step; [done|]. apply IH; [|done].
    intros ->. by apply (Hnp s).
Qed.

Lemma register_state_fields sm st p :
  well_ordered sm st p →
  snd (register_state sm st p) = Ok tt ∧
  parent (fst (register_state sm st p))
    = <[state_name st := parent_name p]> (parent sm) ∧
  states (fst (register_state sm st p)) !! state_name st = Some st.
Proof.
  intros (Hfresh & _ & Hpar). unfold register_state.
  destruct (parent_name p) as [pn|].
  - destruct Hpar as (_ & pst & Hpst & Hcomp).
    assert (pn ≠ state_name st) as Hne by (intros ->; congruence).
    rewrite lookup_insert_ne; [|done]. rewrite Hpst.
    pose proof (add_child_outcome pst (state_name st)) as Hadd.
    destruct (add_child pst (state_name st)) as [pst'|e|];
      [|destruct Hadd as [? _]; congruence|done].
    simpl. split_and!; [done..|].
    rewrite lookup_insert_ne; [|done]. apply lookup_insert_eq.
  - simpl. split_and!; [done..|]. apply lookup_insert_eq.
Qed.

(** The bodies, run on one registry.
    After a well-ordered registration in a valid registry the queries
    show the new state where it was put: it has no descendant; registered
    at the top level it has no ancestor and depth 1; registered below [pn]
    its ancestors are [pn] followed by the ancestors of [pn], its depth is
    one more than that of [pn], and the descendants of [pn] are the former
    ones and the new state.  The ancestors and depths of the states
    registered before are what they were. *)
Lemma register_state_then_query_body fuel sm st p :
  valid sm = true → well_ordered sm st p → size (states sm) + 1 < fuel →
  (∀ s, registered sm s →
     ancestors_for fuel (fst (register_state sm st p)) s = ancestors_for fuel sm s ∧
     depth_of fuel (fst (register_state sm st p)) (Some s)
       = depth_of fuel sm (Some s)) ∧
  descendants_for fuel (fst (register_state sm st p)) (state_name st) = Ok [] ∧
  match parent_name p with
  | None =>
      ancestors_for fuel (fst (register_state sm st p)) (state_name st) = Ok [] ∧
      depth_of fuel (fst (register_state sm st p)) (Some (state_name st)) = Ok 1
  | Some pn =>
      ∃ l ds ds',
        ancestors_for fuel sm pn = Ok l ∧
        ancestors_for fuel (fst (register_state sm st p)) (state_name st)
          = Ok (pn :: l) ∧
        depth_of fuel sm (Some pn) = Ok (length l + 1) ∧
        depth_of fuel (fst (register_state sm st p)) (Some (state_name st))
          = Ok (length l + 2) ∧
        descendants_for fuel sm pn = Ok ds ∧
        descendants_for fuel (fst (register_state sm st p)) pn = Ok ds' ∧
        ∀ d, d ∈ ds' ↔ d = state_name st ∨ d ∈ ds
  end.
Proof.
  intros Hv Hwo Hfuel.
  destruct (register_state_valid sm st p Hv Hwo) as [_ Hv'].
  destruct (register_state_fields sm st p Hwo) as (_ & Hp' & Hst').
  pose proof Hwo as (Hfresh & Hnokids & Hpar).
  assert (parent sm !! state_name st = None) as Hpfresh.
  { destruct (parent sm !! state_name st) as [pp|] eqn:E; [|done].
    assert (registered sm (state_name st)) as [st0 Hst0].
    { apply valid_registered; eauto. }
    congruence. }
  assert (size (parent sm) ≤ fuel) as Hfuel1.
  { rewrite <- (valid_size sm Hv). lia. }
  assert (size (states (fst (register_state sm st p))) < fuel) as Hfuel2.
  { rewrite (valid_size _ Hv'), Hp', map_size_insert_None; [|done].
    rewrite <- (valid_size sm Hv). lia. }
  set (sm' := fst (register_state sm st p)) in *.
  split_and!.
  - intros s Hs.
    destruct (valid_ancestors_for sm s fuel Hv Hs Hfuel1) as (par & l & _ & _ & Ha).
    assert (ancestors_for fuel sm' s = ancestors_for fuel sm s) as Heq.
    { rewrite Ha. by eapply ancestors_for_fresh. }
    split; [done|]. simpl. by rewrite Heq.
  - unfold descendants_for. destruct fuel as [|fuel]; [lia|]. simpl.
    rewrite Hst', Hnokids. simpl. by destruct fuel.
  - destruct (parent_name p) as [pn|] eqn:Hp.
    + destruct Hpar as (Hpn & pst & Hpst & Hcomp).
      assert (registered sm pn) as Hregpn by (by exists pst).
      pose proof Hregpn as Hregpn'.
      apply (valid_registered _ _ Hv) in Hregpn' as [ppn Hppn].
      destruct (valid_path _ _ _ Hv Hppn) as (l & Hl & Hlen).
      assert (pn ≠ state_name st) as Hne by (intros ->; congruence).
      assert (registered sm' pn) as Hregpn2.
      { apply valid_registered; [done|]. rewrite Hp', lookup_insert_ne; eauto. }
      assert (size (states sm) < fuel) as Hfuel3 by lia.
      destruct (valid_descendants_for fuel sm pn Hv Hregpn Hfuel3) as (ds & Hds & _).
      destruct (valid_descendants_for fuel sm' pn Hv' Hregpn2 Hfuel2) as (ds' & Hds' & _).
      assert (ancestors_for fuel sm pn = Ok l) as Hal.
      { apply ancestors_for_path. exists ppn. split_and!; [done..|lia]. }
      assert (ancestors_for fuel sm' (state_name st) = Ok (pn :: l)) as Hal'.
      { apply ancestors_for_path. exists (Some pn). split_and!.
        - by rewrite Hp', lookup_insert_eq.
        - econstructor; [by apply truthy_Some_ne| |by eapply path_fresh].
          by rewrite Hp', lookup_insert_ne.
        - pose proof (valid_size sm Hv). simpl. lia. }
      exists l, ds, ds'. split_and!; [done..| | |done|done|].
      * simpl. by rewrite Hal.
      * simpl. rewrite Hal'. simpl. f_equal. lia.
      * intros d.
        rewrite (descendants_for_ancestor fuel sm' pn ds' d Hv' Hregpn2 Hfuel2 Hds').
        rewrite (descendants_for_ancestor fuel sm pn ds d Hv Hregpn Hfuel3 Hds).
        split.
        -- intros Ha. destruct (decide (d = state_name st)) as [->|Hd]; [by left|].
           right. eapply ancestor_fresh_inv; [done..|].
           intros s Hs. apply (valid_parent_kids _ _ _ Hv) in Hs.
           unfold kids in Hs. rewrite Hfresh in Hs. by apply elem_of_nil in Hs.
        -- intros [->|Ha]; [|by eapply ancestor_fresh].
           apply ancestor_parent. unfold parent_of. rewrite Hp', lookup_insert_eq.
           simpl. by apply truthy_Some_ne.
    + assert (ancestors_for fuel sm' (state_name st) = Ok []) as Hal'.
      { unfold ancestors_for. rewrite Hp', lookup_insert_eq. by destruct fuel. }
      split; [done|]. simpl. by rewrite Hal'.
Qed.


(** A cache filled on [sm] serves [ancestors_for] and [depth_of] on a
    registry that keeps the parent paths of [sm]. *)
Lemma cached_ancestors_for_extend fuel sm sm' s c :
  coherent fuel sm c →
  (∀ x l, ancestors_for fuel sm x = Ok l → ancestors_for fuel sm' x = Ok l) →
  snd (cached_ancestors_for fuel sm' s c) = ancestors_for fuel sm' s.
Proof.
  intros (Ha & _) Hext. unfold cached_ancestors_for. rewrite lru_cache_snd.
  destruct (lru_find s (cache_ancestors c)) as [v|] eqn:Hf; [|done].
  apply lru_find_elem in Hf. symmetry. by apply Hext, Ha.
Qed.

Lemma cached_depth_of_extend fuel sm sm' s c :
  coherent fuel sm c →
  (∀ x l, ancestors_for fuel sm x = Ok l → ancestors_for fuel sm' x = Ok l) →
  snd (cached_depth_of fuel sm' s c) = depth_of fuel sm' s.
Proof.
  intros Hc Hext. unfold cached_depth_of. rewrite lru_cache_snd.
  destruct (lru_find s (cache_depth c)) as [v|] eqn:Hf.
  - apply lru_find_elem in Hf. destruct Hc as (_ & _ & Hp & _). apply Hp in Hf.
    destruct s as [x|]; simpl in *; [|done].
    destruct (ancestors_for fuel sm x) as [l| |] eqn:E; [|done..].
    apply Hext in E. by rewrite E.
  - destruct s as [x|]; [|done].
    pose proof (cached_ancestors_for_extend fuel sm sm' x c Hc Hext) as E.
    destruct (cached_ancestors_for fuel sm' x c) as [c1 r]. simpl in *.
    by rewrite E.
Qed.

(** X2. A well-ordered registration in a valid registry, seen through the
    methods and the caches [c] that earlier queries have left.  The new
    state has no descendant; registered at the top level it has no ancestor
    and depth 1; registered below [pn] its ancestors are [pn] followed by
    the ancestors of [pn] and its depth is one more than that of [pn].  The
    ancestors and depths of the states registered before are what they
    were.  [descendants_for pn] is another matter: a call that finds no
    cached result returns the former descendants and the new state, but if
    [pn] was queried before the registration the method returns the former
    list, without the new state. *)
Theorem register_state_then_query fuel sm c st p :
  valid sm = true → coherent fuel sm c → well_ordered sm st p →
  size (states sm) + 1 < fuel →
  (∀ s, registered sm s →
     snd (cached_ancestors_for fuel (fst (register_state sm st p)) s c)
       = snd (cached_ancestors_for fuel sm s c) ∧
     snd (cached_depth_of fuel (fst (register_state sm st p)) (Some s) c)
       = snd (cached_depth_of fuel sm (Some s) c)) ∧
  snd (cached_descendants_for fuel (fst (register_state sm st p))
         (state_name st) c) = Ok [] ∧
  match parent_name p with
  | None =>
      snd (cached_ancestors_for fuel (fst (register_state sm st p))
             (state_name st) c) = Ok [] ∧
      snd (cached_depth_of fuel (fst (register_state sm st p))
             (Some (state_name st)) c) = Ok 1
  | Some pn =>
      ∃ l ds ds',
        snd (cached_ancestors_for fuel sm pn c) = Ok l ∧
        snd (cached_ancestors_for fuel (fst (register_state sm st p))
               (state_name st) c) = Ok (pn :: l) ∧
        snd (cached_depth_of fuel sm (Some pn) c) = Ok (length l + 1) ∧
        snd (cached_depth_of fuel (fst (register_state sm st p))
               (Some (state_name st)) c) = Ok (length l + 2) ∧
        snd (cached_descendants_for fuel sm pn c) = Ok ds ∧
        (∀ d, d ∈ ds' ↔ d = state_name st ∨ d ∈ ds) ∧
        (∀ c', coherent fuel (fst (register_state sm st p)) c' →
           snd (cached_descendants_for fuel (fst (register_state sm st p)) pn c')
           = Ok ds') ∧
        snd (cached_descendants_for fuel (fst (register_state sm st p)) pn c)
        = Ok match lru_find pn (cache_descendants c) with
             | Some _ => ds
             | None => ds'
             end
  end.
Proof.
  intros Hv Hc Hwo Hfuel.
  destruct (register_state_then_query_body fuel sm st p Hv Hwo Hfuel)
    as (Hold & Hnew & Hpar).
  destruct (register_state_fields sm st p Hwo) as (_ & Hp' & _).
  pose proof Hwo as (Hfresh & _ & _).
  assert (parent sm !! state_name st = None) as Hpfresh.
  { destruct (parent sm !! state_name st) as [pp|] eqn:E; [|done].
    assert (registered sm (state_name st)) as [st0 Hst0].
    { apply valid_registered; eauto. }
    congruence. }
  set (sm' := fst (register_state sm st p)) in *.
  assert (∀ x l, ancestors_for fuel sm x = Ok l → ancestors_for fuel sm' x = Ok l)
    as Hext.
  { intros x l. by apply (ancestors_for_fresh fuel sm sm' (state_name st)
                            (parent_name p)). }
  assert (∀ s, snd (cached_ancestors_for fuel sm' s c) = ancestors_for fuel sm' s)
    as Hanc'.
  { intros s. by apply cached_ancestors_for_extend with sm. }
  assert (∀ s, snd (cached_depth_of fuel sm' s c) = depth_of fuel sm' s) as Hdep'.
  { intros s. by apply cached_depth_of_extend with sm. }
  split_and!.
  - intros s Hs. destruct (Hold s Hs) as [E1 E2].
    by rewrite Hanc', Hdep', (cached_ancestors_for_snd fuel sm s c Hc),
      (cached_depth_of_snd fuel sm (Some s) c Hc).
  - unfold cached_descendants_for. rewrite lru_cache_snd, lru_find_None; [done|].
    intros v Hin. destruct Hc as (_ & Hcd & _). apply Hcd in Hin.
    unfold descendants_for in Hin. destruct fuel as [|fuel]; [lia|].
    simpl in Hin. by rewrite Hfresh in Hin.
  - destruct (parent_name p) as [pn|].
    + destruct Hpar as (l & ds & ds' & Hal & Hal' & Hdl & Hdl' & Hds & Hds' & Hmem).
      exists l, ds, ds'.
      rewrite !Hanc', !Hdep', (cached_ancestors_for_snd fuel sm pn c Hc),
        (cached_depth_of_snd fuel sm (Some pn) c Hc),
        (cached_descendants_for_snd fuel sm pn c Hc).
      split_and!; [done..| |].
      * intros c' Hc'. by rewrite cached_descendants_for_snd.
      * unfold cached_descendants_for. rewrite lru_cache_snd.
        destruct (lru_find pn (cache_descendants c)) as [v|] eqn:Hf; [|done].
        apply lru_find_elem in Hf. destruct Hc as (_ & Hcd & _).
        apply Hcd in Hf. congruence.
    + by rewrite Hanc', Hdep'.
Qed.

Lemma register_state_then_query_witness :
  (∀ s, registered machine_A s →
     snd (cached_ancestors_for 9
            (fst (register_state machine_A (new_BasicState "A1" None None)
                    (PName "A"))) s
            (fst (cached_descendants_for 9 machine_A "A" no_caches)))
       = snd (cached_ancestors_for 9 machine_A s
                (fst (cached_descendants_for 9 machine_A "A" no_caches))) ∧
     snd (cached_depth_of 9
            (fst (register_state machine_A (new_BasicState "A1" None None)
                    (PName "A"))) (Some s)
            (fst (cached_descendants_for 9 machine_A "A" no_caches)))
       = snd (cached_depth_of 9 machine_A (Some s)
                (fst (cached_descendants_for 9 machine_A "A" no_caches)))) ∧
  snd (cached_descendants_for 9
         (fst (register_state machine_A (new_BasicState "A1" None None)
                 (PName "A")))
         (state_name (new_BasicState "A1" None None))
         (fst (cached_descendants_for 9 machine_A "A" no_caches))) = Ok [] ∧
  match parent_name (PName "A") with
  | None =>
      snd (cached_ancestors_for 9
             (fst (register_state machine_A (new_BasicState "A1" None None)
                     (PName "A")))
             (state_name (new_BasicState "A1" None None))
             (fst (cached_descendants_for 9 machine_A "A" no_caches))) = Ok [] ∧
      snd (cached_depth_of 9
             (fst (register_state machine_A (new_BasicState "A1" None None)
                     (PName "A")))
             (Some (state_name (new_BasicState "A1" None None)))
             (fst (cached_descendants_for 9 machine_A "A" no_caches))) = Ok 1
  | Some pn =>
      ∃ l ds ds',
        snd (cached_ancestors_for 9 machine_A pn
               (fst (cached_descendants_for 9 machine_A "A" no_caches))) = Ok l ∧
        snd (cached_ancestors_for 9
               (fst (register_state machine_A (new_BasicState "A1" None None)
                       (PName "A")))
               (state_name (new_BasicState "A1" None None))
               (fst (cached_descendants_for 9 machine_A "A" no_caches)))
          = Ok (pn :: l) ∧
        snd (cached_depth_of 9 machine_A (Some pn)
               (fst (cached_descendants_for 9 machine_A "A" no_caches)))
          = Ok (length l + 1) ∧
        snd (cached_depth_of 9
               (fst (register_state machine_A (new_BasicState "A1" None None)
                       (PName "A")))
               (Some (state_name (new_BasicState "A1" None None)))
               (fst (cached_descendants_for 9 machine_A "A" no_caches)))
          = Ok (length l + 2) ∧
        snd (cached_descendants_for 9 machine_A pn
               (fst (cached_descendants_for 9 machine_A "A" no_caches))) = Ok ds ∧
        (∀ d, d ∈ ds' ↔ d = state_name (new_BasicState "A1" None None) ∨ d ∈ ds) ∧
        (∀ c', coherent 9
                 (fst (register_state machine_A (new_BasicState "A1" None None)
                         (PName "A"))) c' →
           snd (cached_descendants_for 9
                  (fst (register_state machine_A (new_BasicState "A1" None None)
                          (PName "A"))) pn c')
           = Ok ds') ∧
        snd (cached_descendants_for 9
               (fst (register_state machine_A (new_BasicState "A1" None None)
                       (PName "A"))) pn
               (fst (cached_descendants_for 9 machine_A "A" no_caches)))
        = Ok match lru_find pn
                     (cache_descendants
                        (fst (cached_descendants_for 9 machine_A "A" no_caches)))
             with
             | Some _ => ds
             | None => ds'
             end
  end.
Proof.
  apply (register_state_then_query 9 machine_A
           (fst (cached_descendants_for 9 machine_A "A" no_caches))
           (new_BasicState "A1" None None) (PName "A")).
  - vm_compute; reflexivity.
  - apply cached_descendants_for_fst, coherent_no_caches.
  - vm_compute. repeat (split; try reflexivity; try discriminate;
                        try (eexists; split; reflexivity)).
  - vm_compute; lia.
Defined.

(** ** Registrations out of order *)

Lemma valid_false_dangling sm c pn :
  parent sm !! c = Some (Some pn) → pn ≠ "" →
  (∀ pst, states sm !! pn = Some pst → c ∉ state_children pst) →
  valid sm = false.
Proof.
  intros Hc Hpn Hno. destruct (valid sm) eqn:Hv; [exfalso|done].
  pose proof (valid_link_ok _ _ _ Hv Hc) as Hl.
  apply link_ok_iff in Hl as (_ & Hl & _).
  rewrite (truthy_Some_ne pn Hpn) in Hl. destruct Hl as (pst & Hpst & Hin).
  by apply (Hno pst).
Qed.

(** The bodies, run on one registry.
    A state registered under the name of a parent that is not
    registered yet is accepted: [register_state] returns normally, records
    the parent name and appends the state to the top-level list.  On the
    registry it leaves, [ancestors_for], [depth_of] and
    [least_common_ancestor] of the new state raise [KeyError], and the
    registry is not valid. *)
Lemma register_state_before_parent_body fuel sm st p pn :
  parent_name p = Some pn → pn ≠ "" → pn ≠ state_name st →
  states sm !! pn = None → parent sm !! pn = None →
  register_state sm st p
    = (mkStateMachine (name sm) (initial sm) (execute sm)
         (<[state_name st := st]> (states sm)) (transitions sm)
         (<[state_name st := Some pn]> (parent sm))
         (children sm ++ [state_name st]), Ok tt) ∧
  ancestors_for (S fuel) (fst (register_state sm st p)) (state_name st)
    = Raise KeyError ∧
  depth_of (S fuel) (fst (register_state sm st p)) (Some (state_name st))
    = Raise KeyError ∧
  (∀ s2, least_common_ancestor (S fuel) (fst (register_state sm st p))
           (state_name st) s2 = Raise KeyError) ∧
  valid (fst (register_state sm st p)) = false.
Proof.
  intros Hp Hpn Hne Hs Hpar.
  assert (register_state sm st p
    = (mkStateMachine (name sm) (initial sm) (execute sm)
         (<[state_name st := st]> (states sm)) (transitions sm)
         (<[state_name st := Some pn]> (parent sm))
         (children sm ++ [state_name st]), Ok tt)) as Hreg.
  { unfold register_state. rewrite Hp. by rewrite lookup_insert_ne, Hs. }
  rewrite Hreg. simpl.
  assert (ancestors_for (S fuel)
            (mkStateMachine (name sm) (initial sm) (execute sm)
               (<[state_name st := st]> (states sm)) (transitions sm)
               (<[state_name st := Some pn]> (parent sm))
               (children sm ++ [state_name st])) (state_name st)
          = Raise KeyError) as Ha.
  { unfold ancestors_for. simpl. rewrite lookup_insert_eq.
    rewrite (truthy_Some_ne pn Hpn). by rewrite lookup_insert_ne, Hpar. }
  split_and!; [done|done| | |].
  - by rewrite Ha.
  - intros s2. unfold least_common_ancestor. by rewrite Ha.
  - apply (valid_false_dangling _ (state_name st) pn); [|done|].
    + simpl. apply lookup_insert_eq.
    + simpl. intros pst. rewrite lookup_insert_ne; [|done]. by rewrite Hs.
Qed.


(** X3. A state under a new name, registered below the name of a parent
    that is not registered yet, is accepted: [register_state] returns
    normally, records the parent name and appends the state to the
    top-level list.  On the registry it leaves, with the caches that the
    queries made before have left, [ancestors_for], [depth_of] and
    [least_common_ancestor] of the new state raise [KeyError] and store
    nothing, and the registry is not valid. *)
Theorem register_state_before_parent fuel sm c st p pn :
  parent_name p = Some pn → pn ≠ "" → pn ≠ state_name st →
  states sm !! pn = None → parent sm !! pn = None →
  parent sm !! state_name st = None → coherent (S fuel) sm c →
  register_state sm st p
    = (mkStateMachine (name sm) (initial sm) (execute sm)
         (<[state_name st := st]> (states sm)) (transitions sm)
         (<[state_name st := Some pn]> (parent sm))
         (children sm ++ [state_name st]), Ok tt) ∧
  cached_ancestors_for (S fuel) (fst (register_state sm st p)) (state_name st) c
    = (c, Raise KeyError) ∧
  cached_depth_of (S fuel) (fst (register_state sm st p))
    (Some (state_name st)) c = (c, Raise KeyError) ∧
  (∀ s2, cached_least_common_ancestor (S fuel) (fst (register_state sm st p))
           (state_name st, s2) c = (c, Raise KeyError)) ∧
  valid (fst (register_state sm st p)) = false.
Proof.
  intros Hp Hpn Hne Hs Hpar Hn Hc.
  destruct (register_state_before_parent_body fuel sm st p pn Hp Hpn Hne Hs Hpar)
    as (Hreg & Ha & _ & _ & Hv).
  assert (ancestors_for (S fuel) sm (state_name st) = Raise KeyError) as Hold.
  { unfold ancestors_for. by rewrite Hn. }
  set (sm' := fst (register_state sm st p)) in *.
  assert (cached_ancestors_for (S fuel) sm' (state_name st) c
          = (c, Raise KeyError)) as Hca.
  { unfold cached_ancestors_for. apply lru_cache_raise; [|by rewrite Ha].
    apply lru_find_None. intros v Hin. destruct Hc as (Hanc & _).
    apply Hanc in Hin. congruence. }
  split_and!; [done|done| | |done].
  - unfold cached_depth_of. apply lru_cache_raise; [|by rewrite Hca].
    apply lru_find_None. intros v Hin. destruct Hc as (_ & _ & Hdep & _).
    apply Hdep in Hin. simpl in Hin. by rewrite Hold in Hin.
  - intros s2. unfold cached_least_common_ancestor.
    apply lru_cache_raise; [|by rewrite Hca].
    apply lru_find_None. intros v Hin. destruct Hc as (_ & _ & _ & Hlca).
    apply Hlca in Hin. unfold least_common_ancestor in Hin.
    by rewrite Hold in Hin.
Qed.

Lemma register_state_before_parent_witness :
  register_state machine_A (new_BasicState "B1" None None) (PName "B")
    = (mkStateMachine (name machine_A) (initial machine_A) (execute machine_A)
         (<[state_name (new_BasicState "B1" None None)
            := new_BasicState "B1" None None]> (states machine_A))
         (transitions machine_A)
         (<[state_name (new_BasicState "B1" None None) := Some "B"]>
            (parent machine_A))
         (children machine_A ++ [state_name (new_BasicState "B1" None None)]),
       Ok tt) ∧
  cached_ancestors_for 1
    (fst (register_state machine_A (new_BasicState "B1" None None) (PName "B")))
    (state_name (new_BasicState "B1" None None))
    (fst (cached_ancestors_for 1 machine_A "A" no_caches))
    = (fst (cached_ancestors_for 1 machine_A "A" no_caches), Raise KeyError) ∧
  cached_depth_of 1
    (fst (register_state machine_A (new_BasicState "B1" None None) (PName "B")))
    (Some (state_name (new_BasicState "B1" None None)))
    (fst (cached_ancestors_for 1 machine_A "A" no_caches))
    = (fst (cached_ancestors_for 1 machine_A "A" no_caches), Raise KeyError) ∧
  (∀ s2, cached_least_common_ancestor 1
           (fst (register_state machine_A (new_BasicState "B1" None None)
                   (PName "B")))
           (state_name (new_BasicState "B1" None None), s2)
           (fst (cached_ancestors_for 1 machine_A "A" no_caches))
         = (fst (cached_ancestors_for 1 machine_A "A" no_caches),
            Raise KeyError)) ∧
  valid (fst (register_state machine_A (new_BasicState "B1" None None)
                (PName "B"))) = false.
Proof.
  apply (register_state_before_parent 0 machine_A
           (fst (cached_ancestors_for 1 machine_A "A" no_caches))
           (new_BasicState "B1" None None) (PName "B") "B").
  - reflexivity.
  - discriminate.
  - discriminate.
  - vm_compute; reflexivity.
  - vm_compute; reflexivity.
  - vm_compute; reflexivity.
  - apply cached_ancestors_for_fst, coherent_no_caches.
Defined.

(** The bodies, run on one registry.
    Registering the missing parent afterwards does not adopt the
    child.  Both calls return normally; the child stays in the top-level
    list, now followed by the parent; [ancestors_for] of the child is the
    parent, but [descendants_for] of the parent is empty; the registry is
    not valid. *)
Lemma register_parent_after_child_body fuel sm st pst :
  state_name pst ≠ "" → state_name pst ≠ state_name st →
  state_children pst = [] → states sm !! state_name pst = None →
  let sm1 := fst (register_state sm st (PName (state_name pst))) in
  let sm2 := fst (register_state sm1 pst PNone) in
  snd (register_state sm st (PName (state_name pst))) = Ok tt ∧
  snd (register_state sm1 pst PNone) = Ok tt ∧
  children sm2 = children sm ++ [state_name st; state_name pst] ∧
  ancestors_for (S fuel) sm2 (state_name st) = Ok [state_name pst] ∧
  depth_of (S fuel) sm2 (Some (state_name st)) = Ok 2 ∧
  descendants_for (S fuel) sm2 (state_name pst) = Ok [] ∧
  valid sm2 = false.
Proof.
  intros Hpn Hne Hkids Hs. cbv zeta.
  assert (register_state sm st (PName (state_name pst))
    = (mkStateMachine (name sm) (initial sm) (execute sm)
         (<[state_name st := st]> (states sm)) (transitions sm)
         (<[state_name st := Some (state_name pst)]> (parent sm))
         (children sm ++ [state_name st]), Ok tt)) as Hreg.
  { unfold register_state. simpl. by rewrite lookup_insert_ne, Hs. }
  rewrite Hreg. cbn [fst snd].
  assert (register_state
            (mkStateMachine (name sm) (initial sm) (execute sm)
               (<[state_name st := st]> (states sm)) (transitions sm)
               (<[state_name st := Some (state_name pst)]> (parent sm))
               (children sm ++ [state_name st])) pst PNone
    = (mkStateMachine (name sm) (initial sm) (execute sm)
         (<[state_name pst := pst]> (<[state_name st := st]> (states sm)))
         (transitions sm)
         (<[state_name pst := None]>
            (<[state_name st := Some (state_name pst)]> (parent sm)))
         ((children sm ++ [state_name st]) ++ [state_name pst]), Ok tt)) as Hreg2
    by done.
  rewrite Hreg2. cbn [fst snd]. clear Hreg Hreg2.
  set (sm2 := mkStateMachine _ _ _ _ _ _ _).
  assert (ancestors_for (S fuel) sm2 (state_name st) = Ok [state_name pst]) as Ha.
  { unfold ancestors_for, sm2. simpl.
    rewrite lookup_insert_ne, lookup_insert_eq; [|done].
    rewrite (truthy_Some_ne _ Hpn), lookup_insert_eq. by destruct fuel. }
  split_and!; [done|done| |done| | |].
  - unfold sm2. simpl. by rewrite <- app_assoc.
  - simpl. by rewrite Ha.
  - unfold descendants_for, sm2. simpl. rewrite lookup_insert_eq, Hkids. simpl.
    by destruct fuel.
  - apply (valid_false_dangling _ (state_name st) (state_name pst)); [|done|].
    + unfold sm2. simpl. rewrite lookup_insert_ne; [|done]. apply lookup_insert_eq.
    + unfold sm2. simpl. intros pst'. rewrite lookup_insert_eq. intros [= <-].
      rewrite Hkids. apply not_elem_of_nil.
Qed.


(** X4. Registering the missing parent afterwards does not adopt the
    child.  Both calls return normally; the child stays in the top-level
    list, now followed by the parent; with the caches that the queries made
    before the two registrations have left, [ancestors_for] of the child
    returns the parent and its depth is 2, but [descendants_for] of the
    parent returns the empty list; the registry is not valid. *)
Theorem register_parent_after_child fuel sm c st pst :
  state_name pst ≠ "" → state_name pst ≠ state_name st →
  state_children pst = [] → states sm !! state_name pst = None →
  parent sm !! state_name st = None → coherent (S fuel) sm c →
  let sm1 := fst (register_state sm st (PName (state_name pst))) in
  let sm2 := fst (register_state sm1 pst PNone) in
  snd (register_state sm st (PName (state_name pst))) = Ok tt ∧
  snd (register_state sm1 pst PNone) = Ok tt ∧
  children sm2 = children sm ++ [state_name st; state_name pst] ∧
  snd (cached_ancestors_for (S fuel) sm2 (state_name st) c)
    = Ok [state_name pst] ∧
  snd (cached_depth_of (S fuel) sm2 (Some (state_name st)) c) = Ok 2 ∧
  snd (cached_descendants_for (S fuel) sm2 (state_name pst) c) = Ok [] ∧
  valid sm2 = false.
Proof.
  intros Hpn Hne Hkids Hs Hn Hc sm1 sm2.
  pose proof (register_parent_after_child_body fuel sm st pst Hpn Hne Hkids Hs)
    as Hb.
  cbv zeta in Hb. fold sm1 in Hb. fold sm2 in Hb.
  destruct Hb as (Hr1 & Hr2 & Hch & Ha & Hd & Hdesc & Hv).
  assert (ancestors_for (S fuel) sm (state_name st) = Raise KeyError) as Hold.
  { unfold ancestors_for. by rewrite Hn. }
  assert (snd (cached_ancestors_for (S fuel) sm2 (state_name st) c)
          = Ok [state_name pst]) as Hca.
  { unfold cached_ancestors_for. rewrite lru_cache_snd, lru_find_None; [done|].
    intros v Hin. destruct Hc as (Hanc & _). apply Hanc in Hin. congruence. }
  split_and!; [done..| | |done].
  - unfold cached_depth_of. rewrite lru_cache_snd, lru_find_None.
    + destruct (cached_ancestors_for (S fuel) sm2 (state_name st) c) as [c1 r].
      simpl in *. by rewrite Hca.
    + intros v Hin. destruct Hc as (_ & _ & Hdep & _). apply Hdep in Hin.
      simpl in Hin. by rewrite Hold in Hin.
  - unfold cached_descendants_for. rewrite lru_cache_snd, lru_find_None; [done|].
    intros v Hin. destruct Hc as (_ & Hcd & _). apply Hcd in Hin.
    unfold descendants_for in Hin. simpl in Hin. by rewrite Hs in Hin.
Qed.

Lemma register_parent_after_child_witness :
  let sm1 := fst (register_state machine_A (new_BasicState "B1" None None)
                    (PName (state_name (new_CompoundState "B" "B1" None None)))) in
  let sm2 := fst (register_state sm1 (new_CompoundState "B" "B1" None None) PNone) in
  snd (register_state machine_A (new_BasicState "B1" None None)
         (PName (state_name (new_CompoundState "B" "B1" None None)))) = Ok tt ∧
  snd (register_state sm1 (new_CompoundState "B" "B1" None None) PNone) = Ok tt ∧
  children sm2
    = children machine_A
      ++ [state_name (new_BasicState "B1" None None);
          state_name (new_CompoundState "B" "B1" None None)] ∧
  snd (cached_ancestors_for 1 sm2 (state_name (new_BasicState "B1" None None))
         (fst (cached_descendants_for 1 machine_A "A" no_caches)))
    = Ok [state_name (new_CompoundState "B" "B1" None None)] ∧
  snd (cached_depth_of 1 sm2 (Some (state_name (new_BasicState "B1" None None)))
         (fst (cached_descendants_for 1 machine_A "A" no_caches))) = Ok 2 ∧
  snd (cached_descendants_for 1 sm2
         (state_name (new_CompoundState "B" "B1" None None))
         (fst (cached_descendants_for 1 machine_A "A" no_caches))) = Ok [] ∧
  valid sm2 = false.
Proof.
  apply (register_parent_after_child 0 machine_A
           (fst (cached_descendants_for 1 machine_A "A" no_caches))
           (new_BasicState "B1" None None)
           (new_CompoundState "B" "B1" None None)).
  - discriminate.
  - discriminate.
  - reflexivity.
  - vm_compute; reflexivity.
  - vm_compute; reflexivity.
  - apply cached_descendants_for_fst, coherent_no_caches.
Defined.

(** X5. A state registered under a registered parent that has no children
    list (a basic, history or final state) makes [register_state] raise
    [AttributeError] after both dictionaries have been written: the state is
    in the state map and has its parent entry, but it has been appended to
    no children list, and the registry it leaves is not valid. *)
Theorem register_state_under_leaf sm st p pn pst :
  parent_name p = Some pn → pn ≠ state_name st →
  states sm !! pn = Some pst → composite pst = false →
  register_state sm st p
    = (mkStateMachine (name sm) (initial sm) (execute sm)
         (<[state_name st := st]> (states sm)) (transitions sm)
         (<[state_name st := Some pn]> (parent sm)) (children sm),
       Raise AttributeError) ∧
  (pn ≠ "" → valid (fst (register_state sm st p)) = false).
Proof.
  intros Hp Hne Hpst Hcomp.
  assert (register_state sm st p
    = (mkStateMachine (name sm) (initial sm) (execute sm)
         (<[state_name st := st]> (states sm)) (transitions sm)
         (<[state_name st := Some pn]> (parent sm)) (children sm),
       Raise AttributeError)) as Hreg.
  { unfold register_state. rewrite Hp. rewrite lookup_insert_ne, Hpst; [|done].
    by destruct pst. }
  split; [done|]. intros Hpn. rewrite Hreg. simpl.
  apply (valid_false_dangling _ (state_name st) pn); [|done|].
  - simpl. apply lookup_insert_eq.
  - simpl. intros pst'. rewrite lookup_insert_ne; [|done]. rewrite Hpst.
    intros [= <-]. destruct pst; simpl in *; try done; apply not_elem_of_nil.
Qed.

Lemma register_state_under_leaf_witness :
  register_state machine_M (new_BasicState "A3" None None) (PName "A1")
    = (mkStateMachine (name machine_M) (initial machine_M) (execute machine_M)
         (<["A3" := new_BasicState "A3" None None]> (states machine_M))
         (transitions machine_M)
         (<["A3" := Some "A1"]> (parent machine_M)) (children machine_M),
       Raise AttributeError) ∧
  ("A1" ≠ "" →
   valid (fst (register_state machine_M (new_BasicState "A3" None None)
                 (PName "A1"))) = false).
Proof.
  apply (register_state_under_leaf machine_M (new_BasicState "A3" None None)
           (PName "A1") "A1"
           (BasicState "A1" None None
              [mkTransition "A1" (Some "A2") (Some (mkEvent "go" None)) None None])).
  - reflexivity.
  - discriminate.
  - vm_compute; reflexivity.
  - reflexivity.
Defined.

(** ** Queries on unknown names *)

Lemma leaf_loop_unknown fuel sm sts pre s post acc :
  (∀ x, x ∈ pre → ∃ ds, descendants_for fuel sm x = Ok ds) →
  descendants_for fuel sm s = Raise KeyError →
  leaf_loop fuel sm sts (pre ++ s :: post) acc = Raise KeyError.
Proof.
  intros Hpre Hs. revert acc. induction pre as [|x pre IH]; intros acc; simpl.
  - by rewrite Hs.
  - destruct (Hpre x) as (ds & Hds); [apply elem_of_cons; by left|].
    rewrite Hds. simpl. apply IH. intros y Hy. apply Hpre.
    apply elem_of_cons; by right.
Qed.

(** X6. No query answers for a name that is not registered: in a valid
    registry [ancestors_for], [depth_of], [descendants_for] and
    [least_common_ancestor] (in either argument) raise [KeyError] for it,
    and so does [leaf_for] on a list that contains it after registered
    names. *)
Theorem queries_unknown_name fuel sm s :
  valid sm = true → ¬ registered sm s → size (states sm) < fuel →
  ancestors_for fuel sm s = Raise KeyError ∧
  depth_of fuel sm (Some s) = Raise KeyError ∧
  descendants_for fuel sm s = Raise KeyError ∧
  (∀ s2, least_common_ancestor fuel sm s s2 = Raise KeyError) ∧
  (∀ s1, registered sm s1 →
         least_common_ancestor fuel sm s1 s = Raise KeyError) ∧
  (∀ pre post, (∀ x, x ∈ pre → registered sm x) →
               leaf_for fuel sm (pre ++ s :: post) = Raise KeyError).
Proof.
  intros Hv Hs Hfuel.
  assert (parent sm !! s = None) as Hp.
  { destruct (parent sm !! s) eqn:E; [|done]. exfalso. apply Hs.
    apply valid_registered; eauto. }
  assert (states sm !! s = None) as Hst.
  { destruct (states sm !! s) eqn:E; [|done]. exfalso. apply Hs. by eexists. }
  assert (ancestors_for fuel sm s = Raise KeyError) as Ha.
  { unfold ancestors_for. by rewrite Hp. }
  assert (descendants_for fuel sm s = Raise KeyError) as Hd.
  { unfold descendants_for. destruct fuel as [|fuel]; [lia|]. simpl. by rewrite Hst. }
  assert (size (parent sm) ≤ fuel) as Hfuel'.
  { rewrite <- (valid_size sm Hv). lia. }
  split_and!; [done| |done| | |].
  - simpl. by rewrite Ha.
  - intros s2. unfold least_common_ancestor. by rewrite Ha.
  - intros s1 Hs1.
    destruct (valid_ancestors_for sm s1 fuel Hv Hs1 Hfuel') as (? & l & _ & _ & Ha1).
    unfold least_common_ancestor. by rewrite Ha1, Ha.
  - intros pre post Hpre. unfold leaf_for. apply leaf_loop_unknown; [|done].
    intros x Hx.
    destruct (valid_descendants_for fuel sm x Hv (Hpre x Hx) Hfuel) as (ds & ? & _).
    eauto.
Qed.

Lemma queries_unknown_name_witness :
  ancestors_for 9 machine_W "Z" = Raise KeyError ∧
  depth_of 9 machine_W (Some "Z") = Raise KeyError ∧
  descendants_for 9 machine_W "Z" = Raise KeyError ∧
  (∀ s2, least_common_ancestor 9 machine_W "Z" s2 = Raise KeyError) ∧
  (∀ s1, registered machine_W s1 →
         least_common_ancestor 9 machine_W s1 "Z" = Raise KeyError) ∧
  (∀ pre post, (∀ x, x ∈ pre → registered machine_W x) →
               leaf_for 9 machine_W (pre ++ "Z" :: post) = Raise KeyError).
Proof.
  apply (queries_unknown_name 9 machine_W "Z").
  - vm_compute; reflexivity.
  - intros [st Hst]. vm_compute in Hst. discriminate.
  - vm_compute; lia.
Defined.

(** ** Ancestors against descendants *)

(** The bodies, run on one registry.
    In a valid registry [descendants_for] and [ancestors_for] are two
    views of one relation: [d] is among the descendants of [p] exactly when
    [p] is among the ancestors of [d]. *)
Lemma descendants_ancestors_inverse_body fuel sm p d :
  valid sm = true → registered sm p → registered sm d →
  size (states sm) < fuel →
  ∃ ds anc,
    descendants_for fuel sm p = Ok ds ∧
    ancestors_for fuel sm d = Ok anc ∧
    (d ∈ ds ↔ p ∈ anc).
Proof.
  intros Hv Hp Hd Hfuel.
  assert (size (parent sm) ≤ fuel) as Hfuel'.
  { rewrite <- (valid_size sm Hv). lia. }
  destruct (valid_descendants_for fuel sm p Hv Hp Hfuel) as (ds & Hds & _).
  destruct (valid_ancestors_for sm d fuel Hv Hd Hfuel') as (par & anc & Hpar & Hl & Ha).
  exists ds, anc. split_and!; [done..|].
  rewrite (descendants_for_ancestor fuel sm p ds d Hv Hp Hfuel Hds).
  symmetry. by eapply path_ancestor.
Qed.


(** X7. In a valid registry, with caches filled on that registry,
    [descendants_for] and [ancestors_for] are two views of one relation:
    [d] is in the list [descendants_for p] returns exactly when [p] is in
    the list [ancestors_for d] returns. *)
Theorem descendants_ancestors_inverse fuel sm c c' p d :
  valid sm = true → coherent fuel sm c → coherent fuel sm c' →
  registered sm p → registered sm d →
  size (states sm) < fuel →
  ∃ ds anc,
    snd (cached_descendants_for fuel sm p c) = Ok ds ∧
    snd (cached_ancestors_for fuel sm d c') = Ok anc ∧
    (d ∈ ds ↔ p ∈ anc).
Proof.
  intros Hv Hc Hc' Hp Hd Hfuel.
  rewrite cached_descendants_for_snd, cached_ancestors_for_snd by done.
  by apply descendants_ancestors_inverse_body.
Qed.

Lemma descendants_ancestors_inverse_witness :
  ∃ ds anc,
    snd (cached_descendants_for 9 machine_W "O" caches_W) = Ok ds ∧
    snd (cached_ancestors_for 9 machine_W "c" no_caches) = Ok anc ∧
    ("c" ∈ ds ↔ "O" ∈ anc).
Proof.
  apply (descendants_ancestors_inverse 9 machine_W caches_W no_caches "O" "c").
  - vm_compute; reflexivity.
  - apply coherent_caches_W.
  - apply coherent_no_caches.
  - vm_compute; eexists; reflexivity.
  - vm_compute; eexists; reflexivity.
  - vm_compute; lia.
Defined.

(** The bodies, run on one registry.
    In a valid registry the result of [ancestors_for] is a chain "in
    decreasing depth", as its docstring says: it starts with the parent of
    the state, the ancestors of its [i]-th entry are the entries after it,
    the depth of that entry is the length of the list minus [i], and its
    last entry is a top-level state.  It is empty exactly for the top-level
    states. *)
Lemma ancestors_for_chain_body fuel sm s :
  valid sm = true → registered sm s → size (parent sm) ≤ fuel →
  ∃ l,
    ancestors_for fuel sm s = Ok l ∧
    head l = parent_of sm s ∧
    (∀ i x, l !! i = Some x →
       registered sm x ∧
       ancestors_for fuel sm x = Ok (drop (S i) l) ∧
       depth_of fuel sm (Some x) = Ok (length l - i)) ∧
    (∀ x, last l = Some x → x ∈ children sm) ∧
    (l = [] ↔ s ∈ children sm).
Proof.
  intros Hv Hs Hfuel.
  destruct (valid_ancestors_for sm s fuel Hv Hs Hfuel) as (par & l & Hpar & Hl & Ha).
  assert (length l ≤ fuel) as Hlen.
  { apply ancestors_for_path in Ha as (? & ? & ? & ?). done. }
  assert (∀ x par', parent sm !! x = Some par' → truthy par' = None →
                    x ∈ children sm) as Htop.
  { intros x par' Hx Ht. pose proof (valid_link_ok _ _ _ Hv Hx) as Hlk.
    apply link_ok_iff in Hlk as (_ & Hlk & _). by rewrite Ht in Hlk. }
  exists l. split_and!; [done| | | |].
  - unfold parent_of. rewrite Hpar. simpl. by inversion Hl; subst.
  - intros i x Hi.
    pose proof (take_drop_middle l i x Hi) as Hsplit.
    pose proof Hl as Hl'. rewrite <- Hsplit in Hl'.
    destruct (path_split _ _ _ _ _ Hl') as (par' & Hx & Hx').
    assert (length (drop (S i) l) ≤ fuel).
    { rewrite length_drop. lia. }
    assert (ancestors_for fuel sm x = Ok (drop (S i) l)) as Hax.
    { apply ancestors_for_path. by exists par'. }
    split_and!.
    + apply valid_registered; eauto.
    + done.
    + simpl. rewrite Hax. simpl. f_equal. rewrite length_drop.
      apply lookup_lt_Some in Hi. lia.
  - intros x Hx. apply last_Some in Hx as (l' & ->).
    destruct (path_split _ _ _ _ _ Hl) as (par' & Hx & Hx').
    inversion Hx'; subst. by eapply Htop.
  - split.
    + intros ->. inversion Hl; subst. by eapply Htop.
    + intros Hin. pose proof Hv as Hv'. apply valid_iff in Hv' as (_ & _ & Ht).
      apply top_ok_iff in Ht as [_ Ht]. destruct (Ht s Hin) as [_ Hpo].
      unfold parent_of in Hpo. rewrite Hpar in Hpo. simpl in Hpo.
      inversion Hl; subst; [done|congruence].
Qed.


(** X8. In a valid registry, with caches filled on that registry, the list
    [ancestors_for] returns is a chain "in decreasing depth", as its
    docstring says: it starts with the parent of the state, [ancestors_for]
    of its [i]-th entry returns the entries after it, [depth_of] of that
    entry returns the length of the list minus [i], and its last entry is a
    top-level state.  It is empty exactly for the top-level states. *)
Theorem ancestors_for_chain fuel sm c c' s :
  valid sm = true → coherent fuel sm c → coherent fuel sm c' →
  registered sm s → size (parent sm) ≤ fuel →
  ∃ l,
    snd (cached_ancestors_for fuel sm s c) = Ok l ∧
    head l = parent_of sm s ∧
    (∀ i x, l !! i = Some x →
       registered sm x ∧
       snd (cached_ancestors_for fuel sm x c') = Ok (drop (S i) l) ∧
       snd (cached_depth_of fuel sm (Some x) c') = Ok (length l - i)) ∧
    (∀ x, last l = Some x → x ∈ children sm) ∧
    (l = [] ↔ s ∈ children sm).
Proof.
  intros Hv Hc Hc' Hs Hfuel.
  destruct (ancestors_for_chain_body fuel sm s Hv Hs Hfuel)
    as (l & Hl & Hhead & Hchain & Hlast & Hnil).
  exists l. rewrite cached_ancestors_for_snd by done.
  split_and!; [done..| |done|done].
  intros i x Hi. destruct (Hchain i x Hi) as (Hx & Hax & Hdx).
  by rewrite cached_ancestors_for_snd, cached_depth_of_snd.
Qed.

Lemma ancestors_for_chain_witness :
  ∃ l,
    snd (cached_ancestors_for 9 machine_W "a" caches_W) = Ok l ∧
    head l = parent_of machine_W "a" ∧
    (∀ i x, l !! i = Some x →
       registered machine_W x ∧
       snd (cached_ancestors_for 9 machine_W x no_caches) = Ok (drop (S i) l) ∧
       snd (cached_depth_of 9 machine_W (Some x) no_caches)
         = Ok (length l - i)) ∧
    (∀ x, last l = Some x → x ∈ children machine_W) ∧
    (l = [] ↔ "a" ∈ children machine_W).
Proof.
  apply (ancestors_for_chain 9 machine_W caches_W no_caches "a").
  - vm_compute; reflexivity.
  - apply coherent_caches_W.
  - apply coherent_no_caches.
  - vm_compute; eexists; reflexivity.
  - vm_compute; lia.
Defined.

(** ** Least common ancestor: relatives *)

Lemma first_in_head_superset (l pre : list string) (a : string) :
  first_in l (pre ++ a :: l) = head l.
Proof.
  destruct l as [|h l]; simpl; [done|].
  assert (mem h (pre ++ a :: h :: l) = true) as ->; [|done].
  apply mem_true. apply elem_of_app; right.
  apply elem_of_cons; right. apply elem_of_cons; by left.
Qed.

(** The bodies, run on one registry.
    In a valid registry the least common ancestor of two children of
    one state, the same child twice included, is that state; that of a
    state and one of its descendants, in either order, is not the state
    itself but its parent, for [ancestors_for] leaves the state out; and
    that of a top-level state and any state is [None]. *)
Lemma least_common_ancestor_relatives_body fuel sm :
  valid sm = true → size (parent sm) ≤ fuel →
  (∀ p c1 c2, c1 ∈ kids sm p → c2 ∈ kids sm p →
     least_common_ancestor fuel sm c1 c2 = Ok (Some p)) ∧
  (∀ a b, ancestor sm a b →
     least_common_ancestor fuel sm a b = Ok (parent_of sm a) ∧
     least_common_ancestor fuel sm b a = Ok (parent_of sm a)) ∧
  (∀ a b, a ∈ children sm → registered sm b →
     least_common_ancestor fuel sm a b = Ok None ∧
     least_common_ancestor fuel sm b a = Ok None).
Proof.
  intros Hv Hfuel.
  assert (∀ s, registered sm s →
            ∃ par l, parent sm !! s = Some par ∧ path sm par l ∧
                     ancestors_for fuel sm s = Ok l ∧ head l = parent_of sm s)
    as Hanc.
  { intros s Hs.
    destruct (valid_ancestors_for sm s fuel Hv Hs Hfuel) as (par & l & Hpar & Hl & Ha).
    exists par, l. split_and!; [done..|].
    unfold parent_of. rewrite Hpar. simpl. by inversion Hl; subst. }
  split_and!.
  - intros p c1 c2 H1 H2.
    pose proof (valid_kids_parent _ _ _ Hv H1) as Hp1.
    pose proof (valid_kids_parent _ _ _ Hv H2) as Hp2.
    destruct (Hanc c1 (valid_kids_registered _ _ _ Hv H1)) as (q1 & l1 & _ & _ & Ha1 & Hh1).
    destruct (Hanc c2 (valid_kids_registered _ _ _ Hv H2)) as (q2 & l2 & _ & _ & Ha2 & Hh2).
    unfold least_common_ancestor. rewrite Ha1, Ha2. simpl. f_equal.
    rewrite Hp1 in Hh1. rewrite Hp2 in Hh2.
    destruct l1 as [|x1 l1]; [done|]. destruct l2 as [|x2 l2]; [done|].
    simpl in *. injection Hh1 as ->. injection Hh2 as ->.
    assert (mem p (p :: l2) = true) as ->; [|done].
    apply mem_true. apply elem_of_cons; by left.
  - intros a b Hab.
    pose proof (ancestor_registered _ _ _ Hv Hab) as Hb.
    destruct (Hanc b Hb) as (pb & lb & Hpb & Hlb & Hab' & _).
    pose proof Hab as Hin. apply (path_ancestor _ _ _ _ a Hpb Hlb) in Hin.
    apply list_elem_of_split in Hin as (pre & post & ->).
    destruct (path_split _ _ _ _ _ Hlb) as (pa & Hpa & Hla).
    assert (registered sm a) as Ha by (apply valid_registered; eauto).
    destruct (Hanc a Ha) as (pa' & la & Hpa' & Hla' & Haa & Hha).
    assert (pa' = pa) by congruence; subst pa'.
    assert (la = post) by (by eapply path_functional); subst la.
    assert (first_in post (pre ++ a :: post) = parent_of sm a) as Hfirst.
    { by rewrite first_in_head_superset. }
    unfold least_common_ancestor. rewrite Haa, Hab'. simpl.
    split; [by rewrite Hfirst|].
    rewrite <- (first_in_comm sm pa pb post (pre ++ a :: post) Hla Hlb).
    by rewrite Hfirst.
  - intros a b Ha Hb.
    pose proof Hv as Hv'. apply valid_iff in Hv' as (_ & _ & Ht).
    apply top_ok_iff in Ht as [_ Ht]. destruct (Ht a Ha) as [Hreg Hpo].
    apply (valid_registered _ _ Hv) in Hreg.
    destruct (Hanc a Hreg) as (qa & la & _ & _ & Haa & Hha).
    destruct (Hanc b Hb) as (qb & lb & _ & _ & Hab & _).
    rewrite Hpo in Hha. destruct la; [|done].
    unfold least_common_ancestor. rewrite Haa, Hab. simpl.
    split; [done|]. f_equal. apply first_in_None. intros x _. apply not_elem_of_nil.
Qed.


(** X9. In a valid registry, with caches filled on that registry,
    [least_common_ancestor] of two children of one state, the same child
    twice included, returns that state; of a state and one of its
    descendants, in either order, it returns not the state itself but its
    parent, for [ancestors_for] leaves the state out; and of a top-level
    state and any state it returns [None]. *)
Theorem least_common_ancestor_relatives fuel sm c :
  valid sm = true → coherent fuel sm c → size (parent sm) ≤ fuel →
  (∀ p k1 k2, k1 ∈ kids sm p → k2 ∈ kids sm p →
     snd (cached_least_common_ancestor fuel sm (k1, k2) c) = Ok (Some p)) ∧
  (∀ a b, ancestor sm a b →
     snd (cached_least_common_ancestor fuel sm (a, b) c) = Ok (parent_of sm a) ∧
     snd (cached_least_common_ancestor fuel sm (b, a) c) = Ok (parent_of sm a)) ∧
  (∀ a b, a ∈ children sm → registered sm b →
     snd (cached_least_common_ancestor fuel sm (a, b) c) = Ok None ∧
     snd (cached_least_common_ancestor fuel sm (b, a) c) = Ok None).
Proof.
  intros Hv Hc Hfuel.
  destruct (least_common_ancestor_relatives_body fuel sm Hv Hfuel)
    as (Hkids & Hanc & Htop).
  split_and!.
  - intros p k1 k2 H1 H2. rewrite cached_least_common_ancestor_snd by done.
    by apply (Hkids p).
  - intros a b Hab. rewrite !cached_least_common_ancestor_snd by done.
    by apply Hanc.
  - intros a b Ha Hb. rewrite !cached_least_common_ancestor_snd by done.
    by apply Htop.
Qed.

Lemma least_common_ancestor_relatives_witness :
  (∀ p k1 k2, k1 ∈ kids machine_W p → k2 ∈ kids machine_W p →
     snd (cached_least_common_ancestor 9 machine_W (k1, k2) caches_W)
     = Ok (Some p)) ∧
  (∀ a b, ancestor machine_W a b →
     snd (cached_least_common_ancestor 9 machine_W (a, b) caches_W)
       = Ok (parent_of machine_W a) ∧
     snd (cached_least_common_ancestor 9 machine_W (b, a) caches_W)
       = Ok (parent_of machine_W a)) ∧
  (∀ a b, a ∈ children machine_W → registered machine_W b →
     snd (cached_least_common_ancestor 9 machine_W (a, b) caches_W) = Ok None ∧
     snd (cached_least_common_ancestor 9 machine_W (b, a) caches_W) = Ok None).
Proof.
  apply (least_common_ancestor_relatives 9 machine_W caches_W).
  - vm_compute; reflexivity.
  - apply coherent_caches_W.
  - vm_compute; lia.
Defined.

(** ** Leaf filtering: what is kept *)

Lemma filter_sublist {A : Type} (f : A → bool) (l : list A) :
  sublist (List.filter f l) l.
Proof.
  induction l as [|a l IH]; simpl; [constructor|].
  destruct (f a); by constructor.
Qed.

Lemma list_max_by (f : string → nat) (l : list string) :
  l ≠ [] → ∃ x, x ∈ l ∧ ∀ y, y ∈ l → f y ≤ f x.
Proof.
  induction l as [|a l IH]; [done|]. intros _.
  destruct l as [|b l].
  - exists a. split; [apply elem_of_cons; by left|].
    intros y Hy. apply list_elem_of_singleton in Hy. by subst.
  - destruct IH as (x & Hx & Hmax); [done|].
    destruct (decide (f x ≤ f a)) as [Hle|Hgt].
    + exists a. split; [apply elem_of_cons; by left|].
      intros y Hy. apply elem_of_cons in Hy as [->|Hy]; [done|].
      specialize (Hmax y Hy). lia.
    + exists x. split; [apply elem_of_cons; by right|].
      intros y Hy. apply elem_of_cons in Hy as [->|Hy]; [lia|by apply Hmax].
Qed.

(** The bodies, run on one registry.
    In a valid registry, on a list of registered names, [leaf_for]
    only drops names: its result is a sublist of the list, in the same
    order.  A state without children is always kept, and every state of the
    list is kept itself or has one of its descendants kept; so the result
    of a non-empty list is not empty. *)
Lemma leaf_for_keeps_leaves_body fuel sm sts :
  valid sm = true → (∀ s, s ∈ sts → registered sm s) →
  size (states sm) < fuel →
  ∃ leaves,
    leaf_for fuel sm sts = Ok leaves ∧
    sublist leaves sts ∧
    (∀ s, s ∈ sts → kids sm s = [] → s ∈ leaves) ∧
    (∀ s, s ∈ sts → ∃ x, x ∈ leaves ∧ (x = s ∨ ancestor sm s x)) ∧
    (sts ≠ [] → leaves ≠ []).
Proof.
  intros Hv Hreg Hfuel.
  assert (∀ s, s ∈ sts → ∃ ds, descendants_for fuel sm s = Ok ds) as Hds.
  { intros s Hs.
    destruct (valid_descendants_for fuel sm s Hv (Hreg s Hs) Hfuel) as (ds & ? & _).
    eauto. }
  assert (∀ s, s ∈ sts → (∀ d, ancestor sm s d → d ∉ sts) →
               s ∈ leaves_of fuel sm sts) as Hkeep.
  { intros s Hs Hnone. apply elem_of_leaves_of. split; [done|].
    apply no_descendant_in_true. destruct (Hds s Hs) as (ds & Hdesc).
    exists ds. split; [done|]. intros d Hd. apply Hnone.
    by apply (descendants_for_ancestor fuel sm s ds d Hv (Hreg s Hs) Hfuel). }
  assert (∀ s, s ∈ sts →
            ∃ x, x ∈ leaves_of fuel sm sts ∧ (x = s ∨ ancestor sm s x)) as Hrep.
  { intros s Hs.
    set (below := List.filter
                    (λ x, bool_decide (x = s)
                          || match descendants_for fuel sm s with
                             | Ok ds => mem x ds
                             | _ => false
                             end) sts).
    assert (∀ x, x ∈ below ↔ x ∈ sts ∧ (x = s ∨ ancestor sm s x)) as Hbelow.
    { intros x. unfold below. rewrite !list_elem_of_In, filter_In, <- !list_elem_of_In.
      destruct (Hds s Hs) as (ds & Hdesc). rewrite Hdesc.
      rewrite orb_true_iff, bool_decide_eq_true, mem_true.
      by rewrite (descendants_for_ancestor fuel sm s ds x Hv (Hreg s Hs) Hfuel Hdesc). }
    destruct (list_max_by (depth sm) below) as (x & Hx & Hmax).
    { intros Hnil. assert (s ∈ below) as Hin by (apply Hbelow; auto).
      rewrite Hnil in Hin. by apply elem_of_nil in Hin. }
    apply Hbelow in Hx as [Hxs Hxrel]. exists x. split; [|done].
    apply Hkeep; [done|]. intros d Hd Hdin.
    assert (d ∈ below) as Hdb.
    { apply Hbelow. split; [done|]. right. destruct Hxrel as [->|Hsx]; [done|].
      clear -Hsx Hd. induction Hd as [d p Hp|d p a Hp Ha IH].
      - by eapply ancestor_step.
      - eapply ancestor_step; [done|]. by apply IH. }
    pose proof (Hmax d Hdb). pose proof (depth_ancestor sm x d Hv Hd). lia. }
  exists (leaves_of fuel sm sts). split_and!.
  - by apply leaf_for_leaves_of.
  - apply filter_sublist.
  - intros s Hs Hk. apply Hkeep; [done|]. intros d Hd.
    exfalso. clear -Hv Hk Hd. 
    assert (∃ c, parent_of sm c = Some s) as (c & Hc).
    { induction Hd as [d p Hp|d p a Hp Ha IH]; eauto. }
    apply (valid_parent_kids _ _ _ Hv) in Hc. rewrite Hk in Hc.
    by apply elem_of_nil in Hc.
  - done.
  - intros Hne. destruct sts as [|s sts']; [done|].
    destruct (Hrep s) as (x & Hx & _); [apply elem_of_cons; by left|].
    intros Hnil. rewrite Hnil in Hx. by apply elem_of_nil in Hx.
Qed.


(** X10. In a valid registry, with caches filled on that registry, on a
    list of registered names, [leaf_for] only drops names: its result is a
    sublist of the list, in the same order.  A state without children is
    always kept, and every state of the list is kept itself or has one of
    its descendants kept; so the result of a non-empty list is not
    empty. *)
Theorem leaf_for_keeps_leaves fuel sm c sts :
  valid sm = true → coherent fuel sm c →
  (∀ s, s ∈ sts → registered sm s) →
  size (states sm) < fuel →
  ∃ leaves,
    snd (cached_leaf_for fuel sm sts c) = Ok leaves ∧
    sublist leaves sts ∧
    (∀ s, s ∈ sts → kids sm s = [] → s ∈ leaves) ∧
    (∀ s, s ∈ sts → ∃ x, x ∈ leaves ∧ (x = s ∨ ancestor sm s x)) ∧
    (sts ≠ [] → leaves ≠ []).
Proof.
  intros Hv Hc Hreg Hfuel. rewrite cached_leaf_for_snd by done.
  by apply leaf_for_keeps_leaves_body.
Qed.

Lemma leaf_for_keeps_leaves_witness :
  ∃ leaves,
    snd (cached_leaf_for 9 machine_W ["O"; "R1"; "d"] caches_W) = Ok leaves ∧
    sublist leaves ["O"; "R1"; "d"] ∧
    (∀ s, s ∈ ["O"; "R1"; "d"] → kids machine_W s = [] → s ∈ leaves) ∧
    (∀ s, s ∈ ["O"; "R1"; "d"] →
          ∃ x, x ∈ leaves ∧ (x = s ∨ ancestor machine_W s x)) ∧
    (["O"; "R1"; "d"] ≠ [] → leaves ≠ []).
Proof.
  apply (leaf_for_keeps_leaves 9 machine_W caches_W ["O"; "R1"; "d"]).
  - vm_compute; reflexivity.
  - apply coherent_caches_W.
  - intros s Hs. repeat (apply elem_of_cons in Hs as [->|Hs]);
      [vm_compute; eexists; reflexivity..|by apply elem_of_nil in Hs].
  - vm_compute; lia.
Defined.

(** ** The caches on a frozen registry *)

Lemma cached_queries_agree_witness :
  (∀ s, snd (cached_ancestors_for 9 machine_W s no_caches)
          = ancestors_for 9 machine_W s
        ∧ coherent 9 machine_W (fst (cached_ancestors_for 9 machine_W s no_caches))) ∧
  (∀ s, snd (cached_descendants_for 9 machine_W s no_caches)
          = descendants_for 9 machine_W s
        ∧ coherent 9 machine_W (fst (cached_descendants_for 9 machine_W s no_caches))) ∧
  (∀ s, snd (cached_depth_of 9 machine_W s no_caches) = depth_of 9 machine_W s
        ∧ coherent 9 machine_W (fst (cached_depth_of 9 machine_W s no_caches))) ∧
  (∀ s1 s2,
     snd (cached_least_common_ancestor 9 machine_W (s1, s2) no_caches)
       = least_common_ancestor 9 machine_W s1 s2
     ∧ coherent 9 machine_W
         (fst (cached_least_common_ancestor 9 machine_W (s1, s2) no_caches))).
Proof.
  apply (cached_queries_agree 9 machine_W no_caches).
  apply coherent_no_caches.
Defined.

(** ** [to_dict] a second time *)

(** X12. [to_dict] can be run once.  If a call returns on a machine that
    has a top-level state, a second call on the store the first one left
    raises [TypeError] at the first top-level item, which is a dictionary
    by now, and changes nothing more. *)
Theorem to_dict_second_call fuel fuel' sm h h' v :
  to_dict fuel sm h = (h', Ok v) → top h ≠ [] →
  to_dict (S fuel') sm h' = (h', Raise TypeError).
Proof.
  intros Hd Hne. apply to_dict_rewrites_top in Hd as [Hlen Hd].
  destruct (top h) as [|x l] eqn:Htop; [done|].
  destruct (Hd 0) as [d Hd0]; [simpl; lia|].
  unfold to_dict. simpl. rewrite Hlen. simpl. by rewrite Hd0.
Qed.

Lemma to_dict_second_call_witness :
  to_dict 1 machine_W (fst (to_dict 9 machine_W (store_of machine_W)))
  = (fst (to_dict 9 machine_W (store_of machine_W)), Raise TypeError).
Proof.
  apply (to_dict_second_call 9 0 machine_W (store_of machine_W)
           (fst (to_dict 9 machine_W (store_of machine_W)))
           (VDict [("statemachine",
                    VDict [("name", VStr "W"); ("initial", VStr "O");
                           ("states", VRef TopList)])])).
  - vm_compute; reflexivity.
  - vm_compute; discriminate.
Defined.

(** ** Transitions *)

(** X13. A transition that [Transition.__init__] has made is never internal
    and eventless at once, as the docstring of the class says; its
    dictionary has the key [target] exactly when it is not internal and the
    key [event] exactly when it is not eventless, so it is never empty, and
    the target and the name of the event are the ones given.  The source
    state is not part of the dictionary. *)
Theorem Transition_not_internal_and_eventless from to ev cond act t :
  Transition_init from to ev cond act = Ok t →
  internal t && eventless t = false ∧
  ∃ d, Transition_to_dict t = VDict d ∧
       d ≠ [] ∧
       dict_get "target" d = VStr <$> to ∧
       dict_get "event" d = Event_to_dict <$> ev ∧
       (is_Some (dict_get "target" d) ↔ internal t = false) ∧
       (is_Some (dict_get "event" d) ↔ eventless t = false) ∧
       ∀ from', Transition_to_dict (mkTransition from' to ev cond act) = VDict d.
Proof.
  intros Hinit.
  assert (t = mkTransition from to ev cond act ∧ (is_Some to ∨ is_Some ev))
    as [-> Hsome].
  { destruct to, ev; simpl in Hinit; simplify_eq; eauto. }
  split.
  - unfold internal, eventless. simpl. by destruct to, ev, Hsome as [[? ?]|[? ?]].
  - eexists. split; [reflexivity|]. unfold internal, eventless, opt_entry. simpl.
    destruct to as [tgt|], ev as [e|];
      try (by destruct Hsome as [[? ?]|[? ?]]);
      simpl; destruct (truthy cond) eqn:Hc, (truthy act) eqn:Ha; simpl;
      split_and!; try done;
      try (split; [done|by eauto]); try (split; [by intros [? ?]|done]);
      intros from'; unfold Transition_to_dict, opt_entry; simpl;
      by rewrite Hc, Ha.
Qed.

Lemma Transition_not_internal_and_eventless_witness :
  internal (mkTransition "A1" (Some "A2") (Some (mkEvent "go" None)) None None)
  && eventless (mkTransition "A1" (Some "A2") (Some (mkEvent "go" None)) None None)
  = false ∧
  ∃ d, Transition_to_dict
         (mkTransition "A1" (Some "A2") (Some (mkEvent "go" None)) None None)
       = VDict d ∧
       d ≠ [] ∧
       dict_get "target" d = VStr <$> Some "A2" ∧
       dict_get "event" d = Event_to_dict <$> Some (mkEvent "go" None) ∧
       (is_Some (dict_get "target" d) ↔
        internal (mkTransition "A1" (Some "A2") (Some (mkEvent "go" None))
                    None None) = false) ∧
       (is_Some (dict_get "event" d) ↔
        eventless (mkTransition "A1" (Some "A2") (Some (mkEvent "go" None))
                     None None) = false) ∧
       ∀ from', Transition_to_dict
                  (mkTransition from' (Some "A2") (Some (mkEvent "go" None))
                     None None) = VDict d.
Proof.
  apply (Transition_not_internal_and_eventless "A1" (Some "A2")
           (Some (mkEvent "go" None)) None None).
  reflexivity.
Defined.

(** ** [ancestors_for] on any registry *)

(** The bodies, run on one registry.
    Whatever the registry, valid or not: when [ancestors_for] returns
    a list, the list is exactly the set of ancestors of the state, without a
    duplicate, without the empty name and without the state itself, and the
    state is not on a cycle of the parent map.  So on a cycle
    [ancestors_for] does not return. *)
Lemma ancestors_for_returns_body fuel sm s l :
  ancestors_for fuel sm s = Ok l →
  NoDup l ∧ (s ∉ l) ∧ ("" ∉ l) ∧
  (∀ a, a ∈ l ↔ ancestor sm a s) ∧
  ¬ ancestor sm s s.
Proof.
  intros Ha. apply ancestors_for_path in Ha as (par & Hs & Hl & _).
  assert (s ∉ l) as Hnot.
  { intros Hin. apply list_elem_of_split in Hin as (l1 & l2 & ->).
    destruct (path_split _ _ _ _ _ Hl) as (par' & Hs' & Hl2).
    assert (par' = par) by congruence; subst par'.
    pose proof (path_functional _ _ _ _ Hl Hl2) as Heq.
    apply (f_equal length) in Heq. rewrite length_app in Heq. simpl in Heq. lia. }
  split_and!.
  - by eapply path_NoDup.
  - done.
  - intros Hin. by apply (path_nonempty _ _ _ _ Hl Hin).
  - intros a. by eapply path_ancestor.
  - intros Hc. apply Hnot. by apply (path_ancestor _ _ _ _ s Hs Hl).
Qed.


(** X14. Whatever the registry, valid or not, as long as the caches were
    filled on it: when [ancestors_for] returns a list, the list is exactly
    the set of ancestors of the state, without a duplicate, without the
    empty name and without the state itself, and the state is not on a
    cycle of the parent map.  So on a cycle [ancestors_for] does not
    return. *)
Theorem ancestors_for_returns fuel sm c s l :
  coherent fuel sm c →
  snd (cached_ancestors_for fuel sm s c) = Ok l →
  NoDup l ∧ (s ∉ l) ∧ ("" ∉ l) ∧
  (∀ a, a ∈ l ↔ ancestor sm a s) ∧
  ¬ ancestor sm s s.
Proof.
  intros Hc Hl. rewrite cached_ancestors_for_snd in Hl by done.
  by apply (ancestors_for_returns_body fuel).
Qed.

Lemma ancestors_for_returns_witness :
  NoDup ["R1"; "O"] ∧ ("a" ∉ ["R1"; "O"]) ∧ ("" ∉ ["R1"; "O"]) ∧
  (∀ x, x ∈ ["R1"; "O"] ↔ ancestor machine_W x "a") ∧
  ¬ ancestor machine_W "a" "a".
Proof.
  apply (ancestors_for_returns 9 machine_W caches_W "a" ["R1"; "O"]).
  - apply coherent_caches_W.
  - vm_compute; reflexivity.
Defined.

(** ** Equality and hashing *)

(** X15. Equality of events and of states looks at the name only: it is an
    equivalence, it ignores the payload of an event and the class and the
    contents of a state, an event and a state are never equal, and objects
    that are equal have the same hash. *)
Theorem eq_by_name_agrees_with_hash (hash_str : string → Z) :
  (∀ e1 e2 : Event,
     (Event__eq__ e1 (ObjEvent e2) = true ↔ event_name e1 = event_name e2) ∧
     (Event__eq__ e1 (ObjEvent e2) = true →
      Event__hash__ hash_str e1 = Event__hash__ hash_str e2) ∧
     Event__eq__ e1 (ObjEvent e2) = Event__eq__ e2 (ObjEvent e1)) ∧
  (∀ e1 e2 e3 : Event,
     Event__eq__ e1 (ObjEvent e2) = true → Event__eq__ e2 (ObjEvent e3) = true →
     Event__eq__ e1 (ObjEvent e3) = true) ∧
  (∀ st1 st2 : State,
     (State__eq__ st1 (ObjState st2) = true ↔ state_name st1 = state_name st2) ∧
     (State__eq__ st1 (ObjState st2) = true →
      State__hash__ hash_str st1 = State__hash__ hash_str st2) ∧
     State__eq__ st1 (ObjState st2) = State__eq__ st2 (ObjState st1)) ∧
  (∀ st1 st2 st3 : State,
     State__eq__ st1 (ObjState st2) = true → State__eq__ st2 (ObjState st3) = true →
     State__eq__ st1 (ObjState st3) = true) ∧
  (∀ (e : Event) (st : State),
     Event__eq__ e (ObjState st) = false ∧ State__eq__ st (ObjEvent e) = false ∧
     Event__eq__ e ObjOther = false ∧ State__eq__ st ObjOther = false) ∧
  (∀ n en ex d1 d2,
     State__eq__ (BasicState n en ex []) (ObjState (FinalState n None None)) = true ∧
     Event__eq__ (mkEvent n d1) (ObjEvent (mkEvent n d2)) = true).
Proof.
  split_and!.
  - intros e1 e2. unfold Event__eq__, Event__hash__. rewrite String.eqb_eq.
    split_and!; [done|by intros ->|apply String.eqb_sym].
  - intros e1 e2 e3. unfold Event__eq__. rewrite !String.eqb_eq. congruence.
  - intros st1 st2. unfold State__eq__, State__hash__. rewrite String.eqb_eq.
    split_and!; [done|by intros ->|apply String.eqb_sym].
  - intros st1 st2 st3. unfold State__eq__. rewrite !String.eqb_eq. congruence.
  - done.
  - intros n en ex d1 d2. simpl. by rewrite String.eqb_refl.
Qed.

(** ** [to_dict] on a valid registry *)

Lemma State_to_dict_states_get owner st :
  dict_get "states" (State_to_dict owner st)
  = if composite st then Some (VRef (ChildrenOf owner)) else None.
Proof.
  destruct st as [n en ex trs|n i en ex trs chs|n en ex trs chs|n i deep mem|n en ex];
    unfold State_to_dict, ActionStateMixin_to_dict, TransitionStateMixin_to_dict,
      opt_entry;
    repeat case_match; simpl; done.
Qed.

Lemma deref_set_list h r l : deref (set_list h r l) r = l.
Proof. destruct r; simpl; [done|]. by rewrite lookup_insert_eq. Qed.

Lemma deref_set_list_ne h r r' l : r' ≠ r → deref (set_list h r l) r' = deref h r'.
Proof.
  intros Hne. destruct r, r'; simpl; try done.
  rewrite lookup_insert_ne; [done|]. congruence.
Qed.

Lemma set_list_twice h r l l' : set_list (set_list h r l) r l' = set_list h r l'.
Proof. destruct r; simpl; [done|]. by rewrite insert_insert_eq. Qed.

Lemma assign_set_list h r i v :
  i < length (deref h r) →
  assign h r i v = set_list h r (<[i := v]> (deref h r)).
Proof.
  intros Hi. destruct r as [|n]; simpl in *; [done|]. f_equal.
  destruct (owned h !! n) as [l|] eqn:Hn; simpl in *; [|lia].
  apply map_eq. intros k. destruct (decide (k = n)) as [->|Hne].
  - by rewrite lookup_alter_eq, lookup_insert_eq, Hn.
  - by rewrite lookup_alter_ne, lookup_insert_ne.
Qed.

Lemma set_list_deref h r :
  match r with
  | TopList => True
  | ChildrenOf n => is_Some (owned h !! n)
  end →
  set_list h r (deref h r) = h.
Proof.
  destruct h as [t o]. destruct r as [|n]; simpl; [done|].
  intros [l Hl]. rewrite Hl. simpl. f_equal. by apply insert_id.
Qed.

(** A pass over a list whose items from [length pre] on are still the
    names [rest], the children lists of which are untouched. *)
Lemma expand_names sm r h stack pre rest :
  match r with
  | TopList => True
  | ChildrenOf n => is_Some (owned h !! n)
  end →
  deref h r = pre ++ (VStr <$> rest) →
  (∀ c, c ∈ rest →
        registered sm c ∧ r ≠ ChildrenOf c ∧
        deref h (ChildrenOf c) = VStr <$> kids sm c) →
  expand (length rest) sm r (length pre) h stack
  = (set_list h r (pre ++ (dict_of sm <$> rest)),
     reverse (pushes sm rest) ++ stack, Ok tt).
Proof.
  revert pre h stack. induction rest as [|c rest IH]; intros pre h stack Hpres Hd Hall.
  - simpl. rewrite app_nil_r in *. rewrite <- Hd. by rewrite set_list_deref.
  - destruct (Hall c) as ([st Hst] & Hrc & Hkc); [apply elem_of_cons; by left|].
    rewrite fmap_cons in Hd. cbn [length expand].
    rewrite Hd, (list_lookup_middle pre (VStr <$> rest) (VStr c) _ eq_refl).
    rewrite Hst. cbv zeta.
    assert (length pre < length (deref h r)) as Hlt.
    { rewrite Hd, length_app. simpl. lia. }
    rewrite (assign_set_list h r _ _ Hlt), Hd.
    assert (<[length pre := VDict (State_to_dict c st)]>
              (pre ++ VStr c :: (VStr <$> rest))
            = (pre ++ [dict_of sm c]) ++ (VStr <$> rest)) as ->.
    { rewrite insert_app_r_alt; [|lia]. rewrite Nat.sub_diag. simpl.
      unfold dict_of. rewrite Hst. by rewrite <- app_assoc. }
    set (h1 := set_list h r ((pre ++ [dict_of sm c]) ++ (VStr <$> rest))).
    assert (deref h1 (ChildrenOf c) = VStr <$> kids sm c) as Hkc1.
    { unfold h1. rewrite deref_set_list_ne; [done|]. congruence. }
    assert (match dict_get "states" (State_to_dict c st) with
            | Some (VRef r') =>
                if 0 <? length (deref h1 r') then r' :: stack else stack
            | _ => stack
            end
            = (if decide (kids sm c = []) then [] else [ChildrenOf c]) ++ stack)
      as ->.
    { rewrite State_to_dict_states_get. unfold kids in *. rewrite Hst in *.
      destruct (composite st) eqn:Hcomp.
      - rewrite Hkc1, length_fmap. destruct (state_children st); simpl; done.
      - destruct st; simpl in *; done. }
    replace (S (length pre)) with (length (pre ++ [dict_of sm c]))
      by (rewrite length_app; simpl; lia).
    rewrite IH.
    + unfold h1. rewrite set_list_twice.
      assert (reverse (pushes sm (c :: rest))
              = reverse (pushes sm rest)
                ++ (if decide (kids sm c = []) then [] else [ChildrenOf c])) as ->.
      { unfold pushes. rewrite bind_cons, reverse_app.
        by destruct (decide (kids sm c = [])). }
      by rewrite fmap_cons, <- !app_assoc.
    + unfold h1. destruct r; simpl; [done|]. rewrite lookup_insert_eq. eauto.
    + unfold h1. by rewrite deref_set_list.
    + intros c' Hc'. destruct (Hall c') as (Hreg & Hne & Hk); [apply elem_of_cons; by right|].
      split_and!; [done..|]. unfold h1. rewrite deref_set_list_ne; [done|]. congruence.
Qed.

Lemma deref_store_at sm P r :
  deref (store_at sm P) r
  = if bool_decide (r ∈ P) then dict_of sm <$> names sm r
    else VStr <$> names sm r.
Proof.
  destruct r as [|n]; simpl; [done|]. rewrite map_lookup_imap. unfold kids.
  destruct (states sm !! n) as [st|]; simpl; [|by case_bool_decide].
  destruct (composite st) eqn:Hc; simpl; [done|].
  destruct st; simpl in *; try done; by case_bool_decide.
Qed.

Lemma store_at_present sm P n :
  kids sm n ≠ [] → is_Some (owned (store_at sm P) !! n).
Proof.
  intros Hk. simpl. rewrite map_lookup_imap. unfold kids in Hk.
  destruct (states sm !! n) as [st|]; simpl; [|done].
  destruct st; simpl in *; try done; eauto.
Qed.

Lemma bool_decide_cons_ne (r r' : ref) (P : list ref) :
  r ≠ r' → bool_decide (r ∈ r' :: P) = bool_decide (r ∈ P).
Proof.
  intros Hne. apply bool_decide_ext. rewrite elem_of_cons.
  split; [by intros [?|?]|by right].
Qed.

Lemma bool_decide_cons_eq (r : ref) (P : list ref) :
  bool_decide (r ∈ r :: P) = true.
Proof. apply bool_decide_eq_true_2. apply elem_of_cons; by left. Qed.

Lemma store_at_cons sm P r :
  match r with
  | TopList => True
  | ChildrenOf n => kids sm n ≠ []
  end →
  set_list (store_at sm P) r (dict_of sm <$> names sm r) = store_at sm (r :: P).
Proof.
  intros Hr. destruct r as [|n]; unfold store_at, set_list; cbn [top owned names].
  - rewrite bool_decide_cons_eq. f_equal.
    apply map_eq. intros k. rewrite !map_lookup_imap.
    destruct (states sm !! k) as [st|]; [|done]. cbn.
    by rewrite bool_decide_cons_ne.
  - rewrite (bool_decide_cons_ne TopList (ChildrenOf n)); [|done]. f_equal.
    apply map_eq. intros k. destruct (decide (k = n)) as [->|Hne].
    + rewrite lookup_insert_eq, map_lookup_imap. unfold kids in *.
      destruct (states sm !! n) as [st|]; [|done]. cbn.
      rewrite bool_decide_cons_eq. by destruct st.
    + rewrite lookup_insert_ne; [|done]. rewrite !map_lookup_imap.
      destruct (states sm !! k) as [st|]; [|done]. cbn.
      rewrite (bool_decide_cons_ne (ChildrenOf k) (ChildrenOf n)); [done|congruence].
Qed.

Lemma store_of_store_at sm : store_of sm = store_at sm [].
Proof.
  unfold store_of, store_at. f_equal. apply map_eq. intros k.
  rewrite lookup_omap, map_lookup_imap.
  destruct (states sm !! k) as [st|]; simpl; [|done].
  by destruct (composite st).
Qed.

Lemma elem_of_pushes sm l r :
  r ∈ pushes sm l ↔ ∃ c, r = ChildrenOf c ∧ c ∈ l ∧ kids sm c ≠ [].
Proof.
  unfold pushes. rewrite list_elem_of_bind. split.
  - intros (c & Hr & Hc). destruct (decide (kids sm c = [])); [by apply elem_of_nil in Hr|].
    apply list_elem_of_singleton in Hr. eauto.
  - intros (c & -> & Hc & Hk). exists c. split; [|done].
    destruct (decide (kids sm c = [])); [done|]. by apply list_elem_of_singleton.
Qed.

Lemma NoDup_pushes sm l : NoDup l → NoDup (pushes sm l).
Proof.
  induction 1 as [|c l Hc Hl IH]; [constructor|].
  unfold pushes. rewrite bind_cons. fold (pushes sm l).
  destruct (decide (kids sm c = [])); [done|]. simpl.
  constructor; [|done]. intros Hin. apply elem_of_pushes in Hin as (c' & [= <-] & Hc' & _).
  done.
Qed.

Lemma refs_length sm (l : list ref) :
  NoDup l → (∀ n, ChildrenOf n ∈ l → registered sm n) →
  length l ≤ S (size (states sm)).
Proof.
  intros Hnd Hreg.
  assert (NoDup (ref_name <$> l)) as Hnd'.
  { apply NoDup_fmap_2; [|done]. intros [|a] [|b]; simpl; congruence. }
  rewrite <- (length_fmap ref_name l).
  transitivity (length (None :: (Some <$> elements (dom (states sm))))).
  - apply submseteq_length. apply NoDup_submseteq; [done|].
    intros o Ho. apply list_elem_of_fmap in Ho as (r & -> & Hr).
    destruct r as [|n]; simpl; [apply elem_of_cons; by left|].
    apply elem_of_cons; right. apply list_elem_of_fmap. exists n. split; [done|].
    apply elem_of_elements, elem_of_dom. by apply Hreg.
  - simpl. rewrite length_fmap. rewrite <- size_dom. done.
Qed.

Lemma valid_names_container sm r c :
  valid sm = true → c ∈ names sm r → registered sm c ∧ container sm c = r.
Proof.
  intros Hv Hc. destruct r as [|n]; simpl in Hc.
  - pose proof Hv as Hv'. apply valid_iff in Hv' as (_ & _ & Ht).
    apply top_ok_iff in Ht as [_ Ht]. destruct (Ht c Hc) as [Hreg Hpo].
    split; [by apply valid_registered|]. unfold container. by rewrite Hpo.
  - split; [by eapply valid_kids_registered|].
    unfold container. by rewrite (valid_kids_parent _ _ _ Hv Hc).
Qed.

Lemma valid_container_names sm c :
  valid sm = true → registered sm c → c ∈ names sm (container sm c).
Proof.
  intros Hv Hc. unfold container.
  destruct (parent_of sm c) as [p|] eqn:Hp; simpl.
  - by apply valid_parent_kids.
  - apply (valid_registered _ _ Hv) in Hc as [par Hpar].
    pose proof (valid_link_ok _ _ _ Hv Hpar) as Hl.
    apply link_ok_iff in Hl as (_ & Hl & _).
    unfold parent_of in Hp. rewrite Hpar in Hp. simpl in Hp. by rewrite Hp in Hl.
Qed.

Lemma valid_names_NoDup sm r : valid sm = true → NoDup (names sm r).
Proof.
  intros Hv. destruct r as [|n]; simpl; [|by apply valid_kids_NoDup].
  apply valid_iff in Hv as (_ & _ & Ht). by apply top_ok_iff in Ht as [? _].
Qed.

Lemma to_dict_inv_step sm P r stack :
  valid sm = true → to_dict_inv sm P (r :: stack) →
  to_dict_inv sm (r :: P) (reverse (pushes sm (names sm r)) ++ stack).
Proof.
  intros Hv [Hnd Htop Hrefs].
  apply NoDup_app in Hnd as (HndP & Hdis & Hnds).
  apply NoDup_cons in Hnds as [Hrs Hnds].
  assert (r ∉ P) as HrP.
  { intros Hin. apply (Hdis r Hin). apply elem_of_cons; by left. }
  assert (∀ c, c ∈ names sm r → ChildrenOf c ∉ P ++ r :: stack) as Hfresh.
  { intros c Hc Hin. apply Hrefs in Hin as (_ & _ & Hcont).
    destruct (valid_names_container sm r c Hv Hc) as [_ Hcr]. congruence. }
  split.
  - rewrite <- app_comm_cons. apply NoDup_cons. split.
    + intros Hin. apply elem_of_app in Hin as [Hin|Hin]; [done|].
      apply elem_of_app in Hin as [Hin|Hin]; [|done].
      apply elem_of_reverse, elem_of_pushes in Hin as (c & -> & Hc & _).
      apply (Hfresh c Hc). apply elem_of_app; right. apply elem_of_cons; by left.
    + apply NoDup_app. split_and!; [done| |].
      * intros x Hx Hin. apply elem_of_app in Hin as [Hin|Hin].
        -- apply elem_of_reverse, elem_of_pushes in Hin as (c & -> & Hc & _).
           apply (Hfresh c Hc). apply elem_of_app; by left.
        -- apply (Hdis x Hx). apply elem_of_cons; by right.
      * apply NoDup_app. split_and!; [|  |done].
        -- rewrite reverse_Permutation. apply NoDup_pushes.
           by apply valid_names_NoDup.
        -- intros x Hx Hin.
           apply elem_of_reverse, elem_of_pushes in Hx as (c & -> & Hc & _).
           apply (Hfresh c Hc). apply elem_of_app; right. apply elem_of_cons; by right.
  - apply elem_of_app in Htop as [Hin|Hin].
    + apply elem_of_app; left. apply elem_of_cons; by right.
    + apply elem_of_cons in Hin as [->|Hin].
      * apply elem_of_app; left. apply elem_of_cons; by left.
      * apply elem_of_app; right. apply elem_of_app; by right.
  - intros n. split.
    + intros Hin. rewrite <- app_comm_cons in Hin.
      assert (ChildrenOf n ∈ P ++ r :: stack
              ∨ ChildrenOf n ∈ pushes sm (names sm r)) as [Hold|Hnew].
      { apply elem_of_cons in Hin as [->|Hin].
        - left. apply elem_of_app; right. apply elem_of_cons; by left.
        - apply elem_of_app in Hin as [Hin|Hin]; [left; apply elem_of_app; by left|].
          apply elem_of_app in Hin as [Hin|Hin]; [right; by apply elem_of_reverse|].
          left. apply elem_of_app; right. apply elem_of_cons; by right. }
      * apply Hrefs in Hold as (? & ? & ?). split_and!; [done..|].
        apply elem_of_cons; by right.
      * apply elem_of_pushes in Hnew as (c & [= ->] & Hc & Hk).
        destruct (valid_names_container sm r c Hv Hc) as [Hreg Hcr].
        split_and!; [done..|]. rewrite Hcr. apply elem_of_cons; by left.
    + intros (Hreg & Hk & Hcont). rewrite <- app_comm_cons.
      apply elem_of_cons in Hcont as [Hcr|Hcont].
      * apply elem_of_cons; right. apply elem_of_app; right.
        apply elem_of_app; left. apply elem_of_reverse, elem_of_pushes.
        exists n. split_and!; [done| |done]. rewrite <- Hcr.
        by apply valid_container_names.
      * assert (ChildrenOf n ∈ P ++ r :: stack) as Hin by (apply Hrefs; done).
        apply elem_of_app in Hin as [Hin|Hin].
        -- apply elem_of_cons; right. apply elem_of_app; by left.
        -- apply elem_of_cons in Hin as [<-|Hin]; [apply elem_of_cons; by left|].
           apply elem_of_cons; right. apply elem_of_app; right.
           apply elem_of_app; by right.
Qed.

Lemma to_dict_loop_inv sm fuel P stack :
  valid sm = true → to_dict_inv sm P stack →
  S (size (states sm)) < fuel + length P →
  ∃ P', to_dict_loop fuel sm stack (store_at sm P) = (store_at sm P', Ok tt)
        ∧ to_dict_inv sm P' [].
Proof.
  intros Hv. revert P stack. induction fuel as [|fuel IH]; intros P stack Hinv Hfuel.
  - destruct stack as [|r stack]; [by exists P|]. exfalso.
    assert (length (P ++ r :: stack) ≤ S (size (states sm))) as Hlen.
    { apply refs_length; [by destruct Hinv|].
      intros n Hn. by apply (td_refs _ _ _ Hinv) in Hn as (? & _). }
    rewrite length_app in Hlen. simpl in Hlen, Hfuel. lia.
  - destruct stack as [|r stack]; [by exists P|].
    pose proof Hinv as [Hnd Htop Hrefs].
    assert (r ∉ P) as HrP.
    { apply NoDup_app in Hnd as (_ & Hdis & _). intros Hin.
      apply (Hdis r Hin). apply elem_of_cons; by left. }
    assert (r ∈ P ++ r :: stack) as Hrin.
    { apply elem_of_app; right. apply elem_of_cons; by left. }
    assert (deref (store_at sm P) r = VStr <$> names sm r) as Hderef.
    { rewrite deref_store_at. by rewrite bool_decide_eq_false_2. }
    assert (match r with
            | TopList => True
            | ChildrenOf n => kids sm n ≠ []
            end) as Hr.
    { destruct r as [|n]; [done|]. by apply Hrefs in Hrin as (_ & ? & _). }
    cbn [to_dict_loop]. rewrite Hderef, length_fmap.
    pose proof (expand_names sm r (store_at sm P) stack [] (names sm r)) as Hex.
    cbn [length app] in Hex. rewrite Hex.
    + rewrite (store_at_cons sm P r Hr).
      apply (IH (r :: P)); [by apply to_dict_inv_step|]. simpl. lia.
    + destruct r as [|n]; [done|]. by apply store_at_present.
    + done.
    + intros c Hc. destruct (valid_names_container sm r c Hv Hc) as [Hreg Hcr].
      assert (ChildrenOf c ∉ P ++ r :: stack) as Hfresh.
      { intros Hin. apply Hrefs in Hin as (_ & _ & Hcont). congruence. }
      split_and!; [done| |].
      * intros ->. done.
      * rewrite deref_store_at. rewrite bool_decide_eq_false_2; [done|].
        intros Hin. apply Hfresh. apply elem_of_app; by left.
Qed.

Lemma to_dict_inv_container sm P n par l :
  valid sm = true → to_dict_inv sm P [] →
  parent sm !! n = Some par → path sm par l → container sm n ∈ P.
Proof.
  intros Hv [_ Htop Hrefs] Hn Hl. rewrite app_nil_r in Htop.
  revert n Hn. induction Hl as [par Ht|par p par' l Ht Hp Hl IH]; intros n Hn.
  - unfold container, parent_of. rewrite Hn. simpl. by rewrite Ht.
  - assert (parent_of sm n = Some p) as Hpo.
    { unfold parent_of. rewrite Hn. done. }
    unfold container. rewrite Hpo.
    specialize (Hrefs p). rewrite app_nil_r in Hrefs. apply Hrefs. split_and!.
    + apply valid_registered; eauto.
    + intros Hk. apply (valid_parent_kids _ _ _ Hv) in Hpo. rewrite Hk in Hpo.
      by apply elem_of_nil in Hpo.
    + by apply IH.
Qed.

(** X16. On a valid registry whose lists [to_dict] has not touched yet, the
    call returns the dictionary of the machine, with the keys [name],
    [initial], [states] and, if set, [execute]; and it leaves every children
    list, the top-level one included, holding the dictionaries of the
    states it named, in the same order. *)
Theorem to_dict_projects fuel sm :
  valid sm = true → S (size (states sm)) < fuel →
  to_dict fuel sm (store_of sm)
  = (projected sm,
     Ok (VDict [("statemachine",
                 VDict ([("name", VStr (name sm));
                         ("initial", VStr (initial sm));
                         ("states", VRef TopList)]
                        ++ opt_entry "execute" (execute sm)))])).
Proof.
  intros Hv Hfuel. unfold to_dict. rewrite store_of_store_at.
  destruct (to_dict_loop_inv sm fuel [] [TopList] Hv) as (P & Hloop & Hinv).
  { split.
    - apply NoDup_singleton.
    - apply elem_of_cons; by left.
    - intros n. simpl. split.
      + intros Hin. by apply list_elem_of_singleton in Hin.
      + intros (_ & _ & Hin). by apply elem_of_nil in Hin. }
  { simpl. lia. }
  rewrite Hloop. simpl. f_equal.
  pose proof Hinv as [_ Htop Hrefs]. rewrite app_nil_r in Htop.
  unfold store_at, projected. f_equal.
  - by rewrite bool_decide_eq_true_2.
  - apply map_eq. intros k. rewrite lookup_omap, map_lookup_imap.
    destruct (states sm !! k) as [st|] eqn:Hst; [|done]. cbn.
    destruct (composite st) eqn:Hcomp; [|done]. f_equal.
    case_bool_decide as Hin; [done|].
    destruct (state_children st) as [|c chs] eqn:Hchs; [done|]. exfalso.
    apply Hin. specialize (Hrefs k). rewrite app_nil_r in Hrefs. apply Hrefs.
    assert (registered sm k) as Hreg by (by exists st).
    split_and!; [done| |].
    + unfold kids. by rewrite Hst, Hchs.
    + pose proof Hreg as Hreg'.
      apply (valid_registered _ _ Hv) in Hreg' as [par Hpar].
      destruct (valid_path _ _ _ Hv Hpar) as (l & Hl & _).
      by eapply to_dict_inv_container.
Qed.

Lemma to_dict_projects_witness :
  to_dict 10 machine_W (store_of machine_W)
  = (projected machine_W,
     Ok (VDict [("statemachine",
                 VDict ([("name", VStr (name machine_W));
                         ("initial", VStr (initial machine_W));
                         ("states", VRef TopList)]
                        ++ opt_entry "execute" (execute machine_W)))])).
Proof.
  apply (to_dict_projects 10 machine_W).
  - vm_compute; reflexivity.
  - vm_compute; lia.
Defined.

(** ** The dictionary of a state *)

Lemma State_to_dict_marks owner st :
  dict_get "name" (State_to_dict owner st) = Some (VStr (state_name st)) ∧
  dict_get "orthogonal" (State_to_dict owner st)
  = match class_of st with ClsOrthogonal => Some VTrue | _ => None end ∧
  dict_get "type" (State_to_dict owner st)
  = match class_of st with
    | ClsHistory => Some (VStr "history")
    | ClsFinal => Some (VStr "final")
    | _ => None
    end.
Proof.
  destruct st as [n en ex trs|n i en ex trs chs|n en ex trs chs|n i deep mem|n en ex];
    unfold State_to_dict, ActionStateMixin_to_dict, TransitionStateMixin_to_dict,
      opt_entry;
    repeat case_match; simpl; done.
Qed.

(** X17. The dictionary of a state carries its name under [name] and the
    marker of its class: [orthogonal] for an orthogonal state, [type] for a
    history or a final state, and the key [states], with the state's own
    children list, for the two composite classes and no other.  So the
    dictionaries of two states of different classes, or of different names,
    differ. *)
Theorem State_to_dict_tells_class owner st :
  dict_get "name" (State_to_dict owner st) = Some (VStr (state_name st)) ∧
  dict_get "orthogonal" (State_to_dict owner st)
  = match class_of st with ClsOrthogonal => Some VTrue | _ => None end ∧
  dict_get "type" (State_to_dict owner st)
  = match class_of st with
    | ClsHistory => Some (VStr "history")
    | ClsFinal => Some (VStr "final")
    | _ => None
    end ∧
  dict_get "states" (State_to_dict owner st)
  = match class_of st with
    | ClsCompound | ClsOrthogonal => Some (VRef (ChildrenOf owner))
    | _ => None
    end ∧
  ∀ owner' st',
    State_to_dict owner' st' = State_to_dict owner st →
    class_of st' = class_of st ∧ state_name st' = state_name st.
Proof.
  destruct (State_to_dict_marks owner st) as (Hn & Ho & Ht).
  pose proof (State_to_dict_states_get owner st) as Hs.
  split_and!; [done..| |].
  - rewrite Hs. by destruct st.
  - intros owner' st' Heq.
    destruct (State_to_dict_marks owner' st') as (Hn' & Ho' & Ht').
    pose proof (State_to_dict_states_get owner' st') as Hs'.
    rewrite Heq in Hn', Ho', Ht', Hs'.
    rewrite Hn in Hn'. rewrite Ho in Ho'. rewrite Ht in Ht'. rewrite Hs in Hs'.
    split; [|congruence].
    destruct st, st'; simpl in *; congruence.
Qed.

(** ** Transitions owned by states *)

(** X18. Every transition that a state owns is in the list of the machine
    and names that state as its source: this holds for a new machine and is
    kept by [register_transition], whether it returns or raises, and by
    [register_state] of a state that owns no transition yet. *)
Theorem owned_transitions_registered :
  (∀ n init exec, owned_registered (StateMachine_init n init exec)) ∧
  (∀ sm t, owned_registered sm →
           owned_registered (fst (register_transition sm t))) ∧
  (∀ sm st p, owned_registered sm → state_transitions st = [] →
              owned_registered (fst (register_state sm st p))).
Proof.
  split_and!.
  - intros n init exec k st t Hk. simpl in Hk. by rewrite lookup_empty in Hk.
  - intros sm t Hinv k st0 t0. unfold register_transition.
    destruct (states sm !! from_state t) as [st|] eqn:Hst.
    + pose proof (add_transition_outcome st t) as Hadd.
      destruct (add_transition st t) as [st'|e|]; simpl.
      * destruct Hadd as (_ & _ & Htr).
        destruct (decide (k = from_state t)) as [->|Hne].
        -- rewrite lookup_insert_eq. intros [= <-] Hin. rewrite Htr in Hin.
           apply elem_of_app in Hin as [Hin|Hin].
           ++ destruct (Hinv _ _ _ Hst Hin) as [? ?]. split; [|done].
              apply elem_of_app; by left.
           ++ apply list_elem_of_singleton in Hin. subst t0. split; [|done].
              apply elem_of_app; right. by apply list_elem_of_singleton.
        -- rewrite lookup_insert_ne; [|done]. intros Hk Hin.
           destruct (Hinv _ _ _ Hk Hin) as [? ?]. split; [|done].
           apply elem_of_app; by left.
      * intros Hk Hin. destruct (Hinv _ _ _ Hk Hin) as [? ?]. split; [|done].
        apply elem_of_app; by left.
      * done.
    + simpl. intros Hk Hin. destruct (Hinv _ _ _ Hk Hin) as [? ?]. split; [|done].
      apply elem_of_app; by left.
  - intros sm st p Hinv Hnone k st0 t0.
    assert (∀ k st0, <[state_name st := st]> (states sm) !! k = Some st0 →
              t0 ∈ state_transitions st0 →
              t0 ∈ transitions sm ∧ from_state t0 = k) as Hinv1.
    { intros k' st1. destruct (decide (k' = state_name st)) as [->|Hne].
      - rewrite lookup_insert_eq. intros [= <-]. rewrite Hnone.
        intros Hin. by apply elem_of_nil in Hin.
      - rewrite lookup_insert_ne; [|done]. apply Hinv. }
    unfold register_state. destruct (parent_name p) as [pn|]; [|by apply Hinv1].
    destruct (<[state_name st := st]> (states sm) !! pn) as [pst|] eqn:Hpst;
      [|by apply Hinv1].
    destruct pst as [n en ex trs|n i en ex trs chs|n en ex trs chs|n i deep mem|n en ex];
      simpl; try (by apply Hinv1).
    + destruct (decide (k = pn)) as [->|Hne].
      * rewrite lookup_insert_eq. intros [= <-]. simpl. by apply (Hinv1 _ _ Hpst).
      * rewrite lookup_insert_ne; [|done]. apply Hinv1.
    + destruct (decide (k = pn)) as [->|Hne].
      * rewrite lookup_insert_eq. intros [= <-]. simpl. by apply (Hinv1 _ _ Hpst).
      * rewrite lookup_insert_ne; [|done]. apply Hinv1.
Qed.
